(** * k-means++ seeding and HMM output models of scikit-time

    Part one (sktime/clustering/include/kmeans.h): a shallow embedding of
    [initKmeansPlusPlus], [util::assignCenter] and the four-argument
    [costFunction] overload, together with the properties the specification
    states about them.  Part two
    (sktime/markovprocess/hmm/_bindings/include/OutputModelUtils.h): the
    functions of the output models that compute on arrays without drawing
    random numbers.

    The template parameter [dtype] is kept abstract (class [Numeric]); the
    embedding is the instantiation in which [dtype] and [double] coincide, so
    the conversions between the two are the identity.  The random generator
    (distribution_utils.h) and the metric (metric.h) are interfaces of the
    function and stay parameters. *)

From Stdlib Require Import ZArith QArith Reals Lia Lra Sorting.Sorted.
From Stdlib Require Import Floats.PrimFloat.
From stdpp Require Import base option list.

Local Open Scope nat_scope.

(** ** The numeric type [dtype] *)

Class Numeric (F : Type) := {
  fzero : F;                 (* dtype{0} *)
  fone  : F;                 (* the upper end of uniformReal(0, 1) *)
  fadd  : F -> F -> F;       (* operator+ *)
  fmul  : F -> F -> F;       (* operator* *)
  flt   : F -> F -> bool;    (* operator< *)
}.

(** [a <= b] read as [!(b < a)], the only comparison the algorithms use. *)
Definition fle `{Numeric F} (a b : F) : bool := negb (flt b a).

(** [std::min(a, b)]: [(b < a) ? b : a]. *)
Definition std_min `{Numeric F} (a b : F) : F := if flt b a then b else a.

(** ** The random generator

    [uniform hi g] is [std::uniform_int_distribution<std::int64_t>(0, hi)(g)],
    [uniformReal g] is [std::uniform_real_distribution<double>(0, 1)(g)]; both
    return the drawn value and the advanced generator.  The argument of
    [randomlySeededGenerator] is the entropy the environment supplies. *)

Class Generator (F G : Type) := {
  seededGenerator : Z -> G;
  randomlySeededGenerator : Z -> G;
  uniform : nat -> G -> nat * G;
  uniformReal : G -> F * G;
}.

(** ** Arrays, exceptions and outcomes *)

Record np_array (A : Type) := NpArray { shape : list nat; buf : list A }.
Arguments NpArray {A} _ _.
Arguments shape {A} _.
Arguments buf {A} _.

Definition ndim {A} (a : np_array A) : nat := length (shape a).

(** The progress callback returns a value the caller may read as a request. *)
Inductive answer := Continue | Cancel.

(** Effects visible outside the call. *)
Inductive event :=
| omp_set_num_threads (n : Z)
| callback_called (nth : nat) (ret : answer).

Inductive reason := not_enough_data (frames k : nat) | not_two_dimensions.

Inductive exn :=
| invalid_argument (what : reason)
| index_error.

(** A call returns, throws (after the effects [w]), or has undefined
    behaviour (an access outside a buffer, a conversion out of range). *)
Inductive outcome (A : Type) :=
| Returned (a : A)
| Thrown (e : exn) (w : list event)
| Undefined.
Arguments Returned {A} a.
Arguments Thrown {A} e w.
Arguments Undefined {A}.

#[global] Instance outcome_ret : MRet outcome := fun A a => Returned a.
#[global] Instance outcome_bind : MBind outcome := fun A B f m =>
  match m with
  | Returned a => f a
  | Thrown e w => Thrown e w
  | Undefined => Undefined
  end.

(** An access that is only defined inside the buffer. *)
Definition defined {A} (o : option A) : outcome A :=
  match o with Some a => Returned a | None => Undefined end.

(** ** Building blocks *)

(** The metric, as [computeDistances<true>] evaluates it on two points. *)
Definition Metric (F : Type) := list F -> list F -> F.

Section Seeding.
Context {F G : Type} `{Numeric F} `{Generator F G}.

(** [ptr + i * dim .. ptr + i * dim + dim]. *)
Definition row (dim : nat) (b : list F) (i : nat) : list F :=
  take dim (drop (i * dim) b).

Definition read_row (dim : nat) (b : list F) (i : nat) : option (list F) :=
  if decide (i * dim + dim <= length b) then Some (row dim b i) else None.

(** [std::copy(src.begin(), src.end(), dst + off)]. *)
Definition write_at (off : nat) (src dst : list F) : option (list F) :=
  if decide (off + length src <= length dst)
  then Some (take off dst ++ src ++ drop (off + length src) dst)
  else None.

(** [util::assignCenter(frameIndex, dim, data, centers + off)]. *)
Definition assignCenter (frameIndex dim : nat) (data centers : list F) (off : nat)
  : option (list F) :=
  r ← read_row dim data frameIndex; write_at off r centers.

(** Modelled from the spec: metric.h is not part of the sources.  The
    distance matrix [Q, R] of [computeDistances(query[Q,D], reference[R,D], ...)],
    row-major: cell [q * R + r] is the metric's squared distance between query
    point [q] and reference point [r]. *)
Definition computeDistances (metric : Metric F)
    (xs : list F) (nXs : nat) (ys : list F) (nYs : nat) (dim : nat) : list F :=
  concat (map (fun q => map (fun r => metric (row dim xs q) (row dim ys r)) (seq 0 nYs))
              (seq 0 nXs)).

(** Row [i] of the matrix when the queries are frames of the data: the
    squared distances from frame [i] to every frame. *)
Definition dists_to (metric : Metric F) (data : list F) (nFrames dim : nat) (i : nat)
  : list F :=
  map (fun r => metric (row dim data i) (row dim data r)) (seq 0 nFrames).

(** [std::partial_sum]. *)
Fixpoint partial_sum_from (acc : F) (l : list F) : list F :=
  match l with
  | [] => []
  | x :: l' => let acc' := fadd acc x in acc' :: partial_sum_from acc' l'
  end.

Definition partial_sum (l : list F) : list F :=
  match l with
  | [] => []
  | x :: l' => x :: partial_sum_from x l'
  end.

(** [std::generate(trialValues, trialGenerator)]: each value is
    [currentPotential * uniformReal(generator)], drawn in index order. *)
Fixpoint generate (n : nat) (currentPotential : F) (g : G) : list F * G :=
  match n with
  | 0 => ([], g)
  | S n' =>
      let '(u, g1) := uniformReal g in
      let '(ts, g2) := generate n' currentPotential g1 in
      (fmul currentPotential u :: ts, g2)
  end.

(** [std::sort] on [operator<]. *)
Fixpoint insert_sorted (x : F) (l : list F) : list F :=
  match l with
  | [] => [x]
  | y :: l' => if flt x y then x :: y :: l' else y :: insert_sorted x l'
  end.

Fixpoint std_sort (l : list F) : list F :=
  match l with
  | [] => []
  | x :: l' => insert_sorted x (std_sort l')
  end.

(** [std::lower_bound(a + first, a + first + len, v)] as an index into [a]:
    the bisection of the standard library; [fuel] bounds the number of
    halvings and [len] is always enough. *)
Fixpoint lower_bound_loop (fuel first len : nat) (v : F) (a : list F) : nat :=
  match fuel with
  | 0 => first
  | S fuel' =>
      if len =? 0 then first
      else
        let half := len / 2 in
        let middle := first + half in
        match a !! middle with
        | Some x =>
            if flt x v
            then lower_bound_loop fuel' (middle + 1) (len - half - 1) v a
            else lower_bound_loop fuel' first half v a
        | None => first
        end
  end.

Definition lower_bound (first : nat) (a : list F) (v : F) : nat :=
  lower_bound_loop (length a - first) first (length a - first) v a.

(** Lines 154-161: the candidate index of every trial value, the search of
    one trial starting where the previous one ended. *)
Fixpoint find_candidates (currentLowerIt : nat) (distancesCumsum : list F)
    (nFrames : nat) (trialValues : list F) : list nat :=
  match trialValues with
  | [] => []
  | t :: ts =>
      let it := lower_bound currentLowerIt distancesCumsum t in
      let id := if decide (it ≠ length distancesCumsum) then it else nFrames - 1 in
      id :: find_candidates it distancesCumsum nFrames ts
  end.

(** Lines 163-164: the candidates' coordinates, one row after the other. *)
Fixpoint gather_rows (dim : nat) (data : list F) (ids : list nat) : option (list F) :=
  match ids with
  | [] => Some []
  | i :: ids' =>
      r ← read_row dim data i;
      rs ← gather_rows dim data ids';
      Some (r ++ rs)
  end.

(** Lines 171-177: every cell of the [nTrials x nFrames] matrix becomes the
    minimum of itself and the frame's current distance. *)
Definition update_with_best (nTrials nFrames : nat) (distsToCandidates distances : list F)
  : list F :=
  concat (map (fun trial => zip_with std_min (row nFrames distsToCandidates trial) distances)
              (seq 0 nTrials)).

(** The sequential sum [acc = 0; for t: acc += l[t]]. *)
Definition seq_sum (l : list F) : F := fold_left fadd l fzero.

(** The shares of a static schedule: [n] iterations over [team] threads, the
    first [n mod team] threads taking one iteration more. *)
Definition static_schedule (team n : nat) : list nat :=
  map (fun t => n / team + (if decide (t < n mod team) then 1 else 0)) (seq 0 team).

Fixpoint split_chunks (sizes : list nat) (l : list F) : list (list F) :=
  match sizes with
  | [] => []
  | s :: sizes' => take s l :: split_chunks sizes' (drop s l)
  end.

(** [#pragma omp parallel for reduction(+:acc)]: every thread of the team
    sums its share into a private copy that starts at zero, and the private
    copies are then added to the original variable. *)
Definition omp_reduce_sum (team : nat) (l : list F) : F :=
  fold_left fadd (map seq_sum (split_chunks (static_schedule team (length l)) l)) fzero.

(** The team of the parallel regions: [None] when the build has no OpenMP
    (the pragmas are inert), the requested thread count, at least one,
    otherwise. *)
Definition team_of (USE_OPENMP : bool) (n_threads : Z) : option nat :=
  if USE_OPENMP then Some (Z.to_nat (Z.max 1 n_threads)) else None.

Definition reduce_sum (team : option nat) (l : list F) : F :=
  match team with
  | Some t => omp_reduce_sum t l
  | None => seq_sum l
  end.

(** Lines 181-191. *)
Definition trial_potentials (team : option nat) (nTrials nFrames : nat)
    (distsToCandidates : list F) : list F :=
  map (fun trial => reduce_sum team (row nFrames distsToCandidates trial)) (seq 0 nTrials).

(** [std::min_element], as the index of the first smallest element. *)
Fixpoint min_element_from (smallest : nat) (v : F) (i : nat) (l : list F) : nat :=
  match l with
  | [] => smallest
  | x :: l' =>
      if flt x v then min_element_from i x (S i) l'
      else min_element_from smallest v (S i) l'
  end.

Definition min_element (l : list F) : nat :=
  match l with
  | [] => 0
  | x :: l' => min_element_from 0 x 1 l'
  end.

(** [if (!callback.is_none()) callback();] the returned value is dropped. *)
Definition perform_callback (callback : option (nat -> answer)) (nth : nat)
    (w : list event) : list event :=
  match callback with
  | Some f => w ++ [callback_called nth (f nth)]
  | None => w
  end.

(** ** The seeding loop *)

(** The local variables that live across the rounds. *)
Record seeding := Seeding {
  generator : G;
  currentPotential : F;
  distances : list F;
  distancesCumsum : list F;
  centers : list F;
  world : list event;
}.

(** What one round computes before it updates the state (lines 147-197). *)
Record selection := Selection {
  trialValues : list F;
  candidatesIds : list nat;
  candidatesCoords : list F;
  updated : list F;                 (* distsToCandidates after lines 171-177 *)
  candidatesPotentials : list F;
  bestCandidateIx : nat;
  generator' : G;
}.

Definition select (metric : Metric F) (team : option nat) (nTrials : nat)
    (data : list F) (nFrames dim : nat) (st : seeding) : outcome selection :=
  let '(drawn, g) := generate nTrials (currentPotential st) (generator st) in
  let trials := std_sort drawn in
  let ids := find_candidates 0 (distancesCumsum st) nFrames trials in
  coords ← defined (gather_rows dim data ids);
  let distsToCandidates :=
    computeDistances metric coords nTrials data nFrames dim in
  let upd := update_with_best nTrials nFrames distsToCandidates (distances st) in
  let pots := trial_potentials team nTrials nFrames upd in
  Returned (Selection trials ids coords upd pots (min_element pots) g).

(** The body of [for (c = 1; c < k; ++c)]. *)
Definition round (metric : Metric F) (team : option nat) (nTrials : nat)
    (callback : option (nat -> answer))
    (data : list F) (nFrames dim : nat) (c : nat) (st : seeding) : outcome seeding :=
  s ← select metric team nTrials data nFrames dim st;
  bestCandidateId ← defined (candidatesIds s !! bestCandidateIx s);
  potential ← defined (candidatesPotentials s !! bestCandidateIx s);
  let dists := row nFrames (updated s) (bestCandidateIx s) in
  cs ← defined (assignCenter bestCandidateId dim data (centers st) (c * dim));
  Returned (Seeding (generator' s) potential dists (partial_sum dists) cs
                    (perform_callback callback c (world st))).

Fixpoint rounds (metric : Metric F) (team : option nat) (nTrials : nat)
    (callback : option (nat -> answer))
    (data : list F) (nFrames dim : nat) (cs : list nat) (st : seeding) : outcome seeding :=
  match cs with
  | [] => Returned st
  | c :: cs' =>
      st' ← round metric team nTrials callback data nFrames dim c st;
      rounds metric team nTrials callback data nFrames dim cs' st'
  end.

(** Lines 100-135: the first center and the initial potential.  The array
    [centers({k, dim})] starts with unspecified content, here zeros; every
    slot is written before the function returns. *)
Definition first_center (metric : Metric F) (callback : option (nat -> answer))
    (data : list F) (nFrames dim k : nat) (g : G) (w : list event) : outcome seeding :=
  let centers0 := replicate (k * dim) fzero in
  let '(firstCenterIx, g1) := uniform (nFrames - 1) g in
  cs ← defined (assignCenter firstCenterIx dim data centers0 0);
  let w1 := perform_callback callback 0 w in
  let dists := computeDistances metric cs 1 data nFrames dim in
  let cumsum := partial_sum dists in
  potential ← defined (last cumsum);
  Returned (Seeding g1 potential dists cumsum cs w1).

(** The state after center [c] has been added, [c = 0 .. k - 1]. *)
Definition seeding_after (metric : Metric F) (team : option nat) (nTrials : nat)
    (callback : option (nat -> answer))
    (data : list F) (nFrames dim k : nat) (g : G) (w : list event) (c : nat)
  : outcome seeding :=
  st ← first_center metric callback data nFrames dim k g w;
  rounds metric team nTrials callback data nFrames dim (seq 1 c) st.

End Seeding.

Arguments seeding : clear implicits.
Arguments selection : clear implicits.

(** ** [initKmeansPlusPlus] *)

(** Line 98: [static_cast<std::size_t>(2 + std::log(k))], the logarithm read
    as the real one; the conversion truncates, and its operand is at least 2
    for [k >= 1]. *)
Definition nTrials (k : nat) : nat := Z.to_nat (Int_part (2 + ln (INR k))).

Section Entry.
Context {F G : Type} `{Numeric F} `{Generator F G}.

(** Line 93: the generator of the call; [entropy] is what a randomly
    seeded generator reads from the environment. *)
Definition generator_of (seed entropy : Z) : G :=
  if decide (seed < 0)%Z then randomlySeededGenerator entropy else seededGenerator seed.

(** Lines 81-83: the effect of [omp_set_num_threads], in a build that
    defines [USE_OPENMP]. *)
Definition world_of (USE_OPENMP : bool) (n_threads : Z) : list event :=
  if USE_OPENMP then [omp_set_num_threads n_threads] else [].

(** [shape(0)] of an array without dimensions raises pybind11's
    [index_error].  For [k = 0] the operand of the conversion on line 98 is
    minus infinity, which no [std::size_t] holds. *)
Definition initKmeansPlusPlus (USE_OPENMP : bool) (data : np_array F) (k : nat)
    (metric : Metric F) (seed : Z) (n_threads : Z) (callback : option (nat -> answer))
    (entropy : Z) : outcome (np_array F * seeding F G) :=
  match shape data !! 0 with
  | None => Thrown index_error []
  | Some nFrames =>
      if decide (nFrames < k)
      then Thrown (invalid_argument (not_enough_data nFrames k)) []
      else
        let w := world_of USE_OPENMP n_threads in
        if decide (ndim data ≠ 2)
        then Thrown (invalid_argument not_two_dimensions) w
        else
          dim ← defined (shape data !! 1);
          let g := generator_of seed entropy in
          if decide (k = 0) then Undefined
          else
            st ← seeding_after metric (team_of USE_OPENMP n_threads) (nTrials k)
                   callback (buf data) nFrames dim k g w (k - 1);
            Returned (NpArray [k; dim] (centers st), st)
  end.

(** The locals of a call on an [N x D] array after center [c] was added. *)
Definition after_center (USE_OPENMP : bool) (data : np_array F) (k : nat)
    (metric : Metric F) (seed : Z) (n_threads : Z) (callback : option (nat -> answer))
    (entropy : Z) (N D : nat) (c : nat) : outcome (seeding F G) :=
  seeding_after metric (team_of USE_OPENMP n_threads) (nTrials k) callback
    (buf data) N D k (generator_of seed entropy) (world_of USE_OPENMP n_threads) c.

(** ** The cost function (lines 53-62)

    [assign_chunk_to_centers] and the five-argument overload are only
    declared in the header; they are parameters of the four-argument
    overload, which is defined there. *)
Definition costFunction
    (assign_chunk_to_centers :
       np_array F -> np_array F -> Z -> Metric F -> outcome (np_array nat))
    (costFunction_with :
       np_array F -> np_array F -> Metric F -> np_array nat -> Z -> outcome F)
    (np_data np_centers : np_array F) (metric : Metric F) (n_threads : Z) : outcome F :=
  assignments ← assign_chunk_to_centers np_data np_centers n_threads metric;
  costFunction_with np_data np_centers metric assignments n_threads.

End Entry.

(** ** Instances used to run the model *)

#[global] Instance Q_eq_dec : EqDecision Q.
Proof. solve_decision. Defined.

(** Exact rational arithmetic. *)
#[global] Instance Q_numeric : Numeric Q := {|
  fzero := 0%Q;
  fone := 1%Q;
  fadd := Qplus;
  fmul := Qmult;
  flt a b := negb (Qle_bool b a);
|}.

(** IEEE 754 binary64, the [double] of the source. *)
#[global] Instance float_numeric : Numeric float := {|
  fzero := 0%float;
  fone := 1%float;
  fadd := PrimFloat.add;
  fmul := PrimFloat.mul;
  flt := PrimFloat.ltb;
|}.

(** A generator whose output is written in its seed: the octal digits of the
    seed, least significant first, are the raw draws, and zeros follow. *)
Fixpoint octal_digits (fuel : nat) (n : Z) : list nat :=
  match fuel with
  | 0 => []
  | S fuel' => if (n =? 0)%Z then [] else Z.to_nat (n mod 8) :: octal_digits fuel' (n / 8)
  end.

Definition tape_of_seed (seed : Z) : list nat := octal_digits 64 (Z.abs seed).

Definition tape_uniform (hi : nat) (g : list nat) : nat * list nat :=
  match g with
  | [] => (0, [])
  | d :: g' => (d mod (hi + 1), g')
  end.

Definition tape_next (g : list nat) : nat * list nat :=
  match g with
  | [] => (0, [])
  | d :: g' => (d, g')
  end.

#[global] Instance tape_Q : Generator Q (list nat) := {|
  seededGenerator := tape_of_seed;
  randomlySeededGenerator := tape_of_seed;
  uniform := tape_uniform;
  uniformReal g := let '(d, g') := tape_next g in (Z.of_nat (d mod 8) # 8, g');
|}.

Fixpoint float_of_nat (n : nat) : float :=
  match n with
  | 0 => 0%float
  | S n' => PrimFloat.add (float_of_nat n') 1%float
  end.

#[global] Instance tape_float : Generator float (list nat) := {|
  seededGenerator := tape_of_seed;
  randomlySeededGenerator := tape_of_seed;
  uniform := tape_uniform;
  uniformReal g :=
    let '(d, g') := tape_next g in
    (PrimFloat.div (float_of_nat (d mod 8)) 8%float, g');
|}.

(** The same tape read so that no real draw is zero: the draws are the odd
    multiples of 1/8. *)
Record odd_tape := OddTape { raw_tape : list nat }.

Definition odd_tape_Q : Generator Q odd_tape := {|
  seededGenerator seed := OddTape (tape_of_seed seed);
  randomlySeededGenerator entropy := OddTape (tape_of_seed entropy);
  uniform hi g := let '(i, g') := tape_uniform hi (raw_tape g) in (i, OddTape g');
  uniformReal g :=
    let '(d, g') := tape_next (raw_tape g) in
    (Z.of_nat (2 * (d mod 4) + 1) # 8, OddTape g');
|}.

(** The squared Euclidean distance, in either arithmetic. *)
Definition sq_euclid_Q : Metric Q := fun a b =>
  fold_left Qplus (zip_with (fun x y => (x - y) * (x - y))%Q a b) 0%Q.

Definition sq_euclid_float : Metric float := fun a b =>
  fold_left PrimFloat.add
    (zip_with (fun x y => PrimFloat.mul (PrimFloat.sub x y) (PrimFloat.sub x y)) a b)
    0%float.

(** Three points on a line. *)
Definition line3 : np_array Q := NpArray [3; 1] [0%Q; 1%Q; 3%Q].

(** Three frames, two of them equal. *)
Definition twins3 : np_array Q := NpArray [3; 1] [3%Q; 0%Q; 0%Q].

(** The same three points as a one-dimensional array. *)
Definition flat3 : np_array Q := NpArray [3] [0%Q; 1%Q; 3%Q].

(** Five points on a line, two of them far out. *)
Definition wide5 : np_array float :=
  NpArray [5; 1]
    [0%float; (-268435456)%float; (-2)%float; (-2.5)%float; 268435456%float].

(** Six points on a line, one of them far out. *)
Definition far6 : np_array float :=
  NpArray [6; 1]
    [0%float; 134217728%float; 1%float; (-1)%float; 1.25%float; (-1.25)%float].

(** Modelled from the spec: bits/kmeans_bits.h, which defines
    [assign_chunk_to_centers] and the five-argument [costFunction], is not
    part of the sources.  Section 4.3: each point's nearest-center index;
    section 4.5: the sum over all points of the squared distance to the
    assigned center. *)
Definition assign_chunk_to_centers `{Numeric F}
    (np_data np_centers : np_array F) (n_threads : Z) (metric : Metric F)
  : outcome (np_array nat) :=
  match shape np_data, shape np_centers with
  | [N; D], [K; D'] =>
      if decide (D = D')
      then Returned
             (NpArray [N]
                (map (fun i =>
                        min_element
                          (map (fun c => metric (row D (buf np_centers) c)
                                                (row D (buf np_data) i))
                               (seq 0 K)))
                     (seq 0 N)))
      else Thrown (invalid_argument not_two_dimensions) []
  | _, _ => Thrown (invalid_argument not_two_dimensions) []
  end.

Definition costFunction_assigned `{Numeric F}
    (np_data np_centers : np_array F) (metric : Metric F)
    (assignments : np_array nat) (n_threads : Z) : outcome F :=
  match shape np_data with
  | [N; D] =>
      Returned
        (seq_sum
           (zip_with (fun i a => metric (row D (buf np_centers) a) (row D (buf np_data) i))
                     (seq 0 N) (buf assignments)))
  | _ => Thrown (invalid_argument not_two_dimensions) []
  end.

(** ** Laws of the parameters

    What the proofs ask of the numeric type, the generator and the metric.
    [OrderLaws] makes [<] a strict weak order (no NaN among the values);
    [AddLaws] holds for a correctly rounded addition as well as for an exact
    one; [AssocLaws] and [MulLaws] hold for exact arithmetic only. *)

Class OrderLaws (F : Type) `{Numeric F} : Prop := {
  flt_irrefl : forall a : F, flt a a = false;
  flt_trans : forall a b c : F, flt a b = true -> flt b c = true -> flt a c = true;
  fle_trans : forall a b c : F, fle a b = true -> fle b c = true -> fle a c = true;
}.

Class AddLaws (F : Type) `{Numeric F} : Prop := {
  fadd_mono : forall a a' b b' : F,
    fle a a' = true -> fle b b' = true -> fle (fadd a b) (fadd a' b') = true;
  fadd_zero_l : forall a : F, fadd fzero a = a;
  fadd_zero_r : forall a : F, fadd a fzero = a;
}.

Class AssocLaws (F : Type) `{Numeric F} : Prop := {
  fadd_assoc : forall a b c : F, fadd a (fadd b c) = fadd (fadd a b) c;
}.

Class MulLaws (F : Type) `{Numeric F} : Prop := {
  fmul_nonneg : forall p u : F,
    fle fzero p = true -> fle fzero u = true -> fle fzero (fmul p u) = true;
  fmul_pos : forall p u : F,
    flt fzero p = true -> flt fzero u = true -> flt fzero (fmul p u) = true;
  fmul_unit : forall p u : F,
    flt fzero p = true -> flt u fone = true -> flt (fmul p u) p = true;
  fmul_nonpos_r : forall p u : F,
    fle fzero p = true -> fle u fzero = true -> fle (fmul p u) fzero = true;
  fmul_nonpos_l : forall p u : F,
    fle p fzero = true -> fle fzero u = true -> fle (fmul p u) fzero = true;
}.

(** The contract of the two distributions: an index in [0, hi] and a real
    in [0, 1). *)
Class GeneratorLaws (F G : Type) `{Numeric F} `{Generator F G} : Prop := {
  uniform_le : forall (hi : nat) (g : G), fst (uniform hi g) <= hi;
  uniformReal_unit : forall g : G,
    fle fzero (fst (uniformReal g)) = true /\ flt (fst (uniformReal g)) fone = true;
}.

Definition nonneg `{Numeric F} (x : F) : Prop := fle fzero x = true.

(** The metric's contract: distances are never negative. *)
Definition metric_nonneg `{Numeric F} (metric : Metric F) : Prop :=
  forall a b : list F, fle fzero (metric a b) = true.

(** Ascending order, as [std::sort] leaves a range and as [std::lower_bound]
    expects one. *)
Definition ascending `{Numeric F} (l : list F) : Prop :=
  forall i j x y, i <= j -> l !! i = Some x -> l !! j = Some y -> fle x y = true.

(** The index search in the words of the specification: the smallest index
    whose value is not below [v], the length of the range when there is
    none. *)
Fixpoint first_not_below `{Numeric F} (a : list F) (v : F) : nat :=
  match a with
  | [] => 0
  | x :: a' => if flt x v then S (first_not_below a' v) else 0
  end.

(** ... clamped to the last point. *)
Definition inverse_cdf `{Numeric F} (cumsum : list F) (nFrames : nat) (v : F) : nat :=
  let i := first_not_below cumsum v in
  if decide (i ≠ length cumsum) then i else nFrames - 1.

(** ... in full: [id] is the smallest index of [cumsum] whose value is at
    least [v], or the last frame when every value is below [v]. *)
Definition smallest_at_least `{Numeric F} (cumsum : list F) (nFrames : nat) (v : F)
    (id : nat) : Prop :=
  (exists x, cumsum !! id = Some x /\ fle v x = true
             /\ forall j y, j < id -> cumsum !! j = Some y -> flt y v = true)
  \/ (id = nFrames - 1 /\ forall j y, cumsum !! j = Some y -> flt y v = true).

(** The potential of every frame once the frames [ids] (latest first) are
    the centers: the smallest of its distances to them, as the rounds fold
    it. *)
Fixpoint min_dists `{Numeric F} (metric : Metric F) (data : list F)
    (nFrames dim : nat) (ids : list nat) : list F :=
  match ids with
  | [] => []
  | i :: rest =>
      match rest with
      | [] => dists_to metric data nFrames dim i
      | _ :: _ =>
          zip_with std_min (dists_to metric data nFrames dim i)
            (min_dists metric data nFrames dim rest)
      end
  end.

(** The raw draws behind [generate]. *)
Fixpoint draws `{Generator F G} (n : nat) (g : G) : list F * G :=
  match n with
  | 0 => ([], g)
  | S n' =>
      let '(u, g1) := uniformReal g in
      let '(us, g2) := draws n' g1 in
      (u :: us, g2)
  end.

(** Two states with the same locals: all that the loop reads. *)
Definition same_locals {F G} (st1 st2 : seeding F G) : Prop :=
  generator st1 = generator st2
  /\ currentPotential st1 = currentPotential st2
  /\ distances st1 = distances st2
  /\ distancesCumsum st1 = distancesCumsum st2
  /\ centers st1 = centers st2.

Definition agree {F G} (o1 o2 : outcome (seeding F G)) : Prop :=
  match o1, o2 with
  | Returned st1, Returned st2 => same_locals st1 st2
  | Thrown _ _, Thrown _ _ => True
  | Undefined, Undefined => True
  | _, _ => False
  end.

(** The progress events of the centers [0 .. n - 1]. *)
Definition callback_events (callback : option (nat -> answer)) (n : nat) : list event :=
  match callback with
  | Some f => map (fun i => callback_called i (f i)) (seq 0 n)
  | None => []
  end.

(** ** Invariants of the seeding loop

    What the proofs maintain about the locals, stated for the parameters of
    one call. *)

Section Invariants.
Context {F G : Type} `{Numeric F} `{Generator F G}.
Variables (metric : Metric F) (team : option nat) (nTrials : nat).
Variables (callback : option (nat -> answer)).
Variables (data : list F) (nFrames dim k : nat).
Set Implicit Arguments.

(** The buffers have the sizes the loop relies on. *)
Record shaped (st : seeding F G) : Prop := {
  shaped_distances : length (distances st) = nFrames;
  shaped_cumsum : distancesCumsum st = partial_sum (distances st);
  shaped_centers : length (centers st) = k * dim;
}.

(** What [select] computes from the state [st]. *)
Record selected (st : seeding F G) (s : selection F G) : Prop := {
  sel_trials :
    trialValues s = std_sort (fst (generate nTrials (currentPotential st) (generator st)));
  sel_generator :
    generator' s = snd (generate nTrials (currentPotential st) (generator st));
  sel_ids :
    candidatesIds s = find_candidates 0 (distancesCumsum st) nFrames (trialValues s);
  sel_coords :
    candidatesCoords s = concat (map (row dim data) (candidatesIds s));
  sel_updated :
    updated s = update_with_best nTrials nFrames
                  (computeDistances metric (candidatesCoords s) nTrials data nFrames dim)
                  (distances st);
  sel_potentials :
    candidatesPotentials s = trial_potentials team nTrials nFrames (updated s);
  sel_best :
    bestCandidateIx s = min_element (candidatesPotentials s);
  sel_ids_lt : Forall (fun i => i < nFrames) (candidatesIds s);
  sel_ids_length : length (candidatesIds s) = nTrials;
  sel_best_lt : bestCandidateIx s < nTrials;
}.

(** What [round] does to the state. *)
Record stepped (c : nat) (st : seeding F G) (s : selection F G) (id : nat)
    (st' : seeding F G) : Prop := {
  step_best : candidatesIds s !! bestCandidateIx s = Some id;
  step_id_lt : id < nFrames;
  step_generator : generator st' = generator' s;
  step_potential : candidatesPotentials s !! bestCandidateIx s = Some (currentPotential st');
  step_distances : distances st' = row nFrames (updated s) (bestCandidateIx s);
  step_cumsum : distancesCumsum st' = partial_sum (distances st');
  step_centers :
    centers st' = take (c * dim) (centers st) ++ row dim data id
                    ++ drop (c * dim + dim) (centers st);
  step_world : world st' = perform_callback callback c (world st);
}.

(** What lines 100-135 leave behind. *)
Record started (g : G) (w : list event) (st : seeding F G) : Prop := {
  start_index : fst (uniform (nFrames - 1) g) < nFrames;
  start_generator : generator st = snd (uniform (nFrames - 1) g);
  start_centers :
    centers st = row dim data (fst (uniform (nFrames - 1) g))
                   ++ drop dim (replicate (k * dim) fzero);
  start_distances :
    distances st = dists_to metric data nFrames dim (fst (uniform (nFrames - 1) g));
  start_potential : last (distancesCumsum st) = Some (currentPotential st);
  start_world : world st = perform_callback callback 0 w;
}.

(** Slots [0 .. c] hold rows of the data. *)
Definition chosen_from_data (c : nat) (st : seeding F G) : Prop :=
  shaped st /\
  forall j, j <= c -> exists i, i < nFrames /\ row dim (centers st) j = row dim data i.

(** After center [c]: the distances are non-negative and the total
    potential is their sum, as the code last summed them. *)
Record potential_inv (c : nat) (st : seeding F G) : Prop := {
  pot_shaped : shaped st;
  pot_nonneg : Forall nonneg (distances st);
  pot_total :
    currentPotential st
    = (if decide (c = 0) then seq_sum else reduce_sum team) (distances st);
}.

(** After center [c] the generator has made the index draw and
    [c * nTrials] real draws, and the callback was called once per center. *)
Record traced (g : G) (w : list event) (c : nat) (st : seeding F G) : Prop := {
  traced_shaped : shaped st;
  traced_generator :
    generator st = snd (@draws F G _ (c * nTrials) (snd (uniform (nFrames - 1) g)));
  traced_world : world st = w ++ callback_events callback (S c);
}.

(** After center [c]: the centers are the frames [ids], latest first, and
    the potential of every frame is its smallest distance to one of them. *)
Definition tracked (c : nat) (st : seeding F G) : Prop :=
  shaped st
  /\ exists ids : list nat,
       length ids = S c /\ Forall (fun i => i < nFrames) ids
       /\ (forall j i, reverse ids !! j = Some i ->
             row dim (centers st) j = row dim data i)
       /\ distances st = min_dists metric data nFrames dim ids.

(** After center [c]: the centers are the frames [ids], all different, and
    exactly these frames have no potential left. *)
Definition distinct_inv (c : nat) (st : seeding F G) : Prop :=
  potential_inv c st
  /\ exists ids : list nat,
       length ids = S c /\ NoDup ids /\ Forall (fun i => i < nFrames) ids
       /\ (forall j i, ids !! j = Some i -> row dim (centers st) j = row dim data i)
       /\ (forall j x, distances st !! j = Some x ->
             if decide (j ∈ ids) then fle x fzero = true else flt fzero x = true).

Unset Implicit Arguments.
End Invariants.

(** * Output models of the hidden Markov models
      (sktime/markovprocess/hmm/_bindings/include/OutputModelUtils.h)

    The functions of namespace [hmm::output_models] that compute on arrays
    without drawing random numbers: [handleOutliers]; of the discrete output
    model [toOutputProbabilityTrajectory] and [updatePOut]; of the Gaussian
    output model [sample], [pO], [toOutputProbabilityTrajectory] and [fit].
    The arrays are pybind11's, row-major as in the seeding; [State] is a
    signed integer type and its values are integers here; as in the seeding,
    [dtype] and [double] coincide. *)

(** [operator==] of [dtype]. *)
Class Equality (F : Type) := feq : F -> F -> bool.

#[global] Instance Q_equality : Equality Q := Qeq_bool.
#[global] Instance float_equality : Equality float := PrimFloat.eqb.

(** What the proofs ask of [==] and [<] together: values in a strict order
    are not equal, and zero is below one. *)
Class CompareLaws (F : Type) `{Numeric F} `{Equality F} : Prop := {
  feq_lt : forall a b : F, flt a b = true -> feq a b = false;
  feq_gt : forall a b : F, flt b a = true -> feq a b = false;
  fzero_lt_fone : flt (fzero : F) fone = true;
}.

(** Addition when the order of the operands does not matter (exact
    arithmetic and IEEE 754 alike). *)
Class CommLaws (F : Type) `{Numeric F} : Prop := {
  fadd_comm : forall a b : F, fadd a b = fadd b a;
}.

(** What the Gaussian output model uses of [dtype] and <cmath> besides [+],
    [*] and [<]: subtraction, division, [std::sqrt], [exp], and the
    literals [2.0], [-0.5] and [pi<dtype>()]. *)
Class Elementary (F : Type) := {
  fsub : F -> F -> F;
  fdiv : F -> F -> F;
  fsqrt : F -> F;
  fexp : F -> F;
  ftwo : F;
  fminus_half : F;
  fpi : F;
}.

Module output_models.

Inductive message :=
| observations_not_one_dimensional
| trajectories_and_weights_differ.

Inductive exn :=
| invalid_argument (what : message)
| index_error.

(** A call returns, throws, or has undefined behaviour: an access through a
    raw pointer outside its buffer, or an exception that leaves a parallel
    region. *)
Inductive result (A : Type) :=
| Returned (a : A)
| Thrown (e : exn)
| Undefined.
Arguments Returned {A} a.
Arguments Thrown {A} e.
Arguments Undefined {A}.

#[global] Instance result_ret : MRet result := fun A a => Returned a.
#[global] Instance result_bind : MBind result := fun A B f m =>
  match m with
  | Returned a => f a
  | Thrown e => Thrown e
  | Undefined => Undefined
  end.

Definition defined {A} (o : option A) : result A :=
  match o with Some a => Returned a | None => Undefined end.

(** [a.shape(i)]: pybind11 raises [index_error] when the array has no axis
    [i]. *)
Definition shape_at {A} (a : np_array A) (i : nat) : result nat :=
  match shape a !! i with Some n => Returned n | None => Thrown index_error end.

(** [a.size()]: the number of elements. *)
Definition size {A} (a : np_array A) : nat := foldr Nat.mul 1 (shape a).

(** [ptr[z]] for a signed offset [z]: defined inside the buffer only. *)
Definition at_raw {A} (b : list A) (z : Z) : option A :=
  if decide (0 <= z)%Z then b !! Z.to_nat z else None.

(** [a.at(i)] and [a.at(i, j)]: pybind11 raises [index_error] when the
    number of indices is not the number of axes or an index is not below its
    extent.  It does not compare an index with zero: a negative [j] is read
    at the signed offset [i * shape(1) + j]. *)
Definition at1 {A} (a : np_array A) (i : nat) : result A :=
  match shape a with
  | [n] => if decide (n <= i) then Thrown index_error else defined (buf a !! i)
  | _ => Thrown index_error
  end.

Definition at2 {A} (a : np_array A) (i : nat) (j : Z) : result A :=
  match shape a with
  | [n; m] =>
      if decide (n <= i) then Thrown index_error
      else if decide (Z.of_nat m <= j)%Z then Thrown index_error
      else defined (at_raw (buf a) (Z.of_nat (i * m) + j))
  | _ => Thrown index_error
  end.

(** An exception that leaves the body of [#pragma omp parallel for] is not
    caught by the caller: with OpenMP the program is not conforming. *)
Definition in_parallel_for {A} (openmp : bool) (r : result A) : result A :=
  match r with
  | Thrown e => if openmp then Undefined else Thrown e
  | _ => r
  end.

(** [for (x : xs) body(x)] over a state that every iteration may leave
    undefined. *)
Fixpoint for_each {S A : Type} (body : S -> A -> option S) (xs : list A) (s : S)
  : option S :=
  match xs with
  | [] => Some s
  | x :: xs' => s' ← body s x; for_each body xs' s'
  end.

(** The same loop when an iteration can also throw. *)
Fixpoint for_each_result {S A : Type} (body : S -> A -> result S) (xs : list A) (s : S)
  : result S :=
  match xs with
  | [] => Returned s
  | x :: xs' => s' ← body s x; for_each_result body xs' s'
  end.

Section Arrays.
Context {F : Type} `{Numeric F} `{Equality F}.

(** Lines 23-31, one timestep: the row is summed by [std::accumulate] from
    zero, and a row whose sum compares equal to zero is filled with ones. *)
Definition fill_outlier (nStates : nat) (b : list F) (t : nat) : option (list F) :=
  r ← read_row nStates b t;
  if feq (seq_sum r) fzero
  then write_at (t * nStates) (replicate nStates fone) b
  else Some b.

(** [handleOutliers], lines 16-33.  The array is changed in place; the
    changed array is the result.  The rows are disjoint, so the parallel
    loop does what the sequential one does. *)
Definition handleOutliers (outputProbabilityTrajectory : np_array F)
  : result (np_array F) :=
  nTimesteps ← shape_at outputProbabilityTrajectory 0;
  nStates ← shape_at outputProbabilityTrajectory 1;
  b ← defined (for_each (fill_outlier nStates) (seq 0 nTimesteps)
                 (buf outputProbabilityTrajectory));
  Returned (NpArray (shape outputProbabilityTrajectory) b).

End Arrays.

Module discrete.
Section Discrete.
Context {F : Type} `{Numeric F}.

(** Lines 82-85: the row of timestep [t]. *)
Definition output_row (outputProbabilities : np_array F) (nHidden : nat) (obsState : Z)
  : result (list F) :=
  for_each_result (fun r i => x ← at2 outputProbabilities i obsState; Returned (r ++ [x]))
    (seq 0 nHidden) [].

(** [toOutputProbabilityTrajectory], lines 69-89.  [output.mutable_data(0)]
    checks the index 0 against the extent of the first axis, so an empty
    observation trajectory raises [index_error] there. *)
Definition toOutputProbabilityTrajectory (openmp : bool) (observations : np_array Z)
    (outputProbabilities : np_array F) : result (np_array F) :=
  if decide (ndim observations ≠ 1)
  then Thrown (invalid_argument observations_not_one_dimensional)
  else
    nHidden ← shape_at outputProbabilities 0;
    nTimesteps ← shape_at observations 0;
    if decide (nTimesteps = 0) then Thrown index_error
    else
      rows ← in_parallel_for openmp
                (for_each_result
                   (fun out t =>
                      obsState ← defined (buf observations !! t);
                      r ← output_row outputProbabilities nHidden obsState;
                      Returned (out ++ r))
                   (seq 0 nTimesteps) []);
      Returned (NpArray [nTimesteps; nHidden] rows).

(** Line 134: [poutBuf[i * M + o] += weightsBuf[t * N + i]]. *)
Definition add_weight (N M : nat) (weightsBuf : list F) (t : nat) (o : Z)
    (poutBuf : list F) (i : nat) : option (list F) :=
  let z := (Z.of_nat (i * M) + o)%Z in
  p ← at_raw poutBuf z;
  w ← weightsBuf !! (t * N + i);
  Some (<[Z.to_nat z := fadd p w]> poutBuf).

(** Lines 131-136, one timestep. *)
Definition add_weights (N M : nat) (obsBuf : list Z) (weightsBuf : list F)
    (poutBuf : list F) (t : nat) : option (list F) :=
  o ← obsBuf !! t;
  for_each (add_weight N M weightsBuf t o) (seq 0 N) poutBuf.

(** [updatePOut], lines 121-137.  [pout] is changed in place; the changed
    array is the result. *)
Definition updatePOut (obs : np_array Z) (weights pout : np_array F)
  : result (np_array F) :=
  let T := size obs in
  N ← shape_at pout 0;
  M ← shape_at pout 1;
  b ← defined (for_each (add_weights N M (buf obs) (buf weights)) (seq 0 T) (buf pout));
  Returned (NpArray (shape pout) b).

End Discrete.
End discrete.

Module gaussian.
Section Gaussian.
Context {F : Type} `{Numeric F} `{Elementary F}.

(** [sample(o, mu, sigma)], lines 154-159: the density of the normal
    distribution with mean [mu] and standard deviation [sigma] at [o]. *)
Definition sample (o mu sigma : F) : F :=
  let c := fdiv fone (fmul (fsqrt (fmul ftwo fpi)) sigma) in
  let d := fdiv (fsub o mu) sigma in
  fmul c (fexp (fmul (fmul fminus_half d) d)).

(** [buf[i] = x] through a raw pointer. *)
Definition store (b : list F) (i : nat) (x : F) : option (list F) :=
  if decide (i < length b) then Some (<[i := x]> b) else None.

(** Line 177 and line 198: one cell. *)
Definition sample_into (o : F) (musBuf sigmasBuf : list F) (off : nat)
    (pBuf : list F) (i : nat) : option (list F) :=
  mu ← musBuf !! i;
  sigma ← sigmasBuf !! i;
  store pBuf (off + i) (sample o mu sigma).

(** [pO], lines 161-181.  Without [out] the result is a new array of [N]
    cells, every one of which the loop writes; with [out] the loop writes
    into the array that was passed. *)
Definition pO (o : F) (mus sigmas : np_array F) (out : option (np_array F))
  : result (np_array F) :=
  N ← shape_at mus 0;
  let p := match out with
           | Some a => a
           | None => NpArray [N] (replicate N fzero)
           end in
  b ← defined (for_each (sample_into o (buf mus) (buf sigmas) 0) (seq 0 N) (buf p));
  Returned (NpArray (shape p) b).

(** [toOutputProbabilityTrajectory], lines 183-203.  The new array of
    [T * N] cells is written cell by cell. *)
Definition toOutputProbabilityTrajectory (obs mus sigmas : np_array F)
  : result (np_array F) :=
  N ← shape_at mus 0;
  T ← shape_at obs 0;
  b ← defined (for_each
                 (fun pBuf t =>
                    for_each
                      (fun pBuf i =>
                         o ← buf obs !! t;
                         sample_into o (buf mus) (buf sigmas) (t * N) pBuf i)
                      (seq 0 N) pBuf)
                 (seq 0 T) (replicate (T * N) fzero));
  Returned (NpArray [T; N] b).

(** Lines 253-258 and 281-287: the two sums of one trajectory for state
    [i]; [term] is what a timestep adds to the first of them.  The accesses
    of a timestep raise the same exception, so their order does not show. *)
Definition state_sums (term : F -> F -> F) (obs w : np_array F) (i : nat)
  : result (F * F) :=
  T ← shape_at obs 0;
  for_each_result
    (fun acc t =>
       wt ← at2 w t (Z.of_nat i);
       o ← at1 obs t;
       Returned (fadd acc.1 (term wt o), fadd acc.2 wt))
    (seq 0 T) (fzero, fzero).

(** Lines 252-263 and 280-292: state [i] of one trajectory updates the
    numerator and the denominator. *)
Definition add_state_sums (term : nat -> F -> F -> F) (obs w : np_array F)
    (sums : list F * list F) (i : nat) : result (list F * list F) :=
  d ← state_sums (term i) obs w i;
  s ← defined (sums.1 !! i);
  x ← defined (sums.2 !! i);
  Returned (<[i := fadd s d.1]> sums.1, <[i := fadd x d.2]> sums.2).

(** Lines 246-265 and 273-293: all trajectories, from zeros. *)
Definition accumulate (term : nat -> F -> F -> F) (nHiddenStates : nat)
    (trajectories : list (np_array F * np_array F)) : result (list F * list F) :=
  for_each_result
    (fun sums trajectory =>
       for_each_result (add_state_sums term trajectory.1 trajectory.2)
         (seq 0 nHiddenStates) sums)
    trajectories (replicate nHiddenStates fzero, replicate nHiddenStates fzero).

(** [fit], lines 226-299: the means and the standard deviations of the
    states, as two arrays. *)
Definition fit (nHiddenStates : nat) (observations weights : list (np_array F))
  : result (np_array F * np_array F) :=
  if decide (length observations ≠ length weights)
  then Thrown (invalid_argument trajectories_and_weights_differ)
  else
    let trajectories := zip observations weights in
    sums ← accumulate (fun _ wt o => fmul wt o) nHiddenStates trajectories;
    let means := zip_with fdiv sums.1 sums.2 in
    sums' ← accumulate
              (fun i wt o =>
                 let sqrty := fsub o (default fzero (means !! i)) in
                 fmul (fmul wt sqrty) sqrty)
              nHiddenStates trajectories;
    Returned (NpArray [nHiddenStates] means,
              NpArray [nHiddenStates]
                (zip_with (fun s x => fsqrt (fdiv s x)) sums'.1 sums'.2)).

End Gaussian.
End gaussian.

End output_models.

(** What [handleOutliers] leaves of a row. *)
Definition without_outlier `{Numeric F} `{Equality F} (nStates : nat) (r : list F)
  : list F :=
  if feq (seq_sum r) fzero then replicate nStates fone else r.

(** Column [o] of a row-major [n x m] matrix. *)
Definition column {A} (m : nat) (b : list A) (n : nat) (o : nat) : list A :=
  omap (fun i => b !! (i * m + o)) (seq 0 n).

(** The sums that [fit] forms over one trajectory for state [i]: of the terms
    and of the weights of the state. *)
Definition trajectory_sum `{Numeric F} (term : F -> F -> F) (obs w : np_array F)
    (i : nat) : F :=
  match shape obs, shape w with
  | [T], [_; C] => seq_sum (zip_with term (column C (buf w) T i) (buf obs))
  | _, _ => fzero
  end.

Definition trajectory_weight `{Numeric F} (obs w : np_array F) (i : nat) : F :=
  match shape obs, shape w with
  | [T], [_; C] => seq_sum (column C (buf w) T i)
  | _, _ => fzero
  end.

(** The quotient that [fit] forms for state [i]: the terms of all
    trajectories over the weights of all trajectories, each trajectory
    summed by itself first. *)
Definition moment `{Numeric F} `{Elementary F} (term : F -> F -> F)
    (trajectories : list (np_array F * np_array F)) (i : nat) : F :=
  fdiv (seq_sum (map (fun tr => trajectory_sum term tr.1 tr.2 i) trajectories))
       (seq_sum (map (fun tr => trajectory_weight tr.1 tr.2 i) trajectories)).

(** A trajectory whose weights cover its observations and the states. *)
Definition covered {A} (nHiddenStates : nat) (trajectory : np_array A * np_array A)
  : Prop :=
  exists T R C,
    shape trajectory.1 = [T] /\ length (buf trajectory.1) = T
    /\ shape trajectory.2 = [R; C] /\ length (buf trajectory.2) = R * C
    /\ T <= R /\ nHiddenStates <= C.

(** The weights that [updatePOut] adds to the cell of state [i] and symbol
    [o] during the first [T] timesteps: those of the timesteps that observe
    [o], in order. *)
Definition weights_of {A} (N : nat) (obsBuf : list Z) (weightsBuf : list A)
    (T : nat) (i : nat) (o : nat) : list A :=
  omap (fun t => weightsBuf !! (t * N + i))
       (filter (fun t => obsBuf !! t = Some (Z.of_nat o)) (seq 0 T)).

(** ** Instances and inputs used to run the output models *)

(** The real numbers, for the operations that the rationals lack. *)
Definition R_numeric : Numeric R := {|
  fzero := 0%R;
  fone := 1%R;
  fadd := Rplus;
  fmul := Rmult;
  flt a b := if Rlt_dec a b then true else false;
|}.

Definition R_elementary : Elementary R := {|
  fsub := Rminus;
  fdiv := Rdiv;
  fsqrt := R_sqrt.sqrt;
  fexp := Rtrigo_def.exp;
  ftwo := 2%R;
  fminus_half := (- (1 / 2))%R;
  fpi := Rtrigo1.PI;
|}.

(** Two timesteps over two states; nothing is emitted at the first. *)
Definition silent2 : np_array Q := NpArray [2; 2] [0%Q; 0%Q; 1 # 4; 3 # 4].

(** The output probabilities of two states over three symbols, the last of
    which no state emits. *)
Definition emission2x3 : np_array Q :=
  NpArray [2; 3] [1 # 2; 1 # 2; 0%Q; 1 # 4; 3 # 4; 0%Q].

Definition observed3 : np_array Z := NpArray [3] [0%Z; 2%Z; 1%Z].

(** The weights of the two states at the three timesteps. *)
Definition weights3x2 : np_array Q :=
  NpArray [3; 2] [1%Q; 0%Q; 0%Q; 1%Q; 1 # 2; 1 # 2].

Definition counts2x3 : np_array Q := NpArray [2; 3] (replicate 6 0%Q).

(** Two Gaussian states. *)
Definition mus2 : np_array R := NpArray [2] [0%R; 1%R].
Definition sigmas2 : np_array R := NpArray [2] [1%R; 2%R].
Definition obs2 : np_array R := NpArray [2] [0%R; 3%R].

(** A trajectory of two observations, the weights of two states at each of
    them, and a weight matrix that stops after the first. *)
Definition heard2 : np_array R := NpArray [2] [1%R; 3%R].
Definition shares2x2 : np_array R := NpArray [2; 2] [1%R; 0%R; 0%R; 1%R].
Definition shares1x2 : np_array R := NpArray [1; 2] [1%R; 0%R].

(** * Properties *)

(** ** The number of trials *)

Lemma Int_part_bounds (r : R) (z : Z) : (IZR z <= r < IZR z + 1)%R -> Int_part r = z.
Proof.
  intros [Hlo Hhi]. unfold Int_part.
  assert (Hup : up r = (z + 1)%Z).
  { symmetry. apply tech_up; rewrite plus_IZR; simpl; lra. }
  rewrite Hup. lia.
Qed.

Lemma ln_INR_nonneg (k : nat) : 1 <= k -> (0 <= ln (INR k))%R.
Proof.
  intros Hk. rewrite <- ln_1.
  destruct (decide (k = 1)) as [->|Hne]; [simpl; lra|].
  left. apply ln_increasing; [lra|].
  change 1%R with (INR 1). apply lt_INR. lia.
Qed.

Lemma nTrials_ge_2 (k : nat) : 1 <= k -> 2 <= nTrials k.
Proof.
  intros Hk. unfold nTrials.
  pose proof (ln_INR_nonneg k Hk) as Hln.
  pose proof (base_Int_part (2 + ln (INR k))) as [Hle Hgt].
  assert (Hlt : (1 < IZR (Int_part (2 + ln (INR k))))%R) by lra.
  apply lt_IZR in Hlt. lia.
Qed.

Lemma exp_1_gt_2 : (2 < exp 1)%R.
Proof. pose proof (exp_ineq1 1 ltac:(lra)). lra. Qed.

Lemma nTrials_1 : nTrials 1 = 2.
Proof.
  unfold nTrials. simpl INR. rewrite ln_1.
  rewrite (Int_part_bounds _ 2); [reflexivity|]. simpl. lra.
Qed.

Lemma nTrials_2 : nTrials 2 = 2.
Proof.
  unfold nTrials. rewrite (Int_part_bounds _ 2); [reflexivity|].
  change (INR 2) with 2%R.
  assert (0 < ln 2 < 1)%R.
  { split.
    - rewrite <- ln_1. apply ln_increasing; lra.
    - rewrite <- (ln_exp 1). apply ln_increasing; [lra|apply exp_1_gt_2]. }
  simpl. lra.
Qed.

Lemma nTrials_3 : nTrials 3 = 3.
Proof.
  unfold nTrials. rewrite (Int_part_bounds _ 3); [reflexivity|].
  replace (INR 3) with 3%R by (simpl; lra).
  assert (1 <= ln 3 < 2)%R.
  { split.
    - rewrite <- (ln_exp 1) at 1.
      destruct (Rle_lt_or_eq_dec _ _ exp_le_3) as [Hlt|Heq].
      + left. apply ln_increasing; [apply exp_pos|exact Hlt].
      + rewrite Heq. lra.
    - rewrite <- (ln_exp 2). apply ln_increasing; [lra|].
      pose proof (exp_ineq1 2 ltac:(lra)). lra. }
  simpl. lra.
Qed.

(** ** Buffers and rows *)

Section Buffers.
Context {F G : Type} `{Numeric F} `{Generator F G}.
Implicit Types (b data cs : list F) (ids : list nat).

Lemma row_in_bounds dim b i n : length b = n * dim -> i < n -> i * dim + dim <= length b.
Proof.
  intros -> Hi. apply Nat.le_trans with (S i * dim); [simpl; lia|].
  apply Nat.mul_le_mono_r. lia.
Qed.

Lemma length_row dim b i : i * dim + dim <= length b -> length (row dim b i) = dim.
Proof. intros Hi. unfold row. rewrite length_take, length_drop. lia. Qed.

Lemma row_concat (ls : list (list F)) n i r :
  Forall (fun l => length l = n) ls -> ls !! i = Some r -> row n (concat ls) i = r.
Proof.
  intros Hall. revert i. induction Hall as [|l ls Hl Hall IH]; intros i Hi; [done|].
  destruct i as [|i]; simpl in *.
  - injection Hi as ->. unfold row. simpl. rewrite drop_0.
    by apply take_app_length'.
  - unfold row in *. rewrite <- (IH i Hi).
    replace (S i * n) with (length l + i * n) by lia.
    by rewrite drop_app_add.
Qed.

Lemma row_app_l dim b b' i :
  i * dim + dim <= length b -> row dim (b ++ b') i = row dim b i.
Proof.
  intros Hi. unfold row. rewrite drop_app_le by lia.
  rewrite take_app_le; [done|]. rewrite length_drop. lia.
Qed.

Lemma read_row_Some dim b i n :
  length b = n * dim -> i < n -> read_row dim b i = Some (row dim b i).
Proof.
  intros Hb Hi. unfold read_row. rewrite decide_True; [done|].
  by eapply row_in_bounds.
Qed.

Lemma read_row_length dim b i r : read_row dim b i = Some r -> length r = dim.
Proof.
  unfold read_row. case_decide; [|done]. intros [= <-]. by apply length_row.
Qed.

Lemma gather_rows_Some dim data ids n :
  length data = n * dim -> Forall (fun i => i < n) ids ->
  gather_rows dim data ids = Some (concat (map (row dim data) ids)).
Proof.
  intros Hd Hall. induction Hall as [|i ids Hi Hall IH]; [done|].
  simpl. rewrite (read_row_Some dim data i n Hd Hi). simpl. by rewrite IH.
Qed.

Lemma row_gathered dim data ids n j i :
  length data = n * dim -> Forall (fun i => i < n) ids -> ids !! j = Some i ->
  row dim (concat (map (row dim data) ids)) j = row dim data i.
Proof.
  intros Hd Hall Hj. apply row_concat.
  - apply Forall_fmap. eapply Forall_impl; [exact Hall|].
    intros a Ha. simpl. apply length_row. by eapply row_in_bounds.
  - by rewrite list_lookup_fmap, Hj.
Qed.

End Buffers.

(** ** Order, sorting and searching *)

Section Order.
Context {F : Type} `{Numeric F} `{!OrderLaws F}.
Implicit Types (a l : list F) (v x y : F).

Lemma fle_refl x : fle x x = true.
Proof. unfold fle. by rewrite flt_irrefl. Qed.

Lemma flt_fle x y : flt x y = true -> fle x y = true.
Proof.
  intros Hxy. unfold fle. destruct (flt y x) eqn:Hyx; [|done].
  pose proof (flt_trans _ _ _ Hxy Hyx) as Hxx. by rewrite flt_irrefl in Hxx.
Qed.

Lemma fle_flt_trans x y z : fle x y = true -> flt y z = true -> flt x z = true.
Proof.
  intros Hxy Hyz. destruct (flt x z) eqn:Hxz; [done|].
  assert (Hzy : fle z y = true).
  { apply (fle_trans z x y); [unfold fle; by rewrite Hxz|done]. }
  unfold fle in Hzy. by rewrite Hyz in Hzy.
Qed.

Lemma flt_fle_trans x y z : flt x y = true -> fle y z = true -> flt x z = true.
Proof.
  intros Hxy Hyz. destruct (flt x z) eqn:Hxz; [done|].
  assert (Hyx : fle y x = true).
  { apply (fle_trans y z x); [done|unfold fle; by rewrite Hxz]. }
  unfold fle in Hyx. by rewrite Hxy in Hyx.
Qed.

Lemma not_flt_fle x y : flt x y = false -> fle y x = true.
Proof. intros Hxy. unfold fle. by rewrite Hxy. Qed.

Lemma std_min_le_r x y : fle (std_min x y) y = true.
Proof.
  unfold std_min. destruct (flt y x) eqn:Hyx; [apply fle_refl|by apply not_flt_fle].
Qed.

Lemma std_min_le_l x y : fle (std_min x y) x = true.
Proof.
  unfold std_min. destruct (flt y x) eqn:Hyx; [by apply flt_fle|apply fle_refl].
Qed.

Lemma std_min_nonneg x y :
  fle fzero x = true -> fle fzero y = true -> fle fzero (std_min x y) = true.
Proof. intros Hx Hy. unfold std_min. by destruct (flt y x). Qed.

Lemma zip_min_nonneg (l1 l2 : list F) :
  Forall nonneg l1 -> Forall nonneg l2 -> Forall nonneg (zip_with std_min l1 l2).
Proof.
  intros H1. revert l2. induction H1 as [|x l1 Hx _ IH]; intros l2 H2; [constructor|].
  destruct H2 as [|y l2 Hy H2]; simpl; [constructor|].
  constructor; [by apply std_min_nonneg|by apply IH].
Qed.

Lemma zip_min_le (l1 l2 : list F) :
  length l1 = length l2 ->
  Forall2 (fun x y => fle x y = true) (zip_with std_min l1 l2) l2.
Proof.
  revert l2. induction l1 as [|x l1 IH]; intros [|y l2] Hlen; simpl in *;
    try lia; constructor.
  - apply std_min_le_r.
  - apply IH. lia.
Qed.

(** *** [std::sort] *)

Local Abbreviation le_prop := (fun x y : F => fle x y = true).

Lemma insert_sorted_perm x l : insert_sorted x l ≡ₚ x :: l.
Proof.
  induction l as [|y l IH]; simpl; [done|].
  destruct (flt x y); [done|]. rewrite IH. apply Permutation_swap.
Qed.

Lemma std_sort_perm l : std_sort l ≡ₚ l.
Proof.
  induction l as [|x l IH]; simpl; [done|].
  by rewrite insert_sorted_perm, IH.
Qed.

Lemma length_std_sort l : length (std_sort l) = length l.
Proof. apply Permutation_length, std_sort_perm. Qed.

Lemma insert_sorted_strongly x l :
  StronglySorted le_prop l -> StronglySorted le_prop (insert_sorted x l).
Proof.
  induction 1 as [|y l Hl IH Hy]; simpl.
  - repeat constructor.
  - destruct (flt x y) eqn:Hxy.
    + constructor; [by constructor|].
      constructor; [by apply flt_fle|].
      eapply Forall_impl; [exact Hy|]. intros z Hz. simpl in Hz.
      eapply fle_trans; [|exact Hz]. by apply flt_fle.
    + constructor; [done|].
      rewrite insert_sorted_perm. constructor; [by apply not_flt_fle|done].
Qed.

Lemma std_sort_strongly l : StronglySorted le_prop (std_sort l).
Proof.
  induction l as [|x l IH]; simpl; [constructor|by apply insert_sorted_strongly].
Qed.

Lemma strongly_ascending l : StronglySorted le_prop l -> ascending l.
Proof.
  induction 1 as [|x l Hl IH Hx]; intros i j a b Hij Hi Hj; [done|].
  destruct i as [|i], j as [|j]; simpl in *; try lia.
  - injection Hi as ->. injection Hj as ->. apply fle_refl.
  - injection Hi as ->. rewrite Forall_forall in Hx.
    apply Hx. by eapply list_elem_of_lookup_2.
  - eapply (IH i j); [lia|done..].
Qed.

Lemma std_sort_ascending l : ascending (std_sort l).
Proof. apply strongly_ascending, std_sort_strongly. Qed.

Lemma ascending_tail x l : ascending (x :: l) -> ascending l.
Proof.
  intros Hasc i j a b Hij Hi Hj. apply (Hasc (S i) (S j)); [lia|done..].
Qed.

Lemma ascending_head x l y : ascending (x :: l) -> y ∈ l -> fle x y = true.
Proof.
  intros Hasc [j Hj]%list_elem_of_lookup_1. by apply (Hasc 0 (S j)); [lia|..].
Qed.

(** *** [std::lower_bound] *)

Lemma lower_bound_loop_range fuel first len v a :
  first <= lower_bound_loop fuel first len v a <= first + len.
Proof.
  revert first len.
  induction fuel as [|fuel IH]; intros first len; cbn [lower_bound_loop]; [lia|].
  destruct (Nat.eqb_spec len 0) as [->|Hlen]; [lia|].
  assert (len / 2 < len) by (apply Nat.div_lt; lia).
  destruct (a !! (first + len / 2)) as [x|]; [|lia].
  destruct (flt x v).
  - specialize (IH (first + len / 2 + 1) (len - len / 2 - 1)). lia.
  - specialize (IH first (len / 2)). lia.
Qed.

Lemma lower_bound_range first a v :
  first <= length a -> first <= lower_bound first a v <= length a.
Proof.
  intros Hf. unfold lower_bound.
  pose proof (lower_bound_loop_range (length a - first) first (length a - first) v a).
  lia.
Qed.

(** On a range in which the values below [v] come first, the bisection
    ends on the boundary. *)
Lemma lower_bound_loop_spec fuel first len v a :
  len <= fuel -> first + len <= length a ->
  (forall i j x y, i <= j -> a !! i = Some x -> a !! j = Some y ->
                   flt y v = true -> flt x v = true) ->
  (forall i x, i < first -> a !! i = Some x -> flt x v = true) ->
  (forall i x, first + len <= i -> a !! i = Some x -> flt x v = false) ->
  let r := lower_bound_loop fuel first len v a in
  (forall i x, i < r -> a !! i = Some x -> flt x v = true) /\
  (forall i x, r <= i -> a !! i = Some x -> flt x v = false).
Proof.
  intros Hfuel Hlen Hdown. revert first len Hfuel Hlen.
  induction fuel as [|fuel IH]; intros first len Hfuel Hlen Hlo Hhi;
    cbn [lower_bound_loop].
  - assert (len = 0) as -> by lia. split; [done|].
    intros i x Hi. apply Hhi. lia.
  - destruct (Nat.eqb_spec len 0) as [->|Hne].
    { split; [done|]. intros i x Hi. apply Hhi. lia. }
    assert (Hhalf : len / 2 < len) by (apply Nat.div_lt; lia).
    destruct (lookup_lt_is_Some_2 a (first + len / 2) ltac:(lia)) as [m Hm].
    rewrite Hm. destruct (flt m v) eqn:Hmv.
    + apply IH; [lia..| |].
      * intros i x Hi Hx. destruct (decide (i < first)); [by eapply Hlo|].
        eapply (Hdown i (first + len / 2)); [lia|done..].
      * intros i x Hi Hx. eapply Hhi; [|done]. lia.
    + apply IH; [lia..|done|].
      intros i x Hi Hx. destruct (flt x v) eqn:Hxv; [|done].
      rewrite <- Hmv. symmetry.
      eapply (Hdown (first + len / 2) i); [lia|done..].
Qed.

Lemma first_not_below_le a v : first_not_below a v <= length a.
Proof. induction a as [|x a IH]; simpl; [lia|]. destruct (flt x v); lia. Qed.

Lemma first_not_below_unique a v r :
  (forall i x, i < r -> a !! i = Some x -> flt x v = true) ->
  (forall x, a !! r = Some x -> flt x v = false) ->
  r <= length a ->
  first_not_below a v = r.
Proof.
  revert r. induction a as [|y a IH]; intros r Hlo Hhi Hr; simpl in *.
  - lia.
  - destruct r as [|r].
    + by rewrite (Hhi y).
    + rewrite (Hlo 0 y) by (done || lia). f_equal. apply IH; [|done|lia].
      intros i x Hi Hx. apply (Hlo (S i)); [lia|done].
Qed.

Lemma first_not_below_spec a v :
  (forall i x, i < first_not_below a v -> a !! i = Some x -> flt x v = true) /\
  (forall x, a !! first_not_below a v = Some x -> flt x v = false).
Proof.
  induction a as [|y a [IHlo IHhi]]; simpl; [done|].
  destruct (flt y v) eqn:Hy.
  - split.
    + intros [|i] x Hi Hx; simpl in *; [by injection Hx as <-|].
      eapply IHlo; [|done]. lia.
    + done.
  - split; [lia|]. simpl. by intros x [= <-].
Qed.

Lemma ascending_downward a v :
  ascending a ->
  forall i j x y, i <= j -> a !! i = Some x -> a !! j = Some y ->
                  flt y v = true -> flt x v = true.
Proof.
  intros Hasc i j x y Hij Hx Hy Hyv.
  eapply fle_flt_trans; [|exact Hyv]. by eapply Hasc.
Qed.

Lemma lower_bound_first_not_below first a v :
  ascending a -> first <= length a ->
  (forall i x, i < first -> a !! i = Some x -> flt x v = true) ->
  lower_bound first a v = first_not_below a v.
Proof.
  intros Hasc Hf Hlo. symmetry.
  destruct (lower_bound_loop_spec (length a - first) first (length a - first) v a)
    as [Hbelow Habove]; [lia|lia|by apply ascending_downward|done| |].
  { intros i x Hi Hx. apply lookup_lt_Some in Hx. lia. }
  apply first_not_below_unique.
  - exact Hbelow.
  - intros x. by apply Habove.
  - by apply lower_bound_range.
Qed.

(** The resumed searches of lines 154-161 find what independent searches
    from the start of the prefix sums find. *)
Lemma find_candidates_inverse_cdf lo cumsum nFrames trials :
  ascending cumsum -> ascending trials -> lo <= length cumsum ->
  (forall t i x, t ∈ trials -> i < lo -> cumsum !! i = Some x -> flt x t = true) ->
  find_candidates lo cumsum nFrames trials = map (inverse_cdf cumsum nFrames) trials.
Proof.
  intros Hc. revert lo. induction trials as [|t ts IH]; intros lo Hts Hlo Hbelow; [done|].
  simpl. assert (Heq : lower_bound lo cumsum t = first_not_below cumsum t).
  { apply lower_bound_first_not_below; [done..|].
    intros i x. apply Hbelow. by left. }
  unfold inverse_cdf at 1. rewrite Heq. f_equal.
  apply IH.
  - by eapply ascending_tail.
  - apply first_not_below_le.
  - intros t' i x Ht' Hi Hx.
    eapply flt_fle_trans; [|by eapply ascending_head].
    by eapply (proj1 (first_not_below_spec cumsum t)).
Qed.

End Order.

(** ** The shape of one round *)

Section Structure.
Context {F G : Type} `{Numeric F} `{Generator F G}.
Implicit Types (b data cs l : list F) (ids : list nat).

Lemma length_concat_uniform (ls : list (list F)) n :
  Forall (fun l => length l = n) ls -> length (concat ls) = length ls * n.
Proof.
  induction 1 as [|l ls Hl _ IH]; simpl; [done|]. rewrite length_app. lia.
Qed.

Lemma lookup_tabulate {A} (f : nat -> A) n i : i < n -> map f (seq 0 n) !! i = Some (f i).
Proof. intros Hi. by rewrite list_lookup_fmap, lookup_seq_lt. Qed.

Lemma length_computeDistances (metric : Metric F) xs nXs ys nYs dim :
  length (computeDistances metric xs nXs ys nYs dim) = nXs * nYs.
Proof.
  unfold computeDistances. rewrite (length_concat_uniform _ nYs).
  - by rewrite length_fmap, length_seq.
  - apply Forall_fmap, Forall_forall. intros q _. simpl.
    by rewrite length_fmap, length_seq.
Qed.

Lemma row_computeDistances (metric : Metric F) xs nXs ys nYs dim q :
  q < nXs ->
  row nYs (computeDistances metric xs nXs ys nYs dim) q
  = map (fun r => metric (row dim xs q) (row dim ys r)) (seq 0 nYs).
Proof.
  intros Hq. unfold computeDistances. apply row_concat.
  - apply Forall_fmap, Forall_forall. intros q' _. simpl.
    by rewrite length_fmap, length_seq.
  - by apply (lookup_tabulate (fun q => map _ (seq 0 nYs))).
Qed.

Lemma length_update_with_best nTrials nFrames d dists :
  length d = nTrials * nFrames -> length dists = nFrames ->
  length (update_with_best nTrials nFrames d dists) = nTrials * nFrames.
Proof.
  intros Hd Hdists. unfold update_with_best.
  rewrite (length_concat_uniform _ nFrames).
  - by rewrite length_fmap, length_seq.
  - apply Forall_fmap, Forall_forall. intros t Ht%elem_of_seq. simpl.
    rewrite length_zip_with, length_row, Hdists; [lia|].
    eapply row_in_bounds; [done|lia].
Qed.

Lemma row_update_with_best nTrials nFrames d dists trial :
  length d = nTrials * nFrames -> length dists = nFrames -> trial < nTrials ->
  row nFrames (update_with_best nTrials nFrames d dists) trial
  = zip_with std_min (row nFrames d trial) dists.
Proof.
  intros Hd Hdists Ht. unfold update_with_best. apply row_concat.
  - apply Forall_fmap, Forall_forall. intros t Hin%elem_of_seq. simpl.
    rewrite length_zip_with, length_row, Hdists; [lia|].
    eapply row_in_bounds; [done|lia].
  - by apply (lookup_tabulate (fun t => zip_with std_min (row nFrames d t) dists)).
Qed.

Lemma length_partial_sum_from acc l : length (partial_sum_from acc l) = length l.
Proof. revert acc. induction l as [|x l IH]; intros acc; simpl; [done|]. by rewrite IH. Qed.

Lemma length_partial_sum l : length (partial_sum l) = length l.
Proof. destruct l; simpl; [done|]. by rewrite length_partial_sum_from. Qed.

Lemma length_generate n p g : length (fst (generate n p g)) = n.
Proof.
  revert g. induction n as [|n IH]; intros g; simpl; [done|].
  destruct (uniformReal g) as [u g1]. specialize (IH g1).
  destruct (generate n p g1) as [ts g2]. simpl in *. by rewrite IH.
Qed.

Lemma generate_draws n p g :
  generate n p g = (map (fmul p) (fst (draws n g)), snd (draws n g)).
Proof.
  revert g. induction n as [|n IH]; intros g; simpl; [done|].
  destruct (uniformReal g) as [u g1]. rewrite IH.
  by destruct (draws n g1) as [us g2].
Qed.

Lemma length_draws n (g : G) : length (fst (@draws F G _ n g)) = n.
Proof.
  revert g. induction n as [|n IH]; intros g; simpl; [done|].
  destruct (uniformReal g) as [u g1]. specialize (IH g1).
  destruct (draws n g1) as [us g2]. simpl in *. by rewrite IH.
Qed.

Lemma length_find_candidates lo cumsum nFrames trials :
  length (find_candidates lo cumsum nFrames trials) = length trials.
Proof. revert lo. induction trials as [|t ts IH]; intros lo; simpl; [done|]. by rewrite IH. Qed.

Lemma find_candidates_lt lo (cumsum : list F) nFrames trials :
  0 < nFrames -> length cumsum = nFrames -> lo <= nFrames ->
  Forall (fun i => i < nFrames) (find_candidates lo cumsum nFrames trials).
Proof.
  intros HN Hc. revert lo. induction trials as [|t ts IH]; intros lo Hlo; simpl; [done|].
  pose proof (lower_bound_range lo cumsum t ltac:(lia)) as Hr.
  constructor.
  - case_decide; lia.
  - apply IH. lia.
Qed.

Lemma min_element_from_range s v i l :
  let r := min_element_from s v i l in r = s \/ i <= r < i + length l.
Proof.
  revert s v i. induction l as [|x l IH]; intros s v i; simpl; [by left|].
  destruct (flt x v).
  - destruct (IH i x (S i)) as [->|Hr]; right; lia.
  - destruct (IH s v (S i)) as [->|Hr]; [by left|right; lia].
Qed.

Lemma min_element_lt l : l <> [] -> min_element l < length l.
Proof.
  destruct l as [|x l]; [done|]. intros _. simpl.
  destruct (min_element_from_range 0 x 1 l) as [->|Hr]; lia.
Qed.

Lemma length_trial_potentials team nTrials nFrames d :
  length (trial_potentials team nTrials nFrames d) = nTrials.
Proof. unfold trial_potentials. by rewrite length_fmap, length_seq. Qed.

Lemma row_take dim b m j : j * dim + dim <= m -> row dim (take m b) j = row dim b j.
Proof.
  intros Hj. unfold row. rewrite !take_drop_commute, take_take.
  by rewrite Nat.min_l by lia.
Qed.

Lemma write_at_Some off (src dst : list F) :
  off + length src <= length dst ->
  write_at off src dst = Some (take off dst ++ src ++ drop (off + length src) dst).
Proof. intros Hle. unfold write_at. by rewrite decide_True. Qed.

Lemma assignCenter_Some frameIndex dim data cs n c k :
  length data = n * dim -> frameIndex < n -> length cs = k * dim -> c < k ->
  assignCenter frameIndex dim data cs (c * dim)
  = Some (take (c * dim) cs ++ row dim data frameIndex ++ drop (c * dim + dim) cs).
Proof.
  intros Hd Hi Hcs Hc. unfold assignCenter.
  rewrite (read_row_Some dim data frameIndex n Hd Hi). simpl.
  assert (Hlen : length (row dim data frameIndex) = dim).
  { apply length_row. by eapply row_in_bounds. }
  rewrite write_at_Some; rewrite Hlen; [done|].
  by eapply row_in_bounds.
Qed.

(** Writing slot [c] changes slot [c] and no other. *)
Lemma length_assigned dim cs r c k :
  length cs = k * dim -> length r = dim -> c < k ->
  length (take (c * dim) cs ++ r ++ drop (c * dim + dim) cs) = k * dim.
Proof.
  intros Hcs Hr Hc. pose proof (row_in_bounds dim cs c k Hcs Hc).
  rewrite !length_app, length_take, length_drop. lia.
Qed.

Lemma row_assigned_same dim cs r c k :
  length cs = k * dim -> length r = dim -> c < k ->
  row dim (take (c * dim) cs ++ r ++ drop (c * dim + dim) cs) c = r.
Proof.
  intros Hcs Hr Hc. pose proof (row_in_bounds dim cs c k Hcs Hc).
  unfold row. rewrite drop_app_length' by (rewrite length_take; lia).
  by apply take_app_length'.
Qed.

Lemma row_assigned_before dim cs r c j :
  c * dim <= length cs -> j < c ->
  row dim (take (c * dim) cs ++ r ++ drop (c * dim + dim) cs) j = row dim cs j.
Proof.
  intros Hcs Hj.
  assert (Hb : j * dim + dim <= c * dim).
  { apply Nat.le_trans with (S j * dim); [simpl; lia|]. apply Nat.mul_le_mono_r. lia. }
  rewrite row_app_l by (rewrite length_take; lia).
  by apply row_take.
Qed.

Lemma row_assigned_after dim cs r c j :
  c * dim + dim <= length cs -> length r = dim -> c < j ->
  row dim (take (c * dim) cs ++ r ++ drop (c * dim + dim) cs) j = row dim cs j.
Proof.
  intros Hcs Hr Hj. unfold row.
  assert (Hb : c * dim + dim <= j * dim).
  { apply Nat.le_trans with (S c * dim); [simpl; lia|]. apply Nat.mul_le_mono_r. lia. }
  rewrite app_assoc.
  rewrite drop_app_ge by (rewrite length_app, length_take; lia).
  rewrite length_app, length_take, Hr, drop_drop. do 2 f_equal. lia.
Qed.

End Structure.

(** ** The rounds on well-formed input *)

Section Rounds.
Context {F G : Type} `{Numeric F} `{Generator F G}.
Variables (metric : Metric F) (team : option nat) (nTrials : nat).
Variables (callback : option (nat -> answer)).
Variables (data : list F) (nFrames dim k : nat).
Hypothesis Hdata : length data = nFrames * dim.
Hypothesis HN : 0 < nFrames.
Hypothesis HT : 0 < nTrials.

Local Abbreviation shaped := (shaped nFrames dim k).
Local Abbreviation selected := (selected metric team nTrials data nFrames dim).
Local Abbreviation stepped := (stepped callback data nFrames dim).
Local Abbreviation dists_to := (dists_to metric data nFrames dim).

Lemma select_selected st :
  shaped st ->
  exists s, select metric team nTrials data nFrames dim st = Returned s /\ selected st s.
Proof.
  intros [Hd Hc Hcs]. unfold select.
  pose proof (length_generate nTrials (currentPotential st) (generator st)) as Hgen.
  destruct (generate nTrials (currentPotential st) (generator st)) as [drawn g] eqn:Hg.
  simpl in Hgen.
  assert (Hlt : Forall (fun i => i < nFrames)
                  (find_candidates 0 (distancesCumsum st) nFrames (std_sort drawn))).
  { apply find_candidates_lt; [done| |lia]. by rewrite Hc, length_partial_sum. }
  rewrite (gather_rows_Some dim data _ nFrames Hdata Hlt). simpl.
  eexists. split; [reflexivity|].
  constructor; simpl; rewrite ?Hg; simpl; try done.
  - by rewrite length_find_candidates, length_std_sort.
  - eapply Nat.lt_le_trans.
    + apply min_element_lt. intros Hnil. apply (f_equal length) in Hnil.
      rewrite length_trial_potentials in Hnil. simpl in Hnil. lia.
    + by rewrite length_trial_potentials.
Qed.

Lemma length_dists_to i : length (dists_to i) = nFrames.
Proof. unfold dists_to. by rewrite length_fmap, length_seq. Qed.

Lemma selected_row st s trial i :
  shaped st -> selected st s -> candidatesIds s !! trial = Some i ->
  row nFrames (updated s) trial = zip_with std_min (dists_to i) (distances st).
Proof.
  intros [Hd Hc Hcs] Hs Hi.
  assert (Ht : trial < nTrials).
  { rewrite <- (sel_ids_length Hs). by eapply lookup_lt_Some. }
  rewrite (sel_updated Hs).
  rewrite row_update_with_best; [|by rewrite length_computeDistances|done..].
  rewrite row_computeDistances by done.
  rewrite (sel_coords Hs).
  by rewrite (row_gathered dim data _ nFrames trial i Hdata (sel_ids_lt Hs) Hi).
Qed.

Lemma selected_potential st s trial i :
  shaped st -> selected st s -> candidatesIds s !! trial = Some i ->
  candidatesPotentials s !! trial
  = Some (reduce_sum team (zip_with std_min (dists_to i) (distances st))).
Proof.
  intros Hst Hs Hi.
  assert (Ht : trial < nTrials).
  { rewrite <- (sel_ids_length Hs). by eapply lookup_lt_Some. }
  rewrite (sel_potentials Hs). unfold trial_potentials.
  rewrite (lookup_tabulate (fun t => reduce_sum team (row nFrames (updated s) t))) by done.
  by rewrite (selected_row st s trial i).
Qed.

Lemma round_stepped c st :
  shaped st -> c < k ->
  exists s id st',
    select metric team nTrials data nFrames dim st = Returned s /\ selected st s /\
    round metric team nTrials callback data nFrames dim c st = Returned st' /\
    stepped c st s id st' /\ shaped st'.
Proof.
  intros Hst Hc. destruct (select_selected st Hst) as (s & Hsel & Hs).
  destruct (lookup_lt_is_Some_2 (candidatesIds s) (bestCandidateIx s)) as [id Hid].
  { rewrite (sel_ids_length Hs). apply (sel_best_lt Hs). }
  assert (Hidlt : id < nFrames).
  { pose proof (sel_ids_lt Hs) as Hall. rewrite Forall_forall in Hall.
    apply Hall. by eapply list_elem_of_lookup_2. }
  pose proof (selected_potential st s _ id Hst Hs Hid) as Hpot.
  exists s, id. eexists. split; [done|]. split; [done|].
  unfold round. rewrite Hsel. simpl. rewrite Hid, Hpot. simpl.
  rewrite (assignCenter_Some id dim data (centers st) nFrames c k
             Hdata Hidlt (shaped_centers Hst) Hc). simpl.
  split; [reflexivity|]. split.
  - constructor; simpl; try done.
  - constructor; simpl; [|done|].
    + rewrite (selected_row st s _ id Hst Hs Hid).
      rewrite length_zip_with, length_dists_to, (shaped_distances Hst). lia.
    + apply (length_assigned dim (centers st) _ c k (shaped_centers Hst)); [|done].
      apply length_row. by eapply row_in_bounds.
Qed.

End Rounds.

(** ** Unfolding the loop *)

Section Loop.
Context {F G : Type} `{Numeric F} `{Generator F G}.
Variables (metric : Metric F) (team : option nat) (nTrials : nat).
Variables (callback : option (nat -> answer)).
Variables (data : list F) (nFrames dim k : nat).

Lemma rounds_app cs1 cs2 st :
  rounds metric team nTrials callback data nFrames dim (cs1 ++ cs2) st
  = st' ← rounds metric team nTrials callback data nFrames dim cs1 st;
    rounds metric team nTrials callback data nFrames dim cs2 st'.
Proof.
  revert st. induction cs1 as [|c cs1 IH]; intros st; simpl; [done|].
  destruct (round metric team nTrials callback data nFrames dim c st); simpl; [|done..].
  apply IH.
Qed.

Lemma seeding_after_S g w c :
  seeding_after metric team nTrials callback data nFrames dim k g w (S c)
  = st ← seeding_after metric team nTrials callback data nFrames dim k g w c;
    round metric team nTrials callback data nFrames dim (S c) st.
Proof.
  unfold seeding_after. rewrite seq_S. change (1 + c) with (S c).
  destruct (first_center metric callback data nFrames dim k g w) as [st0| |];
    simpl; [|done..].
  rewrite rounds_app.
  destruct (rounds metric team nTrials callback data nFrames dim (seq 1 c) st0);
    simpl; [|done..].
  by destruct (round metric team nTrials callback data nFrames dim (S c) a).
Qed.

(** An invariant that the first center establishes and every round keeps
    holds after every center, and every center is reached. *)
Lemma seeding_invariant (I : nat -> seeding F G -> Prop) g w :
  (exists st, first_center metric callback data nFrames dim k g w = Returned st /\ I 0 st) ->
  (forall c st, S c < k -> I c st ->
     exists st', round metric team nTrials callback data nFrames dim (S c) st = Returned st'
                 /\ I (S c) st') ->
  forall c, c < k ->
    exists st, seeding_after metric team nTrials callback data nFrames dim k g w c
               = Returned st /\ I c st.
Proof.
  intros (st0 & Hfirst & Hst0) Hstep c. induction c as [|c IH]; intros Hc.
  - exists st0. split; [|done]. unfold seeding_after. by rewrite Hfirst.
  - destruct IH as (st & Hafter & Hst); [lia|].
    destruct (Hstep c st Hc Hst) as (st' & Hround & Hst').
    exists st'. split; [|done]. by rewrite seeding_after_S, Hafter.
Qed.

End Loop.

(** ** The first center and the whole call *)

Section Call.
Context {F G : Type} `{Numeric F} `{Generator F G} `{!GeneratorLaws F G}.
Variables (metric : Metric F) (callback : option (nat -> answer)).
Variables (data : list F) (nFrames dim k : nat).
Hypothesis Hdata : length data = nFrames * dim.
Hypothesis HN : 0 < nFrames.
Hypothesis Hk : 0 < k.

Local Abbreviation started := (started metric callback data nFrames dim k).

Lemma first_center_started g w :
  exists st, first_center metric callback data nFrames dim k g w = Returned st
             /\ started g w st /\ shaped nFrames dim k st.
Proof.
  unfold first_center.
  pose proof (uniform_le (nFrames - 1) g) as Hle.
  destruct (uniform (nFrames - 1) g) as [first g1] eqn:Hu. simpl in Hle.
  assert (Hfirst : first < nFrames) by lia.
  pose proof (assignCenter_Some first dim data (replicate (k * dim) fzero) nFrames 0 k
                Hdata Hfirst (length_replicate _ _) Hk) as Hassign.
  simpl in Hassign. rewrite Hassign. simpl.
  assert (Hrow : length (row dim data first) = dim).
  { apply length_row. by eapply row_in_bounds. }
  assert (Hrow0 : row dim (row dim data first ++ drop dim (replicate (k * dim) fzero)) 0
                  = row dim data first).
  { unfold row. simpl. rewrite drop_0. by apply take_app_length'. }
  assert (Hdists : computeDistances metric
                     (row dim data first ++ drop dim (replicate (k * dim) fzero))
                     1 data nFrames dim
                   = dists_to metric data nFrames dim first).
  { unfold computeDistances, dists_to. simpl. by rewrite app_nil_r, Hrow0. }
  rewrite Hdists.
  destruct (last (partial_sum (dists_to metric data nFrames dim first))) as [p|] eqn:Hlast.
  - simpl. eexists. split; [reflexivity|]. split.
    + constructor; rewrite ?Hu; simpl; done.
    + constructor; simpl; [apply length_dists_to|done|].
      pose proof (length_assigned dim (replicate (k * dim) fzero)
                    (row dim data first) 0 k (length_replicate _ _) Hrow Hk) as Hlen.
      by simpl in Hlen.
  - exfalso. rewrite last_lookup, length_partial_sum, length_dists_to in Hlast.
    apply lookup_ge_None_1 in Hlast.
    rewrite length_partial_sum, length_dists_to in Hlast. lia.
Qed.

End Call.

Section Entry_facts.
Context {F G : Type} `{Numeric F} `{Generator F G}.

(** On a two-dimensional array with at least [k >= 1] frames the call is
    the seeding loop. *)
Lemma initKmeansPlusPlus_valid (USE_OPENMP : bool) (data : np_array F) (k : nat)
    (metric : Metric F) (seed n_threads : Z) callback entropy (N D : nat) :
  shape data = [N; D] -> 1 <= k <= N ->
  initKmeansPlusPlus USE_OPENMP data k metric seed n_threads callback entropy
  = st ← after_center USE_OPENMP data k metric seed n_threads callback entropy N D (k - 1);
    Returned (NpArray [k; D] (centers st), st).
Proof.
  intros Hshape Hk. unfold initKmeansPlusPlus, ndim. rewrite Hshape. simpl.
  rewrite decide_False by lia. simpl. by rewrite decide_False by lia.
Qed.

End Entry_facts.

(** ** C1: the centers are rows of the data *)

Section Rows_of_data.
Context {F G : Type} `{Numeric F} `{Generator F G} `{!GeneratorLaws F G}.
Variables (metric : Metric F) (team : option nat) (nTrials : nat).
Variables (callback : option (nat -> answer)).
Variables (data : list F) (nFrames dim k : nat).
Hypothesis Hdata : length data = nFrames * dim.
Hypothesis HN : 0 < nFrames.
Hypothesis HT : 0 < nTrials.
Hypothesis Hk : 0 < k.

Local Abbreviation chosen_from_data := (chosen_from_data data nFrames dim k).

Lemma seeding_after_chosen g w c :
  c < k ->
  exists st, seeding_after metric team nTrials callback data nFrames dim k g w c
             = Returned st /\ chosen_from_data c st.
Proof.
  revert c.
  apply (seeding_invariant metric team nTrials callback data nFrames dim k
           chosen_from_data g w).
  - destruct (first_center_started metric callback data nFrames dim k Hdata HN Hk g w)
      as (st & Hfirst & [Hix _ Hcs _ _ _] & Hshaped).
    exists st. split; [done|]. split; [done|].
    intros j Hj. assert (j = 0) as -> by lia.
    exists (fst (uniform (nFrames - 1) g)). split; [done|].
    rewrite Hcs. unfold row at 1. simpl. rewrite drop_0. apply take_app_length'.
    symmetry. apply length_row. by eapply row_in_bounds.
  - intros c' st Hc' [Hshaped Hrows].
    destruct (round_stepped metric team nTrials callback data nFrames dim k
                Hdata HN HT (S c') st Hshaped Hc')
      as (s & id & st' & _ & _ & Hround & [_ Hid _ _ _ _ Hcs _] & Hshaped').
    exists st'. split; [done|]. split; [done|].
    intros j Hj. rewrite Hcs.
    destruct Hshaped as [_ _ Hlen].
    assert (Hrow : length (row dim data id) = dim).
    { apply length_row. by eapply row_in_bounds. }
    destruct (decide (j = S c')) as [->|Hne].
    + exists id. split; [done|].
      by apply (row_assigned_same dim (centers st) _ (S c') k).
    + destruct (Hrows j ltac:(lia)) as (i & Hi & Hri).
      exists i. split; [done|]. rewrite <- Hri.
      apply row_assigned_before; [|lia].
      pose proof (row_in_bounds dim (centers st) (S c') k Hlen Hc'). lia.
Qed.

Lemma seeding_after_shaped g w c :
  c < k ->
  exists st, seeding_after metric team nTrials callback data nFrames dim k g w c
             = Returned st /\ shaped nFrames dim k st.
Proof.
  intros Hc. destruct (seeding_after_chosen g w c Hc) as (st & Hafter & Hshaped & _).
  by exists st.
Qed.

(** Every round [c + 1] starts from the state after center [c] and ends in
    the state after center [c + 1]. *)
Lemma every_round_shaped g w c :
  S c < k ->
  exists st s id st',
    seeding_after metric team nTrials callback data nFrames dim k g w c = Returned st
    /\ shaped nFrames dim k st
    /\ select metric team nTrials data nFrames dim st = Returned s
    /\ selected metric team nTrials data nFrames dim st s
    /\ seeding_after metric team nTrials callback data nFrames dim k g w (S c)
       = Returned st'
    /\ stepped callback data nFrames dim (S c) st s id st'
    /\ shaped nFrames dim k st'.
Proof.
  intros Hc.
  destruct (seeding_after_shaped g w c ltac:(lia)) as (st & Hafter & Hshaped).
  destruct (round_stepped metric team nTrials callback data nFrames dim k
              Hdata HN HT (S c) st Hshaped Hc)
    as (s & id & st' & Hsel & Hs & Hround & Hstep & Hshaped').
  exists st, s, id, st'. do 4 (split; [done|]).
  split; [|done]. by rewrite seeding_after_S, Hafter.
Qed.

End Rows_of_data.

(** ** The instances satisfy their laws *)

Lemma Q_fle (a b : Q) : fle a b = Qle_bool a b.
Proof. unfold fle. simpl. by rewrite negb_involutive. Qed.

Lemma Q_flt (a b : Q) : flt a b = true <-> (a < b)%Q.
Proof.
  simpl. rewrite negb_true_iff. split.
  - intros Hle. apply Qnot_le_lt. intros Hba.
    apply Qle_bool_iff in Hba. congruence.
  - intros Hlt. destruct (Qle_bool b a) eqn:Hba; [|done].
    apply Qle_bool_iff in Hba. exfalso. by eapply Qlt_not_le.
Qed.

Lemma Q_fle_iff (a b : Q) : fle a b = true <-> (a <= b)%Q.
Proof. rewrite Q_fle. apply Qle_bool_iff. Qed.

Lemma Q_order : OrderLaws Q.
Proof.
  split.
  - intros a. simpl. rewrite negb_false_iff. apply Qle_bool_iff, Qle_refl.
  - intros a b c. rewrite !Q_flt. apply Qlt_trans.
  - intros a b c. rewrite !Q_fle_iff. apply Qle_trans.
Qed.

#[global] Existing Instance Q_order.

Lemma Qplus_0_l_eq (a : Q) : (0 + a)%Q = a.
Proof.
  destruct a as [n d]. unfold Qplus. simpl.
  by rewrite Z.mul_1_r.
Qed.

Lemma Qplus_0_r_eq (a : Q) : (a + 0)%Q = a.
Proof.
  destruct a as [n d]. unfold Qplus. simpl.
  by rewrite Z.mul_1_r, Z.add_0_r, Pos.mul_1_r.
Qed.

Lemma Q_add : AddLaws Q.
Proof.
  split.
  - intros a a' b b'. rewrite !Q_fle_iff. apply Qplus_le_compat.
  - apply Qplus_0_l_eq.
  - apply Qplus_0_r_eq.
Qed.

#[global] Existing Instance Q_add.

Lemma tape_Q_laws : GeneratorLaws Q (list nat).
Proof.
  split.
  - intros hi [|d g]; simpl; [lia|].
    pose proof (Nat.mod_upper_bound d (hi + 1)). lia.
  - intros g.
    change (uniformReal g)
      with (let '(d, g') := tape_next g in (Z.of_nat (d mod 8) # 8, g')).
    destruct (tape_next g) as [d g']. cbn [fst].
    pose proof (Nat.mod_upper_bound d 8 ltac:(lia)) as Hd.
    split.
    + rewrite Q_fle_iff. unfold Qle. simpl. lia.
    + rewrite Q_flt. unfold Qlt. simpl. lia.
Qed.

#[global] Existing Instance tape_Q_laws.

(** ** Sums of potentials *)

Section Potential.
Context {F : Type} `{Numeric F} `{!OrderLaws F} `{!AddLaws F}.
Implicit Types (l : list F) (a x y : F).

Lemma fadd_nonneg a x : nonneg x -> fle a (fadd a x) = true.
Proof.
  intros Hx. rewrite <- (fadd_zero_r a) at 1. apply fadd_mono; [apply fle_refl|done].
Qed.

Lemma fold_left_fadd_mono l l' a a' :
  Forall2 (fun x y => fle x y = true) l l' -> fle a a' = true ->
  fle (fold_left fadd l a) (fold_left fadd l' a') = true.
Proof.
  intros Hll. revert a a'. induction Hll as [|x y l l' Hxy _ IH]; intros a a' Ha; [done|].
  simpl. apply IH. by apply fadd_mono.
Qed.

Lemma fold_left_fadd_nonneg l a :
  Forall nonneg l -> nonneg a -> nonneg (fold_left fadd l a).
Proof.
  intros Hl. revert a. induction Hl as [|x l Hx _ IH]; intros a Ha; [done|].
  simpl. apply IH. unfold nonneg in *.
  eapply fle_trans; [exact Ha|]. by apply fadd_nonneg.
Qed.

Lemma fold_left_fadd_nonneg_start l a :
  Forall nonneg l -> fle a (fold_left fadd l a) = true.
Proof.
  intros Hl. revert a. induction Hl as [|x l Hx _ IH]; intros a; [apply fle_refl|].
  simpl. eapply fle_trans; [by apply fadd_nonneg|apply IH].
Qed.

Lemma seq_sum_nonpos l :
  Forall (fun x => fle x fzero = true) l -> fle (seq_sum l) fzero = true.
Proof.
  intros Hl. unfold seq_sum.
  assert (Hgen : forall a, fle a fzero = true -> fle (fold_left fadd l a) fzero = true).
  { induction Hl as [|x l Hx _ IH]; intros a Ha; [done|].
    simpl. apply IH. rewrite <- (fadd_zero_l fzero). by apply fadd_mono. }
  apply Hgen, fle_refl.
Qed.

Lemma seq_sum_mono l l' :
  Forall2 (fun x y => fle x y = true) l l' -> fle (seq_sum l) (seq_sum l') = true.
Proof. intros Hll. apply fold_left_fadd_mono; [done|apply fle_refl]. Qed.

Lemma seq_sum_nonneg l : Forall nonneg l -> nonneg (seq_sum l).
Proof. intros Hl. apply fold_left_fadd_nonneg; [done|apply fle_refl]. Qed.

Lemma split_chunks_Forall2 (R : F -> F -> Prop) sizes l l' :
  Forall2 R l l' -> Forall2 (Forall2 R) (split_chunks sizes l) (split_chunks sizes l').
Proof.
  revert l l'. induction sizes as [|n sizes IH]; intros l l' Hll; simpl; [constructor|].
  constructor; [by apply Forall2_take|]. apply IH. by apply Forall2_drop.
Qed.

Lemma split_chunks_Forall (P : F -> Prop) sizes l :
  Forall P l -> Forall (Forall P) (split_chunks sizes l).
Proof.
  revert l. induction sizes as [|n sizes IH]; intros l Hl; simpl; [constructor|].
  constructor; [by apply Forall_take|]. apply IH. by apply Forall_drop.
Qed.

Lemma reduce_sum_mono team l l' :
  Forall2 (fun x y => fle x y = true) l l' ->
  fle (reduce_sum team l) (reduce_sum team l') = true.
Proof.
  intros Hll. destruct team as [t|]; simpl; [|by apply seq_sum_mono].
  unfold omp_reduce_sum. rewrite <- (Forall2_length _ _ _ Hll).
  apply fold_left_fadd_mono; [|apply fle_refl].
  apply Forall2_fmap.
  eapply Forall2_impl; [by apply split_chunks_Forall2|].
  intros c c' Hcc. by apply seq_sum_mono.
Qed.

Lemma reduce_sum_nonneg team l : Forall nonneg l -> nonneg (reduce_sum team l).
Proof.
  intros Hl. destruct team as [t|]; simpl; [|by apply seq_sum_nonneg].
  unfold omp_reduce_sum. apply fold_left_fadd_nonneg; [|apply fle_refl].
  apply Forall_fmap.
  eapply Forall_impl; [by apply split_chunks_Forall|].
  intros c Hc. by apply seq_sum_nonneg.
Qed.

(** *** The prefix sums *)

Lemma partial_sum_from_sorted a l :
  Forall nonneg l ->
  StronglySorted (fun x y => fle x y = true) (partial_sum_from a l)
  /\ Forall (fun y => fle a y = true) (partial_sum_from a l).
Proof.
  intros Hl. revert a. induction Hl as [|x l Hx _ IH]; intros a; simpl.
  - split; constructor.
  - destruct (IH (fadd a x)) as [Hs Hge].
    pose proof (fadd_nonneg a x Hx) as Hax.
    split.
    + by constructor.
    + constructor; [done|]. eapply Forall_impl; [exact Hge|].
      intros y Hy. simpl in Hy. by eapply fle_trans.
Qed.

Lemma partial_sum_ascending l : Forall nonneg l -> ascending (partial_sum l).
Proof.
  intros Hl. apply strongly_ascending. destruct Hl as [|x l Hx Hl]; simpl.
  - constructor.
  - destruct (partial_sum_from_sorted x l Hl) as [Hs Hge]. by constructor.
Qed.

Lemma partial_sum_nonneg l : Forall nonneg l -> Forall nonneg (partial_sum l).
Proof.
  intros Hl. destruct Hl as [|x l Hx Hl]; simpl; [constructor|].
  destruct (partial_sum_from_sorted x l Hl) as [_ Hge].
  constructor; [done|]. eapply Forall_impl; [exact Hge|].
  intros y Hy. simpl in Hy. unfold nonneg in *. by eapply fle_trans.
Qed.

Lemma last_partial_sum_from a l :
  last (a :: partial_sum_from a l) = Some (fold_left fadd l a).
Proof.
  revert a. induction l as [|x l IH]; intros a; [done|].
  simpl partial_sum_from. simpl fold_left. rewrite <- IH. done.
Qed.

Lemma last_partial_sum l : l <> [] -> last (partial_sum l) = Some (seq_sum l).
Proof.
  destruct l as [|x l]; [done|]. intros _. unfold seq_sum. simpl fold_left.
  rewrite fadd_zero_l. apply last_partial_sum_from.
Qed.

End Potential.

(** ** The potential across the rounds *)

Section Potential_rounds.
Context {F G : Type} `{Numeric F} `{Generator F G}.
Context `{!OrderLaws F} `{!AddLaws F} `{!GeneratorLaws F G}.
Variables (metric : Metric F) (team : option nat) (nTrials : nat).
Variables (callback : option (nat -> answer)).
Variables (data : list F) (nFrames dim k : nat).
Hypothesis Hdata : length data = nFrames * dim.
Hypothesis HN : 0 < nFrames.
Hypothesis HT : 0 < nTrials.
Hypothesis Hk : 0 < k.
Hypothesis Hmetric : metric_nonneg metric.

Local Abbreviation potential_inv := (potential_inv team nFrames dim k).

Lemma dists_to_nonneg i : Forall nonneg (dists_to metric data nFrames dim i).
Proof. unfold dists_to. apply Forall_fmap, Forall_forall. intros r _. apply Hmetric. Qed.

Lemma first_center_potential g w :
  exists st, first_center metric callback data nFrames dim k g w = Returned st
             /\ started metric callback data nFrames dim k g w st
             /\ potential_inv 0 st.
Proof.
  destruct (first_center_started metric callback data nFrames dim k Hdata HN Hk g w)
    as (st & Hfirst & Hstart & Hshaped).
  exists st. split; [done|]. split; [done|].
  destruct Hstart as [_ _ _ Hd Hp _]. destruct (Hshaped) as [Hlen Hcum _].
  constructor; [done| |].
  - rewrite Hd. apply dists_to_nonneg.
  - simpl. rewrite Hcum, last_partial_sum in Hp; [by injection Hp|].
    intros Hnil. rewrite Hnil in Hlen. simpl in Hlen. lia.
Qed.

Lemma round_potential c st :
  potential_inv c st -> S c < k ->
  exists s id st',
    select metric team nTrials data nFrames dim st = Returned s
    /\ selected metric team nTrials data nFrames dim st s
    /\ round metric team nTrials callback data nFrames dim (S c) st = Returned st'
    /\ stepped callback data nFrames dim (S c) st s id st'
    /\ potential_inv (S c) st'.
Proof.
  intros [Hshaped Hnn Htot] Hc.
  destruct (round_stepped metric team nTrials callback data nFrames dim k
              Hdata HN HT (S c) st Hshaped Hc)
    as (s & id & st' & Hsel & Hs & Hround & Hstep & Hshaped').
  exists s, id, st'. do 4 (split; [done|]).
  destruct Hstep as [Hbest Hid _ Hp Hd _ _ _].
  pose proof (selected_row metric team nTrials data nFrames dim k Hdata
                st s _ id Hshaped Hs Hbest) as Hrow.
  pose proof (selected_potential metric team nTrials data nFrames dim k Hdata
                st s _ id Hshaped Hs Hbest) as Hpot.
  constructor; [done| |].
  - rewrite Hd, Hrow. apply zip_min_nonneg; [apply dists_to_nonneg|done].
  - simpl. rewrite Hd, Hrow. rewrite Hp in Hpot. by injection Hpot.
Qed.

Lemma seeding_after_potential g w c :
  c < k ->
  exists st, seeding_after metric team nTrials callback data nFrames dim k g w c
             = Returned st /\ potential_inv c st.
Proof.
  revert c.
  apply (seeding_invariant metric team nTrials callback data nFrames dim k
           potential_inv g w).
  - destruct (first_center_potential g w) as (st & Hfirst & _ & Hinv). by exists st.
  - intros c st Hc Hinv.
    destruct (round_potential c st Hinv Hc) as (s & id & st' & _ & _ & Hround & _ & Hinv').
    by exists st'.
Qed.

(** Every round [c + 1] starts from the state after center [c] and ends in
    the state after center [c + 1]. *)
Lemma every_round g w c :
  S c < k ->
  exists st s id st',
    seeding_after metric team nTrials callback data nFrames dim k g w c = Returned st
    /\ potential_inv c st
    /\ select metric team nTrials data nFrames dim st = Returned s
    /\ selected metric team nTrials data nFrames dim st s
    /\ seeding_after metric team nTrials callback data nFrames dim k g w (S c)
       = Returned st'
    /\ stepped callback data nFrames dim (S c) st s id st'
    /\ potential_inv (S c) st'.
Proof.
  intros Hc.
  destruct (seeding_after_potential g w c ltac:(lia)) as (st & Hafter & Hinv).
  destruct (round_potential c st Hinv Hc)
    as (s & id & st' & Hsel & Hs & Hround & Hstep & Hinv').
  exists st, s, id, st'. do 4 (split; [done|]).
  split; [|done]. by rewrite seeding_after_S, Hafter.
Qed.

End Potential_rounds.

(** ** The selection of the best candidate and the index search *)

Section Selection_facts.
Context {F : Type} `{Numeric F} `{!OrderLaws F}.
Implicit Types (l L : list F).

Lemma min_element_from_spec L l s v i :
  drop i L = l -> L !! s = Some v -> s < i ->
  (forall j x, j < i -> L !! j = Some x -> fle v x = true) ->
  (forall j x, j < s -> L !! j = Some x -> flt v x = true) ->
  exists m, L !! min_element_from s v i l = Some m
            /\ (forall j x, L !! j = Some x -> fle m x = true)
            /\ (forall j x, j < min_element_from s v i l -> L !! j = Some x ->
                            flt m x = true).
Proof.
  revert s v i. induction l as [|y l IH]; intros s v i Hdrop Hs Hsi Hle Hlt; simpl.
  - exists v. split; [done|]. split; [|done].
    intros j x Hj. apply (Hle j); [|done].
    apply lookup_lt_Some in Hj. apply (f_equal length) in Hdrop.
    rewrite length_drop in Hdrop. simpl in Hdrop. lia.
  - assert (Hi : L !! i = Some y).
    { pose proof (lookup_drop L i 0) as Hl. rewrite Hdrop, Nat.add_0_r in Hl. by simpl in Hl. }
    assert (Hdrop' : drop (S i) L = l).
    { change (S i) with (1 + i). rewrite Nat.add_comm, <- drop_drop, Hdrop. done. }
    destruct (flt y v) eqn:Hyv.
    + apply IH; [done|done|lia| |].
      * intros j x Hj Hx. destruct (decide (j = i)) as [->|Hne].
        -- rewrite Hi in Hx. injection Hx as <-. apply fle_refl.
        -- apply flt_fle. eapply flt_fle_trans; [exact Hyv|]. apply (Hle j); [lia|done].
      * intros j x Hj Hx. eapply flt_fle_trans; [exact Hyv|]. by apply (Hle j).
    + apply IH; [done|done|lia| |done].
      intros j x Hj Hx. destruct (decide (j = i)) as [->|Hne].
      * rewrite Hi in Hx. injection Hx as <-. by apply not_flt_fle.
      * apply (Hle j); [lia|done].
Qed.

(** [std::min_element] returns the first of the smallest elements. *)
Lemma min_element_spec l :
  l <> [] ->
  exists m, l !! min_element l = Some m
            /\ (forall j x, l !! j = Some x -> fle m x = true)
            /\ (forall j x, j < min_element l -> l !! j = Some x -> flt m x = true).
Proof.
  destruct l as [|y l]; [done|]. intros _. simpl min_element.
  apply (min_element_from_spec (y :: l) l 0 y 1); [done|done|lia| |lia].
  intros j x Hj Hx. assert (j = 0) as -> by lia. simpl in Hx. injection Hx as <-.
  apply fle_refl.
Qed.

Lemma inverse_cdf_spec (cumsum : list F) N t :
  length cumsum = N -> 0 < N ->
  inverse_cdf cumsum N t < N /\ smallest_at_least cumsum N t (inverse_cdf cumsum N t).
Proof.
  intros Hlen HN. unfold inverse_cdf.
  pose proof (first_not_below_le cumsum t) as Hle.
  destruct (first_not_below_spec cumsum t) as [Hbelow Hat].
  case_decide as Hne.
  - split; [lia|]. left.
    destruct (lookup_lt_is_Some_2 cumsum (first_not_below cumsum t) ltac:(lia)) as [x Hx].
    exists x. split; [done|]. split; [|done].
    apply not_flt_fle. by apply Hat.
  - split; [lia|]. right. split; [done|].
    intros j y Hj. apply (Hbelow j); [|done].
    apply lookup_lt_Some in Hj. lia.
Qed.

End Selection_facts.

(** ** The reduction of an exact addition does not depend on the team *)

Section Exact_sums.
Context {F : Type} `{Numeric F} `{!AddLaws F} `{!AssocLaws F}.
Implicit Types (l : list F) (a : F).

Lemma fold_left_fadd_start l a : fold_left fadd l a = fadd a (seq_sum l).
Proof.
  unfold seq_sum. revert a. induction l as [|x l IH]; intros a; simpl.
  - by rewrite fadd_zero_r.
  - rewrite (IH (fadd a x)), (IH (fadd fzero x)), fadd_zero_l. by rewrite fadd_assoc.
Qed.

Lemma fold_left_partial_sums (cs : list (list F)) a :
  fold_left fadd (map seq_sum cs) a = fold_left fadd (concat cs) a.
Proof.
  revert a. induction cs as [|c cs IH]; intros a; simpl; [done|].
  by rewrite fold_left_app, IH, <- fold_left_fadd_start.
Qed.

Lemma concat_split_chunks sizes l :
  concat (split_chunks sizes l) = take (sum_list sizes) l.
Proof.
  revert l. induction sizes as [|n sizes IH]; intros l; simpl; [by rewrite take_0|].
  by rewrite IH, take_take_drop.
Qed.

Lemma sum_static_schedule team n : 0 < team -> sum_list (static_schedule team n) = n.
Proof.
  intros Ht. unfold static_schedule.
  pose proof (Nat.mod_upper_bound n team ltac:(lia)) as Hr.
  pose proof (Nat.div_mod_eq n team) as Hn.
  assert (Hsum : forall m, sum_list
            (map (fun t => n / team + (if decide (t < n mod team) then 1 else 0)) (seq 0 m))
          = m * (n / team) + Nat.min m (n mod team)).
  { induction m as [|m IH]; [done|].
    rewrite seq_S, map_app, sum_list_with_app, IH. cbn [map sum_list_with Nat.add]. unfold Datatypes.id. case_decide; lia. }
  rewrite Hsum. lia.
Qed.

Lemma omp_reduce_sum_seq team l : 0 < team -> omp_reduce_sum team l = seq_sum l.
Proof.
  intros Ht. unfold omp_reduce_sum.
  rewrite fold_left_partial_sums, concat_split_chunks, sum_static_schedule by done.
  by rewrite take_ge.
Qed.

Lemma reduce_sum_team_of USE_OPENMP n_threads l :
  reduce_sum (team_of USE_OPENMP n_threads) l = seq_sum l.
Proof.
  unfold team_of. destruct USE_OPENMP; simpl; [|done].
  apply omp_reduce_sum_seq. lia.
Qed.

End Exact_sums.

(** ** More laws of the rational instance *)

Lemma Q_assoc : AssocLaws Q.
Proof.
  split. intros [an ad] [bn bd] [cn cd]. simpl. unfold Qplus. simpl.
  f_equal; [|by rewrite Pos.mul_assoc].
  rewrite !Pos2Z.inj_mul. ring.
Qed.

#[global] Existing Instance Q_assoc.

Lemma Q_mul : MulLaws Q.
Proof.
  split.
  - intros p u. rewrite !Q_fle_iff. apply Qmult_le_0_compat.
  - intros p u. rewrite !Q_flt. apply Qmult_lt_0_compat.
  - intros p u. rewrite !Q_flt. intros Hp Hu.
    apply Qlt_le_trans with (p * 1)%Q.
    + by apply Qmult_lt_l.
    + rewrite Qmult_1_r. apply Qle_refl.
  - intros [pn pd] [un ud]. rewrite !Q_fle_iff. unfold Qle, Qmult. simpl. nia.
  - intros [pn pd] [un ud]. rewrite !Q_fle_iff. unfold Qle, Qmult. simpl. nia.
Qed.

#[global] Existing Instance Q_mul.

Section Draws.
Context {F G : Type} `{Numeric F} `{Generator F G} `{!GeneratorLaws F G}.

Lemma draws_unit n (g : G) :
  Forall (fun u => fle fzero u = true /\ flt u fone = true) (fst (draws n g)).
Proof.
  revert g. induction n as [|n IH]; intros g; simpl; [constructor|].
  pose proof (uniformReal_unit g) as Hu. destruct (uniformReal g) as [u g1].
  specialize (IH g1). destruct (draws n g1) as [us g2]. simpl in *.
  by constructor.
Qed.

End Draws.

(** ** Runs that differ in the team, the callback or the effects so far *)

Section Agreement.
Context {F G : Type} `{Numeric F} `{Generator F G}.
Variables (metric : Metric F) (nTrials : nat).
Variables (data : list F) (nFrames dim k : nat).
Variables (team1 team2 : option nat).
Variables (callback1 callback2 : option (nat -> answer)).
Hypothesis Hsum : forall l : list F, reduce_sum team1 l = reduce_sum team2 l.

Lemma select_agree (st1 st2 : seeding F G) :
  same_locals st1 st2 ->
  select metric team1 nTrials data nFrames dim st1
  = select metric team2 nTrials data nFrames dim st2.
Proof.
  intros (Hg & Hp & Hd & Hc & _). unfold select. rewrite Hg, Hp, Hd, Hc.
  destruct (generate nTrials (currentPotential st2) (generator st2)) as [drawn g].
  destruct (gather_rows dim data
              (find_candidates 0 (distancesCumsum st2) nFrames (std_sort drawn)))
    as [coords|]; simpl; [|done].
  assert (Hpots : forall d : list F,
             trial_potentials team1 nTrials nFrames d
             = trial_potentials team2 nTrials nFrames d).
  { intros d. unfold trial_potentials. apply map_ext. intros t. apply Hsum. }
  by rewrite Hpots.
Qed.

Lemma round_agree c (st1 st2 : seeding F G) :
  same_locals st1 st2 ->
  agree (round metric team1 nTrials callback1 data nFrames dim c st1)
        (round metric team2 nTrials callback2 data nFrames dim c st2).
Proof.
  intros Hsame. unfold round. rewrite (select_agree st1 st2 Hsame).
  destruct Hsame as (Hg & Hp & Hd & Hc & Hcs). rewrite Hcs.
  destruct (select metric team2 nTrials data nFrames dim st2) as [s| |]; simpl; [|done..].
  destruct (candidatesIds s !! bestCandidateIx s) as [id|]; simpl; [|done].
  destruct (candidatesPotentials s !! bestCandidateIx s) as [p|]; simpl; [|done].
  destruct (assignCenter id dim data (centers st2) (c * dim)) as [cs|]; simpl; [|done].
  by repeat split.
Qed.

Lemma rounds_agree cs (st1 st2 : seeding F G) :
  same_locals st1 st2 ->
  agree (rounds metric team1 nTrials callback1 data nFrames dim cs st1)
        (rounds metric team2 nTrials callback2 data nFrames dim cs st2).
Proof.
  revert st1 st2. induction cs as [|c cs IH]; intros st1 st2 Hsame; simpl; [done|].
  pose proof (round_agree c st1 st2 Hsame) as Hround.
  destruct (round metric team1 nTrials callback1 data nFrames dim c st1) as [st1'| |],
           (round metric team2 nTrials callback2 data nFrames dim c st2) as [st2'| |];
    simpl in *; try done.
  by apply IH.
Qed.

Lemma first_center_agree g w1 w2 :
  agree (first_center metric callback1 data nFrames dim k g w1)
        (first_center metric callback2 data nFrames dim k g w2).
Proof.
  unfold first_center. destruct (uniform (nFrames - 1) g) as [first g1].
  destruct (assignCenter first dim data (replicate (k * dim) fzero) 0) as [cs|];
    simpl; [|done].
  destruct (last (partial_sum (computeDistances metric cs 1 data nFrames dim))) as [p|];
    simpl; [|done].
  by repeat split.
Qed.

Lemma seeding_after_agree g w1 w2 c :
  agree (seeding_after metric team1 nTrials callback1 data nFrames dim k g w1 c)
        (seeding_after metric team2 nTrials callback2 data nFrames dim k g w2 c).
Proof.
  unfold seeding_after. pose proof (first_center_agree g w1 w2) as Hfirst.
  destruct (first_center metric callback1 data nFrames dim k g w1) as [st1| |],
           (first_center metric callback2 data nFrames dim k g w2) as [st2| |];
    simpl in *; try done.
  by apply rounds_agree.
Qed.

End Agreement.

(** ** The draws and the progress events of a run *)

Section Trace.
Context {F G : Type} `{Numeric F} `{Generator F G} `{!GeneratorLaws F G}.
Variables (metric : Metric F) (team : option nat) (nTrials : nat).
Variables (callback : option (nat -> answer)).
Variables (data : list F) (nFrames dim k : nat).
Hypothesis Hdata : length data = nFrames * dim.
Hypothesis HN : 0 < nFrames.
Hypothesis HT : 0 < nTrials.
Hypothesis Hk : 0 < k.

Local Abbreviation traced := (traced nTrials callback nFrames dim k).

Lemma draws_add n m (g : G) :
  snd (@draws F G _ (n + m) g) = snd (@draws F G _ m (snd (@draws F G _ n g))).
Proof.
  revert g. induction n as [|n IH]; intros g; simpl; [done|].
  destruct (uniformReal g) as [u g1]. specialize (IH g1).
  destruct (draws (n + m) g1) as [us g2], (draws n g1) as [us' g2']. simpl in *.
  done.
Qed.

Lemma seeding_after_traced g w c :
  c < k ->
  exists st, seeding_after metric team nTrials callback data nFrames dim k g w c
             = Returned st /\ traced g w c st.
Proof.
  revert c.
  apply (seeding_invariant metric team nTrials callback data nFrames dim k
           (traced g w) g w).
  - destruct (first_center_started metric callback data nFrames dim k Hdata HN Hk g w)
      as (st & Hfirst & [_ Hg _ _ _ Hw] & Hshaped).
    exists st. split; [done|]. constructor; [done|done|].
    rewrite Hw. unfold perform_callback, callback_events.
    destruct callback; simpl; [done|by rewrite app_nil_r].
  - intros c st Hc [Hshaped Hg Hw].
    destruct (round_stepped metric team nTrials callback data nFrames dim k
                Hdata HN HT (S c) st Hshaped Hc)
      as (s & id & st' & _ & Hs & Hround & [_ _ Hg' _ _ _ _ Hw'] & Hshaped').
    exists st'. split; [done|]. constructor; [done| |].
    + rewrite Hg', (sel_generator Hs), generate_draws, Hg.
      cbn [snd]. replace (S c * nTrials) with (c * nTrials + nTrials) by lia.
      by rewrite draws_add.
    + rewrite Hw', Hw. unfold perform_callback, callback_events.
      destruct callback as [f|]; [|done].
      rewrite <- app_assoc. f_equal. by rewrite (seq_S (S c)), map_app.
Qed.

End Trace.

(** ** The candidates of a round *)

Section Candidates.
Context {F G : Type} `{Numeric F} `{Generator F G}.
Context `{!OrderLaws F} `{!AddLaws F}.
Variables (metric : Metric F) (team : option nat) (nTrials : nat).
Variables (data : list F) (nFrames dim k : nat).

Lemma selected_inverse_cdf c (st : seeding F G) (s : selection F G) :
  potential_inv team nFrames dim k c st ->
  selected metric team nTrials data nFrames dim st s ->
  ascending (trialValues s)
  /\ Forall nonneg (distancesCumsum st)
  /\ candidatesIds s = map (inverse_cdf (distancesCumsum st) nFrames) (trialValues s).
Proof.
  intros [[Hdl Hcum Hcs] Hnn Htot] [Htr _ Hids _ _ _ _ _ _ _].
  assert (Hasc : ascending (trialValues s)) by (rewrite Htr; apply std_sort_ascending).
  split; [done|]. split; [rewrite Hcum; by apply partial_sum_nonneg|].
  rewrite Hids. apply find_candidates_inverse_cdf; [|done|lia|intros; lia].
  rewrite Hcum. by apply partial_sum_ascending.
Qed.

(** A trial value that is not above zero finds index 0, whatever the
    potential of frame 0. *)
Lemma inverse_cdf_zero (cumsum : list F) N t :
  Forall nonneg cumsum -> 0 < length cumsum -> fle t fzero = true ->
  inverse_cdf cumsum N t = 0.
Proof.
  intros Hnn Hlen Ht. unfold inverse_cdf.
  destruct Hnn as [|x cumsum Hx _]; simpl in *; [lia|].
  destruct (flt x t) eqn:Hxt.
  - pose proof (flt_fle_trans x t fzero Hxt Ht) as Hx0.
    unfold nonneg, fle in Hx. by rewrite Hx0 in Hx.
  - by rewrite decide_True.
Qed.

End Candidates.

(** ** Frames that can become candidates *)

Section Sampling.
Context {F : Type} `{Numeric F} `{!OrderLaws F} `{!AddLaws F}.
Implicit Types (l dists : list F) (a x t : F).

Lemma partial_sum_from_lookup a l i c x :
  (a :: partial_sum_from a l) !! i = Some c -> l !! i = Some x ->
  partial_sum_from a l !! i = Some (fadd c x).
Proof.
  revert a i. induction l as [|y l IH]; intros a i Hc Hx; [done|].
  destruct i as [|i]; simpl in *.
  - by injection Hc as <-; injection Hx as <-.
  - by apply IH.
Qed.

Lemma partial_sum_lookup_0 l : partial_sum l !! 0 = l !! 0.
Proof. by destruct l. Qed.

Lemma partial_sum_lookup_S l i c x :
  partial_sum l !! i = Some c -> l !! S i = Some x ->
  partial_sum l !! S i = Some (fadd c x).
Proof.
  destruct l as [|y l]; [done|]. simpl. apply partial_sum_from_lookup.
Qed.

Lemma fold_left_fadd_elem l a j x :
  Forall nonneg l -> nonneg a -> l !! j = Some x -> fle x (fold_left fadd l a) = true.
Proof.
  intros Hl. revert a j. induction Hl as [|y l Hy Hl IH]; intros a j Ha Hj; [done|].
  assert (Hay : nonneg (fadd a y)).
  { unfold nonneg in *. eapply fle_trans; [exact Ha|]. by apply fadd_nonneg. }
  destruct j as [|j]; simpl in *.
  - injection Hj as ->. eapply fle_trans; [|by apply fold_left_fadd_nonneg_start].
    rewrite <- (fadd_zero_l x) at 1. apply fadd_mono; [done|apply fle_refl].
  - by apply (IH (fadd a y) j).
Qed.

Lemma seq_sum_elem l j x : Forall nonneg l -> l !! j = Some x -> fle x (seq_sum l) = true.
Proof. intros Hl Hj. eapply fold_left_fadd_elem; [done|apply fle_refl|done]. Qed.

(** Adding something that is not above zero does not raise a sum. *)
Lemma fadd_nonpos a x : fle x fzero = true -> fle (fadd a x) a = true.
Proof.
  intros Hx. rewrite <- (fadd_zero_r a) at 2. apply fadd_mono; [apply fle_refl|done].
Qed.

(** A positive trial value that the last prefix sum reaches finds a frame
    of positive potential. *)
Lemma inverse_cdf_positive dists N t last_sum :
  Forall nonneg dists ->
  flt fzero t = true ->
  last (partial_sum dists) = Some last_sum -> fle t last_sum = true ->
  exists p, dists !! inverse_cdf (partial_sum dists) N t = Some p /\ flt fzero p = true.
Proof.
  intros Hnn Ht Hlast Hle. unfold inverse_cdf.
  set (cumsum := partial_sum dists) in *.
  pose proof (first_not_below_le cumsum t) as Hr.
  destruct (first_not_below_spec cumsum t) as [Hbelow Hat].
  assert (Hlen : length cumsum = length dists) by apply length_partial_sum.
  assert (Hne : first_not_below cumsum t <> length cumsum).
  { intros Heq. rewrite last_lookup in Hlast.
    assert (Hlt : flt last_sum t = true).
    { apply (Hbelow (pred (length cumsum))); [|done].
      apply lookup_lt_Some in Hlast. lia. }
    pose proof (fle_flt_trans t last_sum t Hle Hlt) as Htt.
    by rewrite flt_irrefl in Htt. }
  rewrite decide_True by done.
  set (r := first_not_below cumsum t) in *.
  destruct (lookup_lt_is_Some_2 cumsum r ltac:(lia)) as [c Hc].
  destruct (lookup_lt_is_Some_2 dists r ltac:(lia)) as [p Hp].
  exists p. split; [done|].
  destruct (flt fzero p) eqn:Hpos; [done|]. exfalso.
  assert (Hp0 : fle p fzero = true) by (unfold fle; by rewrite Hpos).
  pose proof (Hat c Hc) as Hct.
  destruct r as [|r'].
  - unfold cumsum in Hc. rewrite partial_sum_lookup_0, Hp in Hc. injection Hc as <-.
    pose proof (flt_fle_trans fzero t p Ht ltac:(by apply not_flt_fle)) as H0p.
    by rewrite H0p in Hpos.
  - destruct (lookup_lt_is_Some_2 cumsum r' ltac:(lia)) as [c' Hc'].
    pose proof (partial_sum_lookup_S dists r' c' p Hc' Hp) as Hstep.
    fold cumsum in Hstep. rewrite Hc in Hstep. injection Hstep as ->.
    pose proof (Hbelow r' c' ltac:(lia) Hc') as Hc't.
    pose proof (fle_flt_trans _ _ _ (fadd_nonpos c' p Hp0) Hc't) as Hbad.
    by rewrite Hbad in Hct.
Qed.

End Sampling.

Lemma unchosen_frame (ids : list nat) (N : nat) :
  NoDup ids -> Forall (fun i => i < N) ids -> length ids < N ->
  exists j, j < N /\ j ∉ ids.
Proof.
  intros Hnd Hlt Hlen.
  destruct (decide (Forall (fun j => j ∈ ids) (seq 0 N))) as [Hall|Hnot].
  - exfalso. rewrite Forall_forall in Hall.
    assert (Hsub : seq 0 N ⊆+ ids).
    { apply NoDup_submseteq; [apply NoDup_seq|done]. }
    apply submseteq_length in Hsub. rewrite length_seq in Hsub. lia.
  - apply not_Forall_Exists in Hnot; [|apply _].
    apply Exists_exists in Hnot as (j & Hj%elem_of_seq & Hnin).
    exists j. split; [lia|done].
Qed.

Lemma all_frames_chosen (ids : list nat) (N : nat) :
  NoDup ids -> Forall (fun i => i < N) ids -> length ids = N -> ids ≡ₚ seq 0 N.
Proof.
  intros Hnd Hlt Hlen. apply submseteq_length_Permutation.
  - apply NoDup_submseteq; [done|]. rewrite Forall_forall in Hlt.
    intros i Hi. apply elem_of_seq. specialize (Hlt i Hi). lia.
  - rewrite length_seq. lia.
Qed.

(** ** Centers that are pairwise distinct frames *)

Section Distinct.
Context {F G : Type} `{Numeric F} `{Generator F G}.
Context `{!OrderLaws F} `{!AddLaws F} `{!MulLaws F} `{!GeneratorLaws F G}.
Variables (metric : Metric F) (team : option nat) (nTrials : nat).
Variables (callback : option (nat -> answer)).
Variables (data : list F) (nFrames dim k : nat).
Hypothesis Hdata : length data = nFrames * dim.
Hypothesis HN : 0 < nFrames.
Hypothesis HT : 0 < nTrials.
Hypothesis Hk : 0 < k <= nFrames.
Hypothesis Hmetric : metric_nonneg metric.
Hypothesis Hteam : forall l : list F, reduce_sum team l = seq_sum l.
Hypothesis Hdraws : forall g : G, flt fzero (fst (uniformReal g)) = true.
Hypothesis Hself : forall i, i < nFrames ->
  fle (metric (row dim data i) (row dim data i)) fzero = true.
Hypothesis Happart : forall i j, i < nFrames -> j < nFrames -> i <> j ->
  flt fzero (metric (row dim data i) (row dim data j)) = true.

Local Abbreviation distinct_inv := (distinct_inv team data nFrames dim k).

Lemma draws_positive n (g : G) :
  Forall (fun u => flt fzero u = true) (fst (@draws F G _ n g)).
Proof.
  revert g. induction n as [|n IH]; intros g; simpl; [constructor|].
  pose proof (Hdraws g) as Hu. destruct (uniformReal g) as [u g1].
  specialize (IH g1). destruct (draws n g1) as [us g2]. simpl in *.
  by constructor.
Qed.

Lemma dists_to_lookup i j x :
  dists_to metric data nFrames dim i !! j = Some x ->
  j < nFrames /\ x = metric (row dim data i) (row dim data j).
Proof.
  intros Hj. pose proof (lookup_lt_Some _ _ _ Hj) as Hlt.
  rewrite length_dists_to in Hlt. split; [done|].
  unfold dists_to in Hj.
  rewrite (lookup_tabulate (fun r => metric (row dim data i) (row dim data r))) in Hj
    by done.
  by injection Hj.
Qed.

Lemma first_center_distinct g w :
  exists st, first_center metric callback data nFrames dim k g w = Returned st
             /\ distinct_inv 0 st.
Proof.
  destruct (first_center_potential metric team nTrials callback data nFrames dim k
              Hdata HN HT ltac:(lia) Hmetric g w)
    as (st & Hfirst & [Hix _ Hcs Hd _ _] & Hinv).
  exists st. split; [done|]. split; [done|].
  exists [fst (uniform (nFrames - 1) g)].
  split; [done|]. split; [apply NoDup_singleton|]. split; [by constructor|]. split.
  - intros j i Hj. destruct j as [|j]; [|done]. injection Hj as <-.
    rewrite Hcs. unfold row at 1. simpl. rewrite drop_0. apply take_app_length'.
    symmetry. apply length_row. by eapply row_in_bounds.
  - intros j x Hj. rewrite Hd in Hj. apply dists_to_lookup in Hj as [Hlt ->].
    case_decide as Hin.
    + apply list_elem_of_singleton in Hin as ->. by apply Hself.
    + apply Happart; [done..|]. intros Heq. apply Hin. rewrite Heq. by left.
Qed.

(** The winner of a round has potential left, so it is a new frame. *)
Lemma winner_has_potential c st s id :
  potential_inv team nFrames dim k c st ->
  selected metric team nTrials data nFrames dim st s ->
  candidatesIds s !! bestCandidateIx s = Some id ->
  (exists j x, distances st !! j = Some x /\ flt fzero x = true) ->
  exists p, distances st !! id = Some p /\ flt fzero p = true.
Proof.
  intros Hinv Hs Hbest (j & x & Hj & Hx).
  destruct (selected_inverse_cdf metric team nTrials data nFrames dim k c st s Hinv Hs)
    as (_ & _ & Hids).
  destruct Hinv as [[Hdl Hcum _] Hnn Htot].
  assert (Htotal : currentPotential st = seq_sum (distances st)).
  { rewrite Htot. case_decide; [done|apply Hteam]. }
  assert (Hp : flt fzero (currentPotential st) = true).
  { rewrite Htotal. eapply flt_fle_trans; [exact Hx|]. by eapply seq_sum_elem. }
  rewrite Hids, list_lookup_fmap in Hbest.
  destruct (trialValues s !! bestCandidateIx s) as [t|] eqn:Ht; [|done].
  injection Hbest as <-.
  assert (Hin : t ∈ map (fmul (currentPotential st))
                    (fst (@draws F G _ nTrials (generator st)))).
  { rewrite <- std_sort_perm.
    replace (std_sort _) with (trialValues s);
      [by eapply list_elem_of_lookup_2|].
    rewrite (sel_trials Hs), generate_draws. done. }
  apply list_elem_of_fmap in Hin as (u & -> & Hu).
  pose proof (draws_positive nTrials (generator st)) as Hpos.
  pose proof (draws_unit nTrials (generator st)) as Hunit.
  rewrite Forall_forall in Hpos, Hunit.
  destruct (Hunit u Hu) as [_ Hu1].
  rewrite Hcum.
  apply (inverse_cdf_positive (distances st) nFrames _ (currentPotential st)).
  - done.
  - apply fmul_pos; [done|by apply Hpos].
  - rewrite Htotal. apply last_partial_sum. intros Hnil.
    rewrite Hnil in Hdl. simpl in Hdl. lia.
  - apply flt_fle. by apply fmul_unit.
Qed.

Lemma round_distinct c st :
  distinct_inv c st -> S c < k ->
  exists st', round metric team nTrials callback data nFrames dim (S c) st = Returned st'
              /\ distinct_inv (S c) st'.
Proof.
  intros [Hinv (ids & Hlen & Hnd & Hlt & Hrows & Hpots)] Hc.
  destruct (round_potential metric team nTrials callback data nFrames dim k
              Hdata HN HT Hmetric c st Hinv Hc)
    as (s & id & st' & Hsel & Hs & Hround & Hstep & Hinv').
  exists st'. split; [done|]. split; [done|].
  destruct Hstep as [Hbest Hid _ _ Hd _ Hcs _].
  pose proof (selected_row metric team nTrials data nFrames dim k Hdata
                st s _ id (pot_shaped Hinv) Hs Hbest) as Hrow.
  destruct (unchosen_frame ids nFrames Hnd Hlt ltac:(lia)) as (j & Hj & Hjn).
  destruct (lookup_lt_is_Some_2 (distances st) j) as [x Hx].
  { by rewrite (shaped_distances (pot_shaped Hinv)). }
  pose proof (Hpots j x Hx) as Hxpos. rewrite decide_False in Hxpos by done.
  destruct (winner_has_potential c st s id Hinv Hs Hbest) as (p & Hp & Hppos);
    [by exists j, x|].
  assert (Hnew : id ∉ ids).
  { intros Hin. pose proof (Hpots id p Hp) as Hp0. rewrite decide_True in Hp0 by done.
    unfold fle in Hp0. by rewrite Hppos in Hp0. }
  assert (Hcl : length (centers st) = k * dim).
  { apply (shaped_centers (pot_shaped Hinv)). }
  assert (Hrl : length (row dim data id) = dim).
  { apply length_row. by eapply row_in_bounds. }
  exists (ids ++ [id]).
  split; [rewrite length_app; simpl; lia|]. split.
  { apply NoDup_app. split; [done|]. split; [|apply NoDup_singleton].
    intros i Hi Hi'. apply list_elem_of_singleton in Hi' as ->. done. }
  split; [apply Forall_app; split; [done|by constructor]|]. split.
  - intros j' i Hj'. rewrite Hcs. apply lookup_app_Some in Hj' as [Hj'|[Hge Hj']].
    + rewrite <- (Hrows j' i Hj'). apply row_assigned_before.
      * pose proof (row_in_bounds dim (centers st) (S c) k Hcl Hc). lia.
      * apply lookup_lt_Some in Hj'. lia.
    + apply list_lookup_singleton_Some in Hj' as [Hj0 <-].
      assert (j' = S c) as -> by lia.
      by apply (row_assigned_same dim (centers st) _ (S c) k).
  - intros j' x' Hj'. rewrite Hd, Hrow in Hj'.
    apply lookup_zip_with_Some in Hj' as (m & y & -> & Hm & Hy).
    apply dists_to_lookup in Hm as [Hj'lt ->].
    pose proof (Hpots j' y Hy) as Hyp.
    destruct (decide (j' ∈ ids ++ [id])) as [Hin|Hin].
    + apply elem_of_app in Hin as [Hin|Hin].
      * rewrite decide_True in Hyp by done.
        eapply fle_trans; [apply std_min_le_r|done].
      * apply list_elem_of_singleton in Hin as ->.
        eapply fle_trans; [apply std_min_le_l|by apply Hself].
    + rewrite decide_False in Hyp by (intros Hin'; apply Hin, elem_of_app; by left).
      assert (Hm : flt fzero (metric (row dim data id) (row dim data j')) = true).
      { apply Happart; [done..|]. intros ->. apply Hin, elem_of_app. right. by left. }
      unfold std_min. by destruct (flt y _).
Qed.

Lemma seeding_after_distinct g w c :
  c < k ->
  exists st, seeding_after metric team nTrials callback data nFrames dim k g w c
             = Returned st /\ distinct_inv c st.
Proof.
  revert c.
  apply (seeding_invariant metric team nTrials callback data nFrames dim k
           distinct_inv g w).
  - apply first_center_distinct.
  - intros c st Hc Hinv. by apply round_distinct.
Qed.

End Distinct.

(** ** The potentials are minimal distances to the chosen centers *)

Section Min_distances.
Context {F G : Type} `{Numeric F} `{Generator F G} `{!GeneratorLaws F G}.
Variables (metric : Metric F) (team : option nat) (nTrials : nat).
Variables (callback : option (nat -> answer)).
Variables (data : list F) (nFrames dim k : nat).
Hypothesis Hdata : length data = nFrames * dim.
Hypothesis HN : 0 < nFrames.
Hypothesis HT : 0 < nTrials.
Hypothesis Hk : 0 < k.

Local Abbreviation tracked := (tracked metric data nFrames dim k).

(** One round adds its winner to the tracked frames. *)
Lemma stepped_tracked c st s id st' ids :
  shaped nFrames dim k st -> S c < k ->
  selected metric team nTrials data nFrames dim st s ->
  stepped callback data nFrames dim (S c) st s id st' ->
  length ids = S c ->
  (forall j i, reverse ids !! j = Some i -> row dim (centers st) j = row dim data i) ->
  distances st = min_dists metric data nFrames dim ids ->
  (forall j i, reverse (id :: ids) !! j = Some i ->
     row dim (centers st') j = row dim data i)
  /\ distances st' = min_dists metric data nFrames dim (id :: ids).
Proof.
  intros Hshaped Hc Hs [Hbest Hid _ _ Hd _ Hcs _] Hlen Hrows Hdists.
  pose proof (selected_row metric team nTrials data nFrames dim k Hdata
                st s _ id Hshaped Hs Hbest) as Hrow.
  destruct Hshaped as [_ _ Hcl].
  assert (Hrl : length (row dim data id) = dim).
  { apply length_row. by eapply row_in_bounds. }
  split.
  - intros j i Hj. rewrite reverse_cons in Hj. rewrite Hcs.
    apply lookup_app_Some in Hj as [Hj|[Hge Hj]].
    + rewrite <- (Hrows j i Hj). apply row_assigned_before.
      * pose proof (row_in_bounds dim (centers st) (S c) k Hcl Hc). lia.
      * apply lookup_lt_Some in Hj. rewrite length_reverse in Hj. lia.
    + apply list_lookup_singleton_Some in Hj as [Hj0 <-].
      rewrite length_reverse in Hge, Hj0.
      assert (j = S c) as -> by lia.
      by apply (row_assigned_same dim (centers st) _ (S c) k).
  - rewrite Hd, Hrow, Hdists. destruct ids as [|i ids]; [simpl in Hlen; lia|done].
Qed.

Lemma seeding_after_tracked g w c :
  c < k ->
  exists st, seeding_after metric team nTrials callback data nFrames dim k g w c
             = Returned st /\ tracked c st.
Proof.
  revert c.
  apply (seeding_invariant metric team nTrials callback data nFrames dim k tracked g w).
  - destruct (first_center_started metric callback data nFrames dim k Hdata HN Hk g w)
      as (st & Hfirst & [Hix _ Hcs Hd _ _] & Hshaped).
    exists st. split; [done|]. split; [done|].
    exists [fst (uniform (nFrames - 1) g)].
    split; [done|]. split; [by constructor|]. split; [|done].
    intros j i Hj. destruct j as [|j]; [|done]. injection Hj as <-.
    rewrite Hcs. unfold row at 1. simpl. rewrite drop_0. apply take_app_length'.
    symmetry. apply length_row. by eapply row_in_bounds.
  - intros c st Hc [Hshaped (ids & Hlen & Hlt & Hrows & Hdists)].
    destruct (round_stepped metric team nTrials callback data nFrames dim k
                Hdata HN HT (S c) st Hshaped Hc)
      as (s & id & st' & _ & Hs & Hround & Hstep & Hshaped').
    exists st'. split; [done|]. split; [done|].
    destruct (stepped_tracked c st s id st' ids Hshaped Hc Hs Hstep Hlen Hrows Hdists)
      as [Hrows' Hdists'].
    exists (id :: ids).
    split; [simpl; lia|]. split; [|done].
    constructor; [|done]. by destruct Hstep.
Qed.

End Min_distances.

(** ** What the entry checks reject *)

Section Rejections.
Context {F G : Type} `{Numeric F} `{Generator F G}.

Lemma rejects_too_many_centers (USE_OPENMP : bool) (data : np_array F) (k : nat)
    (metric : Metric F) (seed n_threads : Z) callback entropy (N : nat) :
  shape data !! 0 = Some N -> N < k ->
  initKmeansPlusPlus USE_OPENMP data k metric seed n_threads callback entropy
  = Thrown (invalid_argument (not_enough_data N k)) [].
Proof.
  intros Hshape Hk. unfold initKmeansPlusPlus. rewrite Hshape. by rewrite decide_True.
Qed.

Lemma rejects_other_dimensions (USE_OPENMP : bool) (data : np_array F) (k : nat)
    (metric : Metric F) (seed n_threads : Z) callback entropy (N : nat) :
  shape data !! 0 = Some N -> k <= N -> ndim data <> 2 ->
  initKmeansPlusPlus USE_OPENMP data k metric seed n_threads callback entropy
  = Thrown (invalid_argument not_two_dimensions) (world_of USE_OPENMP n_threads).
Proof.
  intros Hshape Hk Hnd. unfold initKmeansPlusPlus. rewrite Hshape.
  rewrite decide_False by lia. by rewrite decide_True.
Qed.

End Rejections.

(** * The claims *)

Section Claims.
Context {F G : Type} `{Numeric F} `{Generator F G}.

(** C1. For every two-dimensional data set of [N] points in [D] dimensions,
    every [k] with [N >= k >= 1] and any seed, [initKmeansPlusPlus] returns
    a center array of exactly [k] rows and [D] columns, and every row of it
    is, element for element, a row of the data. *)
Theorem seed_returns_rows_of_data `{!GeneratorLaws F G}
    (USE_OPENMP : bool) (data : np_array F) (k : nat) (metric : Metric F)
    (seed n_threads : Z) (callback : option (nat -> answer)) (entropy : Z) (N D : nat) :
  shape data = [N; D] -> length (buf data) = N * D -> 1 <= k <= N ->
  exists c st,
    initKmeansPlusPlus USE_OPENMP data k metric seed n_threads callback entropy
    = Returned (c, st)
    /\ shape c = [k; D] /\ length (buf c) = k * D
    /\ forall j, j < k -> exists i, i < N /\ row D (buf c) j = row D (buf data) i.
Proof.
  intros Hshape Hlen Hk.
  rewrite (initKmeansPlusPlus_valid _ _ _ _ _ _ _ _ N D Hshape Hk).
  pose proof (nTrials_ge_2 k ltac:(lia)) as HT. unfold after_center.
  destruct (seeding_after_chosen metric (team_of USE_OPENMP n_threads) (nTrials k)
              callback (buf data) N D k Hlen ltac:(lia) ltac:(lia) ltac:(lia)
              (generator_of seed entropy) (world_of USE_OPENMP n_threads) (k - 1)
              ltac:(lia))
    as (st & Hafter & [_ _ Hcs] & Hrows).
  rewrite Hafter. simpl. eexists _, st. split; [reflexivity|]. simpl.
  split; [done|]. split; [done|].
  intros j Hj. apply Hrows. lia.
Qed.





(** C7, as amended.  The callback, when there is one, is called exactly
    once after each chosen center, [k] times in a complete run; the value it
    returns is dropped, so the run chooses all [k] centers and returns the
    centers of the run without a callback. *)
Theorem progress_once_per_center `{!GeneratorLaws F G}
    (USE_OPENMP : bool) (data : np_array F) (k : nat) (metric : Metric F)
    (seed n_threads : Z) (callback : option (nat -> answer)) (entropy : Z) (N D : nat) :
  shape data = [N; D] -> length (buf data) = N * D -> 1 <= k <= N ->
  exists c st st0,
    initKmeansPlusPlus USE_OPENMP data k metric seed n_threads callback entropy
    = Returned (c, st)
    /\ world st = world_of USE_OPENMP n_threads ++ callback_events callback k
    /\ length (callback_events callback k)
       = match callback with Some _ => k | None => 0 end
    /\ initKmeansPlusPlus USE_OPENMP data k metric seed n_threads None entropy
       = Returned (c, st0)
    /\ shape c = [k; D].
Proof.
  intros Hshape Hlen Hk.
  pose proof (nTrials_ge_2 k ltac:(lia)) as HT.
  rewrite !(initKmeansPlusPlus_valid _ _ _ _ _ _ _ _ N D Hshape Hk).
  unfold after_center.
  pose proof (seeding_after_agree metric (nTrials k) (buf data) N D k
                (team_of USE_OPENMP n_threads) (team_of USE_OPENMP n_threads)
                callback None (fun l => eq_refl) (generator_of seed entropy)
                (world_of USE_OPENMP n_threads) (world_of USE_OPENMP n_threads)
                (k - 1)) as Hagree.
  destruct (seeding_after_traced metric (team_of USE_OPENMP n_threads) (nTrials k)
              callback (buf data) N D k Hlen ltac:(lia) ltac:(lia) ltac:(lia)
              (generator_of seed entropy) (world_of USE_OPENMP n_threads) (k - 1)
              ltac:(lia))
    as (st & Hafter & [_ _ Hw]).
  destruct (seeding_after_traced metric (team_of USE_OPENMP n_threads) (nTrials k)
              None (buf data) N D k Hlen ltac:(lia) ltac:(lia) ltac:(lia)
              (generator_of seed entropy) (world_of USE_OPENMP n_threads) (k - 1)
              ltac:(lia))
    as (st0 & Hafter0 & _).
  rewrite Hafter, Hafter0 in Hagree. destruct Hagree as (_ & _ & _ & _ & Hcs).
  rewrite Hafter, Hafter0. simpl.
  exists (NpArray [k; D] (centers st)), st, st0.
  split; [done|]. split; [by replace (S (k - 1)) with k in Hw by lia|].
  split; [|by rewrite Hcs].
  unfold callback_events. destruct callback; [|done].
  by rewrite length_fmap, length_seq.
Qed.

(** C9. The cost overload without assignments returns what the overload
    with assignments returns on the assignments that
    [assign_chunk_to_centers] produces for the same data, centers, metric
    and thread count. *)
Theorem cost_overloads_agree
    (assign : np_array F -> np_array F -> Z -> Metric F -> outcome (np_array nat))
    (cost_with : np_array F -> np_array F -> Metric F -> np_array nat -> Z -> outcome F)
    (np_data np_centers : np_array F) (metric : Metric F) (n_threads : Z)
    (assignments : np_array nat) :
  assign np_data np_centers n_threads metric = Returned assignments ->
  costFunction assign cost_with np_data np_centers metric n_threads
  = cost_with np_data np_centers metric assignments n_threads.
Proof. intros Hassign. unfold costFunction. by rewrite Hassign. Qed.


End Claims.

Lemma seed_returns_rows_of_data_witness :
  exists c st,
    initKmeansPlusPlus false line3 2 sq_euclid_Q 83 1 None 0 = Returned (c, st)
    /\ shape c = [2; 1] /\ length (buf c) = 2 * 1
    /\ forall j, j < 2 -> exists i, i < 3 /\ row 1 (buf c) j = row 1 (buf line3) i.
Proof.
  apply (seed_returns_rows_of_data false line3 2 sq_euclid_Q 83 1 None 0 3 1);
    [reflexivity|reflexivity|lia].
Defined.

Lemma sq_euclid_Q_nonneg : metric_nonneg sq_euclid_Q.
Proof.
  intros a b.
  change (nonneg (seq_sum (zip_with (fun x y => (x - y) * (x - y))%Q a b))).
  apply seq_sum_nonneg.
  revert b. induction a as [|x a IH]; intros [|y b]; simpl; try constructor; [|apply IH].
  unfold nonneg. rewrite Q_fle_iff.
  destruct (x - y)%Q as [n d]. unfold Qle, Qmult. simpl. nia.
Qed.




(** The running total in binary64 and a build with OpenMP.  The first
    center is frame 0 and both draws of the first round are zero, so the
    round chooses frame 0 again and leaves every per-frame potential as it
    was.  [std::partial_sum] had added them to 2^54; the reduction over two
    threads adds 2^54 and 4.125 and gets 2^54 + 4.  With one thread the
    running total stays at 2^54. *)
Remark running_total_first_round :
  (exists st st',
     after_center true far6 2 sq_euclid_float 0 2 None 0 6 1 0 = Returned st
     /\ after_center true far6 2 sq_euclid_float 0 2 None 0 6 1 1 = Returned st'
     /\ distances st' = distances st
     /\ currentPotential st = 18014398509481984%float
     /\ currentPotential st' = 18014398509481988%float)
  /\ (exists st st',
        after_center true far6 2 sq_euclid_float 0 1 None 0 6 1 0 = Returned st
        /\ after_center true far6 2 sq_euclid_float 0 1 None 0 6 1 1 = Returned st'
        /\ currentPotential st = 18014398509481984%float
        /\ currentPotential st' = 18014398509481984%float).
Proof.
  split; unfold after_center; rewrite nTrials_2; vm_compute; eexists _, _;
    repeat split; reflexivity.
Qed.



(** C6, at the failing input.  [k = 0] passes both checks and reaches the
    conversion of minus infinity on line 98; and in a build with OpenMP a
    one-dimensional array is rejected only after [omp_set_num_threads]. *)
Lemma zero_centers_not_rejected :
  initKmeansPlusPlus false line3 0 sq_euclid_Q 0 1 None 0 = Undefined
  /\ initKmeansPlusPlus true flat3 2 sq_euclid_Q 0 4 None 0
     = Thrown (invalid_argument not_two_dimensions) [omp_set_num_threads 4].
Proof. split; reflexivity. Qed.

Lemma progress_once_per_center_witness :
  exists c st,
    initKmeansPlusPlus false line3 2 sq_euclid_Q 83 1 (Some (fun _ => Continue)) 0
    = Returned (c, st)
    /\ world st = [callback_called 0 Continue; callback_called 1 Continue].
Proof.
  destruct (progress_once_per_center false line3 2 sq_euclid_Q 83 1
              (Some (fun _ => Continue)) 0 3 1)
    as (c & st & st0 & Hrun & Hw & _); [reflexivity|reflexivity|lia|].
  by exists c, st.
Defined.

(** C7, the counterexample.  The callback asks to cancel at its first call,
    after center 0; the run goes on, chooses center 1 and calls it again. *)
Lemma cancellation_is_ignored :
  exists st,
    initKmeansPlusPlus false line3 2 sq_euclid_Q 83 1 (Some (fun _ => Cancel)) 0
    = Returned (NpArray [2; 1] [0%Q; 3%Q], st)
    /\ world st = [callback_called 0 Cancel; callback_called 1 Cancel].
Proof.
  rewrite (initKmeansPlusPlus_valid _ _ _ _ _ _ _ _ 3 1) by (done || lia).
  unfold after_center. rewrite nTrials_2. vm_compute. eexists. split; reflexivity.
Qed.

Lemma cost_overloads_agree_witness :
  costFunction assign_chunk_to_centers costFunction_assigned
    line3 (NpArray [2; 1] [0%Q; 3%Q]) sq_euclid_Q 1
  = costFunction_assigned line3 (NpArray [2; 1] [0%Q; 3%Q]) sq_euclid_Q
      (NpArray [3] [0; 0; 1]) 1.
Proof.
  apply (cost_overloads_agree assign_chunk_to_centers costFunction_assigned
           line3 (NpArray [2; 1] [0%Q; 3%Q]) sq_euclid_Q 1 (NpArray [3] [0; 0; 1])).
  reflexivity.
Defined.



(** The generator with odd draws is lawful and never draws zero. *)
Lemma odd_tape_Q_laws : @GeneratorLaws Q odd_tape Q_numeric odd_tape_Q.
Proof.
  split.
  - intros hi [[|d g]]; simpl; [lia|].
    pose proof (Nat.mod_upper_bound d (hi + 1)). lia.
  - intros [g].
    change (@uniformReal Q odd_tape odd_tape_Q (OddTape g))
      with (let '(d, g') := tape_next g in
            (Z.of_nat (2 * (d mod 4) + 1) # 8, OddTape g')).
    destruct (tape_next g) as [d g']. cbn [fst].
    pose proof (Nat.mod_upper_bound d 4 ltac:(lia)) as Hd.
    split.
    + rewrite Q_fle_iff. unfold Qle. simpl. lia.
    + rewrite Q_flt. unfold Qlt. simpl. lia.
Qed.

Lemma odd_tape_Q_positive (g : odd_tape) :
  flt 0%Q (fst (@uniformReal Q odd_tape odd_tape_Q g)) = true.
Proof.
  destruct g as [g].
  change (@uniformReal Q odd_tape odd_tape_Q (OddTape g))
    with (let '(d, g') := tape_next g in
          (Z.of_nat (2 * (d mod 4) + 1) # 8, OddTape g')).
  destruct (tape_next g) as [d g']. cbn [fst].
  rewrite Q_flt. unfold Qlt. simpl. lia.
Qed.



(** * Further properties of the seeding *)

Section Seeding_facts.
Context {F G : Type} `{Numeric F} `{Generator F G}.

(** ** The outcomes of a call *)

Lemma returned_not_thrown {A} (a : A) e w : Returned a <> Thrown e w.
Proof. done. Qed.

(** X1. The outcomes of a call with [k >= 1] on an array with a first axis
    of [N] frames.  More centers than frames are rejected first, whatever the
    number of dimensions, and before [omp_set_num_threads]; with [k <= N] an
    array that is not two-dimensional is rejected after it; and the call
    returns exactly when [k <= N] and the array is two-dimensional. *)
Theorem seed_outcomes `{!GeneratorLaws F G}
    (USE_OPENMP : bool) (data : np_array F) (k : nat) (metric : Metric F)
    (seed n_threads : Z) (callback : option (nat -> answer)) (entropy : Z) (N : nat) :
  shape data !! 0 = Some N ->
  (forall D, shape data = [N; D] -> length (buf data) = N * D) ->
  1 <= k ->
  (N < k ->
   initKmeansPlusPlus USE_OPENMP data k metric seed n_threads callback entropy
   = Thrown (invalid_argument (not_enough_data N k)) [])
  /\ (k <= N -> ndim data <> 2 ->
      initKmeansPlusPlus USE_OPENMP data k metric seed n_threads callback entropy
      = Thrown (invalid_argument not_two_dimensions) (world_of USE_OPENMP n_threads))
  /\ ((exists c st,
         initKmeansPlusPlus USE_OPENMP data k metric seed n_threads callback entropy
         = Returned (c, st))
      <-> k <= N /\ ndim data = 2).
Proof.
  intros Hshape Hwf Hk.
  split; [by apply rejects_too_many_centers|].
  split; [by apply rejects_other_dimensions|].
  split.
  - intros (c & st & Hrun).
    destruct (decide (N < k)) as [Hlt|Hge].
    { by rewrite (rejects_too_many_centers _ _ _ _ _ _ _ _ N Hshape Hlt) in Hrun. }
    destruct (decide (ndim data = 2)) as [Hnd|Hnd]; [split; [lia|done]|].
    assert (HkN : k <= N) by lia.
    by rewrite (rejects_other_dimensions _ _ _ _ _ _ _ _ N Hshape HkN Hnd) in Hrun.
  - intros [HkN Hnd].
    unfold ndim in Hnd.
    destruct (shape data) as [|n [|D [|? ?]]] eqn:Hs; try done.
    injection Hshape as ->.
    pose proof (Hwf D eq_refl) as Hlen.
    assert (Hk1 : 1 <= k <= N) by lia.
    rewrite (initKmeansPlusPlus_valid _ _ _ _ _ _ _ _ N D Hs Hk1).
    pose proof (nTrials_ge_2 k ltac:(lia)) as HT. unfold after_center.
    destruct (seeding_after_shaped metric (team_of USE_OPENMP n_threads) (nTrials k)
                callback (buf data) N D k Hlen ltac:(lia) ltac:(lia) ltac:(lia)
                (generator_of seed entropy) (world_of USE_OPENMP n_threads) (k - 1)
                ltac:(lia))
      as (st & Hafter & _).
    rewrite Hafter. simpl. by eexists _, _.
Qed.

(** ** The first center *)

Lemma seeding_after_first_row `{!GeneratorLaws F G}
    (metric : Metric F) (team : option nat) (nTrials : nat)
    (callback : option (nat -> answer)) (data : list F) (nFrames dim k : nat)
    (g : G) (w : list event) (c : nat) :
  length data = nFrames * dim -> 0 < nFrames -> 0 < nTrials -> c < k ->
  exists st,
    seeding_after metric team nTrials callback data nFrames dim k g w c = Returned st
    /\ shaped nFrames dim k st
    /\ row dim (centers st) 0 = row dim data (fst (uniform (nFrames - 1) g)).
Proof.
  intros Hdata HN HT Hc.
  assert (Hk : 0 < k) by lia.
  revert c Hc.
  apply (seeding_invariant metric team nTrials callback data nFrames dim k
           (fun _ st => shaped nFrames dim k st
                        /\ row dim (centers st) 0
                           = row dim data (fst (uniform (nFrames - 1) g))) g w).
  - destruct (first_center_started metric callback data nFrames dim k Hdata HN Hk g w)
      as (st & Hfirst & [Hix _ Hcs _ _ _] & Hshaped).
    exists st. split; [done|]. split; [done|].
    rewrite Hcs. unfold row at 1. simpl. rewrite drop_0. apply take_app_length'.
    symmetry. apply length_row. by eapply row_in_bounds.
  - intros c st Hc [Hshaped Hrow].
    destruct (round_stepped metric team nTrials callback data nFrames dim k
                Hdata HN HT (S c) st Hshaped Hc)
      as (s & id & st' & _ & _ & Hround & [_ _ _ _ _ _ Hcs _] & Hshaped').
    exists st'. split; [done|]. split; [done|].
    rewrite Hcs, <- Hrow. apply row_assigned_before; [|lia].
    destruct Hshaped as [_ _ Hcl].
    pose proof (row_in_bounds dim (centers st) (S c) k Hcl Hc). lia.
Qed.

(** X2. The first center is the frame at the index that the generator draws
    first; for [k = 1] it is the whole result, and the generator has made
    this one draw and no other. *)
Theorem first_center_is_the_drawn_frame `{!GeneratorLaws F G}
    (USE_OPENMP : bool) (data : np_array F) (k : nat) (metric : Metric F)
    (seed n_threads : Z) (callback : option (nat -> answer)) (entropy : Z) (N D : nat) :
  shape data = [N; D] -> length (buf data) = N * D -> 1 <= k <= N ->
  exists c st,
    initKmeansPlusPlus USE_OPENMP data k metric seed n_threads callback entropy
    = Returned (c, st)
    /\ row D (buf c) 0
       = row D (buf data) (fst (uniform (N - 1) (generator_of seed entropy)))
    /\ (k = 1 ->
        buf c = row D (buf data) (fst (uniform (N - 1) (generator_of seed entropy)))
        /\ generator st = snd (uniform (N - 1) (generator_of seed entropy))).
Proof.
  intros Hshape Hlen Hk.
  rewrite (initKmeansPlusPlus_valid _ _ _ _ _ _ _ _ N D Hshape Hk).
  pose proof (nTrials_ge_2 k ltac:(lia)) as HT. unfold after_center.
  assert (HN : 0 < N) by lia. assert (HT0 : 0 < nTrials k) by lia.
  assert (Hc : k - 1 < k) by lia.
  destruct (seeding_after_first_row metric (team_of USE_OPENMP n_threads) (nTrials k)
              callback (buf data) N D k (generator_of seed entropy)
              (world_of USE_OPENMP n_threads) (k - 1) Hlen HN HT0 Hc)
    as (st & Hafter & Hshaped & Hrow).
  rewrite Hafter. simpl. eexists _, st. split; [reflexivity|]. simpl.
  split; [done|].
  intros ->. simpl in Hafter. unfold seeding_after in Hafter. simpl in Hafter.
  destruct (first_center_started metric callback (buf data) N D 1 Hlen HN ltac:(lia)
              (generator_of seed entropy) (world_of USE_OPENMP n_threads))
    as (st0 & Hfirst & [Hix Hg Hcs _ _ _] & _).
  rewrite Hfirst in Hafter. simpl in Hafter. injection Hafter as <-.
  split; [|done].
  rewrite Hcs, Nat.mul_1_l, drop_replicate, Nat.sub_diag. simpl. by rewrite app_nil_r.
Qed.

(** ** The prefix sums *)

(** X3. After every center the prefix sums have one entry per frame, start
    with the potential of frame 0, add the potential of the next frame from
    one entry to the next, are ascending and non-negative, and end in the
    sequential sum of the potentials; that last entry is the current
    potential after the first center, and after every center in a build
    without OpenMP or with an associative addition. *)
Theorem prefix_sums_invariant `{!OrderLaws F} `{!AddLaws F} `{!GeneratorLaws F G}
    (USE_OPENMP : bool) (data : np_array F) (k : nat) (metric : Metric F)
    (seed n_threads : Z) (callback : option (nat -> answer)) (entropy : Z)
    (N D c : nat) :
  shape data = [N; D] -> length (buf data) = N * D -> 1 <= k <= N ->
  metric_nonneg metric -> c < k ->
  exists st,
    after_center USE_OPENMP data k metric seed n_threads callback entropy N D c
    = Returned st
    /\ length (distancesCumsum st) = N
    /\ distancesCumsum st !! 0 = distances st !! 0
    /\ (forall j a x, distancesCumsum st !! j = Some a -> distances st !! S j = Some x ->
          distancesCumsum st !! S j = Some (fadd a x))
    /\ ascending (distancesCumsum st)
    /\ Forall nonneg (distancesCumsum st)
    /\ last (distancesCumsum st) = Some (seq_sum (distances st))
    /\ (c = 0 \/ USE_OPENMP = false \/ AssocLaws F ->
        last (distancesCumsum st) = Some (currentPotential st)).
Proof.
  intros Hshape Hlen Hk Hmetric Hc.
  pose proof (nTrials_ge_2 k ltac:(lia)) as HT. unfold after_center.
  assert (HN : 0 < N) by lia. assert (HT0 : 0 < nTrials k) by lia.
  assert (Hk0 : 0 < k) by lia.
  destruct (seeding_after_potential metric (team_of USE_OPENMP n_threads) (nTrials k)
              callback (buf data) N D k Hlen HN HT0 Hk0 Hmetric
              (generator_of seed entropy) (world_of USE_OPENMP n_threads) c Hc)
    as (st & Hafter & [[Hdl Hcum _] Hnn Htot]).
  exists st. split; [done|].
  assert (Hne : distances st <> []).
  { intros Hnil. rewrite Hnil in Hdl. simpl in Hdl. lia. }
  assert (Hlast : last (distancesCumsum st) = Some (seq_sum (distances st))).
  { rewrite Hcum. by apply last_partial_sum. }
  split; [by rewrite Hcum, length_partial_sum|].
  split; [rewrite Hcum; apply partial_sum_lookup_0|].
  split; [rewrite Hcum; apply partial_sum_lookup_S|].
  split; [rewrite Hcum; by apply partial_sum_ascending|].
  split; [rewrite Hcum; by apply partial_sum_nonneg|].
  split; [done|].
  intros Hsame. rewrite Hlast, Htot. f_equal.
  destruct Hsame as [->|[->|Hassoc]].
  - by rewrite decide_True.
  - by case_decide.
  - case_decide; [done|]. by rewrite reduce_sum_team_of.
Qed.

(** ** The candidates of a round *)


(** X5. With exact products, and sums that do not depend on the order of
    summation (always so in the first round), no trial value is above the
    current potential and every candidate is found by the search: the clamp
    to the last frame on lines 159-161 is never taken. *)
Theorem search_never_clamps
    `{!OrderLaws F} `{!AddLaws F} `{!MulLaws F} `{!GeneratorLaws F G}
    (USE_OPENMP : bool) (data : np_array F) (k : nat) (metric : Metric F)
    (seed n_threads : Z) (callback : option (nat -> answer)) (entropy : Z)
    (N D c : nat) :
  shape data = [N; D] -> length (buf data) = N * D -> 1 <= k <= N ->
  metric_nonneg metric -> 1 <= c < k ->
  c = 1 \/ USE_OPENMP = false \/ AssocLaws F ->
  exists st s,
    after_center USE_OPENMP data k metric seed n_threads callback entropy N D (c - 1)
    = Returned st
    /\ select metric (team_of USE_OPENMP n_threads) (nTrials k) (buf data) N D st
       = Returned s
    /\ forall i t id,
         trialValues s !! i = Some t -> candidatesIds s !! i = Some id ->
         fle t (currentPotential st) = true
         /\ exists x, distancesCumsum st !! id = Some x /\ fle t x = true
                      /\ forall j y, j < id -> distancesCumsum st !! j = Some y ->
                                     flt y t = true.
Proof.
  intros Hshape Hlen Hk Hmetric Hc Hsame.
  pose proof (nTrials_ge_2 k ltac:(lia)) as HT.
  destruct c as [|c]; [lia|]. replace (S c - 1) with c by lia.
  assert (HN : 0 < N) by lia. assert (HT0 : 0 < nTrials k) by lia.
  assert (Hk0 : 0 < k) by lia. assert (Hck : S c < k) by lia.
  destruct (every_round metric (team_of USE_OPENMP n_threads) (nTrials k) callback
              (buf data) N D k Hlen HN HT0 Hk0 Hmetric
              (generator_of seed entropy) (world_of USE_OPENMP n_threads) c Hck)
    as (st & s & _ & _ & Hafter & Hinv & Hsel & Hs & _).
  exists st, s. split; [done|]. split; [done|].
  destruct (selected_inverse_cdf metric (team_of USE_OPENMP n_threads) (nTrials k)
              (buf data) N D k c st s Hinv Hs) as (_ & _ & Hids).
  pose proof (sel_trials Hs) as Htr. rewrite generate_draws in Htr. simpl in Htr.
  destruct Hinv as [[Hdl Hcum _] Hnn Htot].
  assert (Hne : distances st <> []).
  { intros Hnil. rewrite Hnil in Hdl. simpl in Hdl. lia. }
  assert (Hp : currentPotential st = seq_sum (distances st)).
  { rewrite Htot. destruct Hsame as [Hc1|[->|Hassoc]].
    - rewrite decide_True by lia. done.
    - by case_decide.
    - case_decide; [done|]. by rewrite reduce_sum_team_of. }
  assert (Hlast : last (distancesCumsum st) = Some (currentPotential st)).
  { rewrite Hcum, Hp. by apply last_partial_sum. }
  assert (Hpn : nonneg (currentPotential st)).
  { rewrite Hp. by apply seq_sum_nonneg. }
  assert (Hcl : length (distancesCumsum st) = N).
  { by rewrite Hcum, length_partial_sum. }
  intros i t id Ht Hid.
  assert (Hle : fle t (currentPotential st) = true).
  { assert (Hin : t ∈ map (fmul (currentPotential st))
                      (fst (@draws F G _ (nTrials k) (generator st)))).
    { rewrite <- std_sort_perm, <- Htr. by eapply list_elem_of_lookup_2. }
    apply list_elem_of_fmap in Hin as (u & -> & Hu).
    pose proof (draws_unit (nTrials k) (generator st)) as Hall.
    rewrite Forall_forall in Hall. destruct (Hall u Hu) as [Hu0 Hu1].
    destruct (flt fzero (currentPotential st)) eqn:Hpos.
    - apply flt_fle. by apply fmul_unit.
    - eapply fle_trans; [|exact Hpn].
      apply fmul_nonpos_l; [by apply not_flt_fle|done]. }
  split; [done|].
  rewrite Hids, list_lookup_fmap, Ht in Hid. injection Hid as <-.
  destruct (inverse_cdf_spec (distancesCumsum st) N t Hcl HN) as [_ [Hfound|[_ Hall]]];
    [done|].
  rewrite last_lookup in Hlast. apply Hall in Hlast.
  unfold fle in Hle. by rewrite Hlast in Hle.
Qed.

(** ** The potentials as minima *)

Lemma std_min_cases (a b : F) : std_min a b = a \/ std_min a b = b.
Proof. unfold std_min. destruct (flt b a); auto. Qed.

Lemma min_dists_spec `{!OrderLaws F} (metric : Metric F) (data : list F)
    (nFrames dim : nat) (ids : list nat) (r : nat) (x : F) :
  min_dists metric data nFrames dim ids !! r = Some x ->
  (forall i, i ∈ ids -> fle x (metric (row dim data i) (row dim data r)) = true)
  /\ exists i, i ∈ ids /\ x = metric (row dim data i) (row dim data r).
Proof.
  revert x. induction ids as [|i [|i' rest] IH]; intros x Hx.
  - done.
  - simpl in Hx. apply dists_to_lookup in Hx as [_ ->]. split.
    + intros i0 ->%list_elem_of_singleton. apply fle_refl.
    + exists i. split; [apply list_elem_of_here|done].
  - change (zip_with std_min (dists_to metric data nFrames dim i)
              (min_dists metric data nFrames dim (i' :: rest)) !! r = Some x) in Hx.
    apply lookup_zip_with_Some in Hx as (a & b & -> & Ha & Hb).
    apply dists_to_lookup in Ha as [_ ->].
    destruct (IH b Hb) as [Hall (i0 & Hi0 & Hb0)]. split.
    + intros j [->|Hj]%elem_of_cons.
      * apply std_min_le_l.
      * eapply fle_trans; [apply std_min_le_r|by apply Hall].
    + destruct (std_min_cases (metric (row dim data i) (row dim data r)) b) as [->| ->].
      * exists i. split; [apply list_elem_of_here|done].
      * exists i0. split; [by apply list_elem_of_further|done].
Qed.

(** X6. After center [c] the potential of every frame is at most its
    distance to each of the centers [0 .. c], and is its distance to one of
    them. *)
Theorem potentials_are_minimal_distances `{!OrderLaws F} `{!GeneratorLaws F G}
    (USE_OPENMP : bool) (data : np_array F) (k : nat) (metric : Metric F)
    (seed n_threads : Z) (callback : option (nat -> answer)) (entropy : Z)
    (N D c : nat) :
  shape data = [N; D] -> length (buf data) = N * D -> 1 <= k <= N -> c < k ->
  exists st,
    after_center USE_OPENMP data k metric seed n_threads callback entropy N D c
    = Returned st
    /\ length (distances st) = N
    /\ forall r x, distances st !! r = Some x ->
         (forall j, j <= c ->
            fle x (metric (row D (centers st) j) (row D (buf data) r)) = true)
         /\ exists j, j <= c /\ x = metric (row D (centers st) j) (row D (buf data) r).
Proof.
  intros Hshape Hlen Hk Hc.
  pose proof (nTrials_ge_2 k ltac:(lia)) as HT. unfold after_center.
  assert (HN : 0 < N) by lia. assert (HT0 : 0 < nTrials k) by lia.
  assert (Hk0 : 0 < k) by lia.
  destruct (seeding_after_tracked metric (team_of USE_OPENMP n_threads) (nTrials k)
              callback (buf data) N D k Hlen HN HT0 Hk0
              (generator_of seed entropy) (world_of USE_OPENMP n_threads) c Hc)
    as (st & Hafter & [Hdl _ _] & ids & Hidl & _ & Hrows & Hmin).
  exists st. split; [done|]. split; [done|].
  intros r x Hx. rewrite Hmin in Hx.
  destruct (min_dists_spec metric (buf data) N D ids r x Hx) as [Hall (i & Hi & ->)].
  split.
  - intros j Hj.
    destruct (lookup_lt_is_Some_2 (reverse ids) j) as [i' Hi'].
    { rewrite length_reverse. lia. }
    rewrite (Hrows j i' Hi'). apply Hall.
    apply elem_of_reverse. by eapply list_elem_of_lookup_2.
  - apply elem_of_reverse, list_elem_of_lookup_1 in Hi as [j Hj].
    exists j. split.
    + apply lookup_lt_Some in Hj. rewrite length_reverse in Hj. lia.
    + by rewrite (Hrows j i Hj).
Qed.

(** ** Different centers *)


End Seeding_facts.

(** ** [util::assignCenter] *)

(** X8. [assignCenter] copies the [dim] coordinates of the frame into the
    slot it is given and changes nothing else: the buffer keeps its length
    and every other slot keeps its content. *)
Theorem assignCenter_frame {F : Type} (frameIndex dim : nat) (data centers : list F)
    (n c k : nat) :
  length data = n * dim -> length centers = k * dim -> frameIndex < n -> c < k ->
  exists centers',
    assignCenter frameIndex dim data centers (c * dim) = Some centers'
    /\ length centers' = length centers
    /\ row dim centers' c = row dim data frameIndex
    /\ forall j, j < k -> j <> c -> row dim centers' j = row dim centers j.
Proof.
  intros Hdata Hcs Hi Hc.
  rewrite (assignCenter_Some frameIndex dim data centers n c k) by done.
  assert (Hrl : length (row dim data frameIndex) = dim).
  { apply length_row. by eapply row_in_bounds. }
  eexists. split; [reflexivity|].
  split; [rewrite Hcs; by apply length_assigned|].
  split; [by apply (row_assigned_same dim centers _ c k)|].
  intros j Hj Hne.
  pose proof (row_in_bounds dim centers c k Hcs Hc) as Hb.
  destruct (decide (j < c)) as [Hlt|Hge].
  - apply row_assigned_before; [lia|done].
  - apply row_assigned_after; [done|done|lia].
Qed.

(** * Properties of the output models *)

Section Loops.
Context {S A : Type}.

Lemma for_each_app (body : S -> A -> option S) (xs ys : list A) (s : S) :
  output_models.for_each body (xs ++ ys) s
  = output_models.for_each body xs s ≫= output_models.for_each body ys.
Proof.
  revert s. induction xs as [|x xs IH]; intros s; simpl; [done|].
  destruct (body s x) as [s'|]; simpl; [apply IH|done].
Qed.

Lemma for_each_result_app (body : S -> A -> output_models.result S)
    (xs ys : list A) (s : S) :
  output_models.for_each_result body (xs ++ ys) s
  = output_models.for_each_result body xs s ≫= output_models.for_each_result body ys.
Proof.
  revert s. induction xs as [|x xs IH]; intros s; simpl; [done|].
  destruct (body s x) as [s'| |]; simpl; [apply IH|done|done].
Qed.

End Loops.

Lemma rows_determine {A} (dim n : nat) (b b' : list A) :
  length b = n * dim -> length b' = n * dim ->
  (forall t, t < n -> row dim b t = row dim b' t) -> b = b'.
Proof.
  revert b b'. induction n as [|n IH]; intros b b' Hb Hb' Hrows.
  - destruct b, b'; done.
  - rewrite <- (take_drop dim b), <- (take_drop dim b').
    f_equal.
    + pose proof (Hrows 0 ltac:(lia)) as H0. unfold row in H0. simpl in H0.
      by rewrite !drop_0 in H0.
    + apply IH.
      * rewrite length_drop. lia.
      * rewrite length_drop. lia.
      * intros t Ht. pose proof (Hrows (S t) ltac:(lia)) as Ht'.
        unfold row in *. rewrite !drop_drop.
        replace (dim + t * dim) with (S t * dim) by lia. done.
Qed.

Section Outliers.
Context {F : Type} `{Numeric F} `{Equality F}.

Lemma for_each_fill_outlier (nStates nTimesteps : nat) (b : list F) (n : nat) :
  length b = nTimesteps * nStates -> n <= nTimesteps ->
  exists b',
    output_models.for_each (output_models.fill_outlier nStates) (seq 0 n) b = Some b'
    /\ length b' = nTimesteps * nStates
    /\ (forall t, t < n -> row nStates b' t = without_outlier nStates (row nStates b t))
    /\ (forall t, n <= t -> row nStates b' t = row nStates b t).
Proof.
  intros Hb. induction n as [|n IH]; intros Hn.
  - exists b. split; [done|]. split; [done|]. split; [intros; lia|done].
  - destruct IH as (b1 & Hloop & Hlen & Hdone & Hrest); [lia|].
    rewrite seq_S, for_each_app, Hloop. simpl.
    unfold output_models.fill_outlier.
    rewrite (read_row_Some nStates b1 n nTimesteps) by (done || lia). simpl.
    rewrite (Hrest n) by lia.
    assert (Hw : without_outlier nStates (row nStates b n)
                 = if feq (seq_sum (row nStates b n)) fzero
                   then replicate nStates fone else row nStates b n) by done.
    pose proof (row_in_bounds nStates b1 n nTimesteps Hlen ltac:(lia)) as Hbound.
    destruct (feq (seq_sum (row nStates b n)) fzero) eqn:Hsum.
    + rewrite write_at_Some by (rewrite length_replicate; lia).
      rewrite length_replicate. eexists. split; [reflexivity|].
      split; [apply length_assigned; [done|apply length_replicate|lia]|].
      split.
      * intros t Ht. destruct (decide (t = n)) as [->|Hne].
        -- rewrite Hw.
           apply (row_assigned_same nStates b1 _ n nTimesteps);
             [done|apply length_replicate|lia].
        -- rewrite row_assigned_before by lia. apply Hdone. lia.
      * intros t Ht. rewrite row_assigned_after; [|done|apply length_replicate|lia].
        apply Hrest. lia.
    + exists b1. split; [done|]. split; [done|]. split.
      * intros t Ht. destruct (decide (t = n)) as [->|Hne].
        -- rewrite Hw. apply Hrest. lia.
        -- apply Hdone. lia.
      * intros t Ht. apply Hrest. lia.
Qed.

(** X9. On a [T x S] trajectory [handleOutliers] keeps the shape, replaces
    every row whose sum compares equal to zero by ones, and leaves every
    other row as it was. *)
Theorem handleOutliers_rows (a : np_array F) (nTimesteps nStates : nat) :
  shape a = [nTimesteps; nStates] -> length (buf a) = nTimesteps * nStates ->
  exists b,
    output_models.handleOutliers a = output_models.Returned (NpArray (shape a) b)
    /\ length b = length (buf a)
    /\ forall t, t < nTimesteps ->
         row nStates b t
         = if feq (seq_sum (row nStates (buf a) t)) fzero
           then replicate nStates fone
           else row nStates (buf a) t.
Proof.
  intros Hshape Hlen.
  destruct (for_each_fill_outlier nStates nTimesteps (buf a) nTimesteps Hlen ltac:(lia))
    as (b & Hloop & Hbl & Hrows & _).
  exists b. unfold output_models.handleOutliers, output_models.shape_at.
  rewrite Hshape. simpl. rewrite Hloop. simpl.
  split; [done|]. split; [lia|]. intros t Ht. by apply Hrows.
Qed.

Lemma sum_of_ones_positive `{!OrderLaws F} `{!AddLaws F} `{!CompareLaws F} (n : nat) :
  0 < n -> flt fzero (seq_sum (replicate n (fone : F))) = true.
Proof.
  intros Hn. eapply flt_fle_trans; [apply fzero_lt_fone|].
  apply (seq_sum_elem _ 0).
  - apply Forall_replicate. apply flt_fle, fzero_lt_fone.
  - apply lookup_replicate_2. lia.
Qed.

Lemma without_outlier_sum `{!OrderLaws F} `{!AddLaws F} `{!CompareLaws F}
    (nStates : nat) (r : list F) :
  0 < nStates -> feq (seq_sum (without_outlier nStates r)) fzero = false.
Proof.
  intros Hn. unfold without_outlier.
  destruct (feq (seq_sum r) fzero) eqn:Hsum; [|done].
  apply feq_gt. by apply sum_of_ones_positive.
Qed.

(** X10. After [handleOutliers] no row of a trajectory with at least one
    state sums to zero. *)
Theorem handleOutliers_leaves_no_zero_row
    `{!OrderLaws F} `{!AddLaws F} `{!CompareLaws F}
    (a : np_array F) (nTimesteps nStates : nat) :
  shape a = [nTimesteps; nStates] -> length (buf a) = nTimesteps * nStates ->
  0 < nStates ->
  exists a',
    output_models.handleOutliers a = output_models.Returned a'
    /\ shape a' = shape a
    /\ forall t, t < nTimesteps ->
         feq (seq_sum (row nStates (buf a') t)) fzero = false.
Proof.
  intros Hshape Hlen HS.
  destruct (for_each_fill_outlier nStates nTimesteps (buf a) nTimesteps Hlen ltac:(lia))
    as (b & Hloop & Hbl & Hrows & _).
  exists (NpArray (shape a) b).
  unfold output_models.handleOutliers, output_models.shape_at.
  rewrite Hshape. simpl. rewrite Hloop. simpl.
  split; [done|]. split; [done|].
  intros t Ht. rewrite (Hrows t Ht). by apply without_outlier_sum.
Qed.


End Outliers.

Section Discrete_trajectory.
Context {F : Type} `{Numeric F}.

Lemma length_column (M : nat) (b : list F) (n o : nat) :
  length b = n * M -> o < M -> length (column M b n o) = n.
Proof.
  intros Hb Ho. unfold column.
  assert (Hgen : forall k, k <= n -> length (omap (fun i => b !! (i * M + o)) (seq 0 k)) = k).
  { induction k as [|k IH]; intros Hk; [done|].
    rewrite seq_S, omap_app, length_app, IH by lia. simpl.
    destruct (lookup_lt_is_Some_2 b (k * M + o)) as [x ->]; [nia|simpl; lia]. }
  by apply Hgen.
Qed.

Lemma lookup_column (M : nat) (b : list F) (n o i : nat) :
  length b = n * M -> o < M -> i < n ->
  column M b n o !! i = b !! (i * M + o).
Proof.
  intros Hb Ho Hi. unfold column.
  assert (Hgen : forall k, k <= n ->
             omap (fun i => b !! (i * M + o)) (seq 0 k)
             = map (fun i => default fzero (b !! (i * M + o))) (seq 0 k)).
  { induction k as [|k IH]; intros Hk; [done|].
    rewrite seq_S, omap_app, fmap_app, IH by lia. simpl.
    destruct (lookup_lt_is_Some_2 b (k * M + o)) as [x ->]; [nia|done]. }
  rewrite Hgen by lia. rewrite lookup_tabulate by done.
  destruct (lookup_lt_is_Some_2 b (i * M + o)) as [x ->]; [nia|done].
Qed.

Lemma at2_inside (a : np_array F) (n M i : nat) (o : Z) :
  shape a = [n; M] -> length (buf a) = n * M -> i < n -> (0 <= o < Z.of_nat M)%Z ->
  exists x, buf a !! (i * M + Z.to_nat o) = Some x
            /\ output_models.at2 a i o = output_models.Returned x.
Proof.
  intros Hshape Hlen Hi Ho.
  destruct (lookup_lt_is_Some_2 (buf a) (i * M + Z.to_nat o)) as [x Hx]; [nia|].
  exists x. split; [done|].
  unfold output_models.at2. rewrite Hshape.
  rewrite decide_False by lia. rewrite decide_False by lia.
  unfold output_models.at_raw. rewrite decide_True by lia.
  replace (Z.to_nat (Z.of_nat (i * M) + o)) with (i * M + Z.to_nat o) by lia.
  by rewrite Hx.
Qed.

Lemma output_row_inside (a : np_array F) (n M : nat) (o : Z) :
  shape a = [n; M] -> length (buf a) = n * M -> (0 <= o < Z.of_nat M)%Z ->
  output_models.discrete.output_row a n o
  = output_models.Returned (column M (buf a) n (Z.to_nat o)).
Proof.
  intros Hshape Hlen Ho. unfold output_models.discrete.output_row, column.
  assert (Hgen : forall k, k <= n ->
             output_models.for_each_result
               (fun r i => x ← output_models.at2 a i o;
                           output_models.Returned (r ++ [x]))
               (seq 0 k) []
             = output_models.Returned
                 (omap (fun i => buf a !! (i * M + Z.to_nat o)) (seq 0 k))).
  { induction k as [|k IH]; intros Hk; [done|].
    rewrite seq_S, for_each_result_app, IH by lia. simpl.
    destruct (at2_inside a n M k o Hshape Hlen ltac:(lia) Ho) as (x & Hx & ->). simpl.
    by rewrite omap_app; simpl; rewrite Hx. }
  by apply Hgen.
Qed.

Lemma trajectory_rows (openmp : bool) (obsBuf : list Z) (a : np_array F) (n M : nat)
    (k : nat) :
  shape a = [n; M] -> length (buf a) = n * M ->
  Forall (fun o => (0 <= o < Z.of_nat M)%Z) (take k obsBuf) -> k <= length obsBuf ->
  output_models.for_each_result
    (fun out t =>
       obsState ← output_models.defined (obsBuf !! t);
       r ← output_models.discrete.output_row a n obsState;
       output_models.Returned (out ++ r))
    (seq 0 k) []
  = output_models.Returned
      (concat (map (fun o => column M (buf a) n (Z.to_nat o)) (take k obsBuf))).
Proof.
  intros Hshape Hlen. induction k as [|k IH]; intros Hobs Hk; [done|].
  destruct (lookup_lt_is_Some_2 obsBuf k ltac:(lia)) as [o Ho].
  rewrite (take_S_r _ _ _ Ho) in Hobs. apply Forall_app in Hobs as [Hobs Hlast].
  rewrite Forall_singleton in Hlast.
  rewrite seq_S, for_each_result_app, IH by (done || lia). simpl.
  rewrite Ho. simpl.
  rewrite (output_row_inside a n M o) by done.
  simpl. rewrite (take_S_r _ _ _ Ho), fmap_app, concat_app. simpl.
  by rewrite app_nil_r.
Qed.

Lemma toOutputProbabilityTrajectory_returns (openmp : bool)
    (observations : np_array Z) (outputProbabilities : np_array F) (T n M : nat) :
  shape observations = [T] -> length (buf observations) = T -> 0 < T ->
  shape outputProbabilities = [n; M] -> length (buf outputProbabilities) = n * M ->
  Forall (fun o => (0 <= o < Z.of_nat M)%Z) (buf observations) ->
  let cols := map (fun o => column M (buf outputProbabilities) n (Z.to_nat o))
                  (buf observations) in
  output_models.discrete.toOutputProbabilityTrajectory openmp observations
    outputProbabilities
  = output_models.Returned (NpArray [T; n] (concat cols))
  /\ Forall (fun l => length l = n) cols
  /\ length (concat cols) = T * n.
Proof.
  intros Hso Hlo HT Hsp Hlp Hobs cols.
  assert (Hcols : Forall (fun l => length l = n) cols).
  { apply Forall_fmap. eapply Forall_impl; [exact Hobs|].
    intros o [Ho1 Ho2]. simpl. apply length_column; [done|lia]. }
  split; [|split; [done|]].
  - unfold output_models.discrete.toOutputProbabilityTrajectory,
      output_models.shape_at, ndim.
    rewrite Hso, Hsp. simpl. rewrite decide_False by lia.
    rewrite (trajectory_rows openmp (buf observations) outputProbabilities n M T)
      by (done || lia || by rewrite take_ge by lia).
    simpl. by rewrite take_ge by lia.
  - rewrite (length_concat_uniform cols n Hcols). unfold cols.
    by rewrite length_fmap, Hlo.
Qed.

(** X12. For a non-empty one-dimensional trajectory of symbols within
    [0, M) and an [n x M] matrix of output probabilities,
    [toOutputProbabilityTrajectory] returns a [T x n] array whose row [t] is
    the column of the matrix at the symbol observed at [t]. *)
Theorem toOutputProbabilityTrajectory_gathers_columns (openmp : bool)
    (observations : np_array Z) (outputProbabilities : np_array F) (T n M : nat) :
  shape observations = [T] -> length (buf observations) = T -> 0 < T ->
  shape outputProbabilities = [n; M] -> length (buf outputProbabilities) = n * M ->
  Forall (fun o => (0 <= o < Z.of_nat M)%Z) (buf observations) ->
  exists b,
    output_models.discrete.toOutputProbabilityTrajectory openmp observations
      outputProbabilities
    = output_models.Returned (NpArray [T; n] b)
    /\ length b = T * n
    /\ forall t o, buf observations !! t = Some o ->
         row n b t = column M (buf outputProbabilities) n (Z.to_nat o)
         /\ forall i, i < n ->
              b !! (t * n + i) = buf outputProbabilities !! (i * M + Z.to_nat o).
Proof.
  intros Hso Hlo HT Hsp Hlp Hobs.
  destruct (toOutputProbabilityTrajectory_returns openmp observations
              outputProbabilities T n M Hso Hlo HT Hsp Hlp Hobs)
    as (Hrun & Hcols & Hlen).
  eexists. split; [exact Hrun|]. split; [done|].
  intros t o Ho.
  set (cols := map (fun o => column M (buf outputProbabilities) n (Z.to_nat o))
                   (buf observations)) in *.
  assert (Hrow : row n (concat cols) t
                 = column M (buf outputProbabilities) n (Z.to_nat o)).
  { apply (row_concat cols n t); [done|]. unfold cols.
    by rewrite list_lookup_fmap, Ho. }
  split; [done|].
  intros i Hi.
  assert (HoM : (0 <= o < Z.of_nat M)%Z).
  { rewrite Forall_forall in Hobs. apply Hobs. by eapply list_elem_of_lookup_2. }
  simpl in HoM.
  assert (HoN : Z.to_nat o < M) by (clear -HoM; lia).
  rewrite <- (lookup_column M (buf outputProbabilities) n (Z.to_nat o) i Hlp HoN Hi).
  rewrite <- Hrow. unfold row. rewrite lookup_take, decide_True by done.
  by rewrite lookup_drop.
Qed.

Lemma first_outside (M : nat) (obsBuf : list Z) :
  Exists (fun o => (Z.of_nat M <= o)%Z) obsBuf ->
  exists t o, obsBuf !! t = Some o /\ (Z.of_nat M <= o)%Z
              /\ Forall (fun o' => (o' < Z.of_nat M)%Z) (take t obsBuf).
Proof.
  induction obsBuf as [|o obsBuf IH]; intros Hex; [by apply Exists_nil in Hex|].
  destruct (decide (Z.of_nat M <= o)%Z) as [Ho|Ho].
  - exists 0, o. split; [done|]. split; [done|constructor].
  - apply Exists_cons in Hex as [Hex|Hex]; [done|].
    destruct (IH Hex) as (t & o' & Ht & Ho' & Hbefore).
    exists (S t), o'. split; [done|]. split; [done|].
    simpl. constructor; [lia|done].
Qed.

(** X13. The failures of [toOutputProbabilityTrajectory].  Observations
    that are not one-dimensional raise [invalid_argument]; an empty
    trajectory raises [index_error]; and a symbol that is not below the
    number of columns, in a trajectory without negative symbols, raises
    [index_error] inside the parallel loop, which the caller receives in a
    build without OpenMP only. *)
Theorem toOutputProbabilityTrajectory_failures (openmp : bool)
    (observations : np_array Z) (outputProbabilities : np_array F) :
  (ndim observations <> 1 ->
   output_models.discrete.toOutputProbabilityTrajectory openmp observations
     outputProbabilities
   = output_models.Thrown
       (output_models.invalid_argument output_models.observations_not_one_dimensional))
  /\ (shape observations = [0] ->
      output_models.discrete.toOutputProbabilityTrajectory openmp observations
        outputProbabilities
      = output_models.Thrown output_models.index_error)
  /\ (forall T n M,
        shape observations = [T] -> length (buf observations) = T ->
        shape outputProbabilities = [n; M] -> length (buf outputProbabilities) = n * M ->
        0 < n ->
        Forall (fun o => (0 <= o)%Z) (buf observations) ->
        Exists (fun o => (Z.of_nat M <= o)%Z) (buf observations) ->
        output_models.discrete.toOutputProbabilityTrajectory openmp observations
          outputProbabilities
        = if openmp then output_models.Undefined
          else output_models.Thrown output_models.index_error).
Proof.
  split; [|split].
  - intros Hnd. unfold output_models.discrete.toOutputProbabilityTrajectory.
    by rewrite decide_True.
  - intros Hso. unfold output_models.discrete.toOutputProbabilityTrajectory,
      output_models.shape_at, ndim.
    rewrite Hso. simpl.
    by destruct (shape outputProbabilities !! 0).
  - intros T n M Hso Hlo Hsp Hlp Hn Hpos Hex.
    destruct (first_outside M (buf observations) Hex) as (t & o & Ht & Ho & Hbefore).
    assert (HtT : t < T) by (apply lookup_lt_Some in Ht; lia).
    unfold output_models.discrete.toOutputProbabilityTrajectory,
      output_models.shape_at, ndim.
    rewrite Hso, Hsp. simpl. rewrite decide_False by lia.
    replace T with (t + S (T - t - 1)) at 1 by lia.
    rewrite seq_app, for_each_result_app.
    rewrite (trajectory_rows openmp (buf observations) outputProbabilities n M t);
      [|done|done| |lia].
    + simpl. rewrite Ht. simpl.
      unfold output_models.discrete.output_row.
      assert (Hat : output_models.at2 outputProbabilities 0 o
                    = output_models.Thrown output_models.index_error).
      { unfold output_models.at2. rewrite Hsp.
        rewrite decide_False by lia. by rewrite decide_True. }
      destruct n as [|n]; [lia|]. simpl. rewrite Hat. simpl.
      by destruct openmp.
    + apply Forall_forall. intros o' Ho'.
      rewrite Forall_forall in Hbefore. pose proof (Hbefore o' Ho') as Hlt.
      rewrite Forall_forall in Hpos. simpl in Hlt. split; [|done].
      apply Hpos. apply elem_of_take in Ho' as (i & Hi & _).
      by eapply list_elem_of_lookup_2.
Qed.

(** X14. [handleOutliers] after [toOutputProbabilityTrajectory]: the row of
    a timestep becomes ones exactly when the column of its symbol sums to
    zero; when no observed symbol has such a column the trajectory is
    returned unchanged. *)
Theorem handleOutliers_of_trajectory `{Equality F} (openmp : bool)
    (observations : np_array Z) (outputProbabilities : np_array F) (T n M : nat) :
  shape observations = [T] -> length (buf observations) = T -> 0 < T ->
  shape outputProbabilities = [n; M] -> length (buf outputProbabilities) = n * M ->
  Forall (fun o => (0 <= o < Z.of_nat M)%Z) (buf observations) ->
  exists traj traj',
    output_models.discrete.toOutputProbabilityTrajectory openmp observations
      outputProbabilities
    = output_models.Returned traj
    /\ output_models.handleOutliers traj = output_models.Returned traj'
    /\ shape traj' = [T; n]
    /\ (forall t o, buf observations !! t = Some o ->
          row n (buf traj') t
          = if feq (seq_sum (column M (buf outputProbabilities) n (Z.to_nat o))) fzero
            then replicate n fone
            else column M (buf outputProbabilities) n (Z.to_nat o))
    /\ ((forall o, o ∈ buf observations ->
           feq (seq_sum (column M (buf outputProbabilities) n (Z.to_nat o))) fzero
           = false) ->
        traj' = traj).
Proof.
  intros Hso Hlo HT Hsp Hlp Hobs.
  destruct (toOutputProbabilityTrajectory_returns openmp observations
              outputProbabilities T n M Hso Hlo HT Hsp Hlp Hobs)
    as (Hrun & Hcols & Hlen).
  set (cols := map (fun o => column M (buf outputProbabilities) n (Z.to_nat o))
                   (buf observations)) in *.
  destruct (for_each_fill_outlier n T (concat cols) T Hlen ltac:(lia))
    as (b & Hloop & Hbl & Hrows & _).
  exists (NpArray [T; n] (concat cols)), (NpArray [T; n] b).
  split; [done|].
  assert (Hrow : forall t o, buf observations !! t = Some o ->
                   row n (concat cols) t
                   = column M (buf outputProbabilities) n (Z.to_nat o)).
  { intros t o Ho. apply (row_concat cols n t); [done|]. unfold cols.
    by rewrite list_lookup_fmap, Ho. }
  split.
  { unfold output_models.handleOutliers, output_models.shape_at. simpl.
    by rewrite Hloop. }
  split; [done|]. split.
  - intros t o Ho. simpl.
    rewrite (Hrows t) by (apply lookup_lt_Some in Ho; lia).
    by rewrite (Hrow t o Ho).
  - intros Hsums. f_equal.
    apply (rows_determine n T); [done|done|].
    intros t Ht.
    destruct (lookup_lt_is_Some_2 (buf observations) t ltac:(lia)) as [o Ho].
    rewrite (Hrows t Ht), (Hrow t o Ho). unfold without_outlier.
    rewrite Hsums; [done|]. by eapply list_elem_of_lookup_2.
Qed.

End Discrete_trajectory.

Section Discrete_update.
Context {F : Type} `{Numeric F}.

Lemma cell_apart (M i i' o o' : nat) :
  o < M -> o' < M -> i * M + o = i' * M + o' -> i = i' /\ o = o'.
Proof. intros Ho Ho' Heq. assert (i = i') by nia. subst. lia. Qed.

Lemma for_each_add_weight (N M : nat) (w : list F) (t : nat) (o : nat)
    (p : list F) (n : nat) :
  length p = N * M -> o < M -> t * N + N <= length w -> n <= N ->
  exists p',
    output_models.for_each
      (output_models.discrete.add_weight N M w t (Z.of_nat o)) (seq 0 n) p = Some p'
    /\ length p' = N * M
    /\ (forall i, i < n ->
          exists x wv, p !! (i * M + o) = Some x /\ w !! (t * N + i) = Some wv
                       /\ p' !! (i * M + o) = Some (fadd x wv))
    /\ (forall i o', i < N -> o' < M -> o' <> o \/ n <= i ->
          p' !! (i * M + o') = p !! (i * M + o')).
Proof.
  intros Hp Ho Hw. induction n as [|n IH]; intros Hn.
  - exists p. split; [done|]. split; [done|]. split; [intros; lia|done].
  - destruct IH as (p1 & Hloop & Hlen & Hdone & Hrest); [lia|].
    rewrite seq_S, for_each_app, Hloop. simpl.
    unfold output_models.discrete.add_weight, output_models.at_raw.
    rewrite decide_True by lia.
    replace (Z.to_nat (Z.of_nat (n * M) + Z.of_nat o)) with (n * M + o) by lia.
    destruct (lookup_lt_is_Some_2 p (n * M + o)) as [x Hx]; [nia|].
    destruct (lookup_lt_is_Some_2 w (t * N + n)) as [wv Hwv]; [lia|].
    rewrite (Hrest n o) by (lia || auto). rewrite Hx, Hwv. simpl.
    eexists. split; [reflexivity|].
    split; [by rewrite length_insert|]. split.
    + intros i Hi. destruct (decide (i = n)) as [->|Hne].
      * exists x, wv. split; [done|]. split; [done|].
        apply list_lookup_insert_eq. nia.
      * destruct (Hdone i ltac:(lia)) as (x' & wv' & Hx' & Hwv' & Hp').
        exists x', wv'. split; [done|]. split; [done|].
        rewrite list_lookup_insert_ne; [done|].
        intros Heq. apply cell_apart in Heq; [|done..]. lia.
    + intros i o' Hi Ho' Hcase.
      rewrite list_lookup_insert_ne.
      * apply Hrest; [done|done|]. destruct Hcase; [by left|right; lia].
      * intros Heq. apply cell_apart in Heq; [|done..]. lia.
Qed.

Lemma weights_of_S {A} (N : nat) (obsBuf : list Z) (w : list A) (T i o : nat) :
  weights_of N obsBuf w (S T) i o
  = weights_of N obsBuf w T i o
    ++ (if decide (obsBuf !! T = Some (Z.of_nat o))
        then option_list (w !! (T * N + i)) else []).
Proof.
  unfold weights_of. rewrite seq_S, filter_app, omap_app. f_equal. simpl.
  rewrite filter_cons, filter_nil.
  case_decide; simpl; [|done]. by destruct (w !! (T * N + i)).
Qed.

Lemma filter_none {A} (P : A -> Prop) `{!forall x, Decision (P x)} (l : list A) :
  Forall (fun x => ~ P x) l -> filter P l = [].
Proof.
  induction 1 as [|x l Hx _ IH]; [done|].
  rewrite filter_cons, decide_False by done. exact IH.
Qed.

Lemma for_each_add_weights (N M : nat) (obsBuf : list Z) (w : list F)
    (p : list F) (n : nat) :
  length p = N * M -> length obsBuf * N <= length w ->
  Forall (fun o => (0 <= o < Z.of_nat M)%Z) obsBuf -> n <= length obsBuf ->
  exists p',
    output_models.for_each
      (output_models.discrete.add_weights N M obsBuf w) (seq 0 n) p = Some p'
    /\ length p' = N * M
    /\ forall i o, i < N -> o < M ->
         exists x, p !! (i * M + o) = Some x
                   /\ p' !! (i * M + o)
                      = Some (fold_left fadd (weights_of N obsBuf w n i o) x).
Proof.
  intros Hp Hw Hobs. induction n as [|n IH]; intros Hn.
  - exists p. split; [done|]. split; [done|].
    intros i o Hi Ho.
    destruct (lookup_lt_is_Some_2 p (i * M + o)) as [x Hx]; [nia|].
    by exists x.
  - destruct IH as (p1 & Hloop & Hlen & Hcells); [lia|].
    rewrite seq_S, for_each_app, Hloop. simpl.
    unfold output_models.discrete.add_weights.
    destruct (lookup_lt_is_Some_2 obsBuf n ltac:(lia)) as [z Hz]. rewrite Hz. simpl.
    assert (Hzr : (0 <= z < Z.of_nat M)%Z).
    { rewrite Forall_forall in Hobs. apply Hobs. by eapply list_elem_of_lookup_2. }
    simpl in Hzr.
    assert (Hzo : z = Z.of_nat (Z.to_nat z)) by lia.
    assert (HoM : Z.to_nat z < M) by lia.
    rewrite Hzo.
    destruct (for_each_add_weight N M w n (Z.to_nat z) p1 N Hlen HoM ltac:(nia)
                ltac:(lia))
      as (p2 & Hinner & Hlen2 & Hdone & Hrest).
    rewrite Hinner. exists p2. split; [done|]. split; [done|].
    intros i o Hi Ho.
    destruct (Hcells i o Hi Ho) as (x & Hx & Hp1). exists x. split; [done|].
    rewrite weights_of_S, fold_left_app.
    destruct (decide (o = Z.to_nat z)) as [->|Hne].
    + rewrite decide_True by (rewrite Hz; f_equal; lia).
      destruct (Hdone i Hi) as (x' & wv & Hx' & Hwv & Hp2).
      rewrite Hp2, Hwv. simpl. rewrite Hp1 in Hx'. by injection Hx' as <-.
    + rewrite decide_False.
      * simpl. rewrite <- Hp1. apply Hrest; [done|done|by left].
      * rewrite Hz. intros Heq. injection Heq as Heq. lia.
Qed.

(** X15. [updatePOut] on symbols within [0, M): the cell of state [i] and
    symbol [o] receives, in the order of the timesteps, the weights that
    state [i] has at the timesteps observing [o], added to what the cell
    held; the columns of symbols that are not observed are unchanged. *)
Theorem updatePOut_accumulates (obs : np_array Z) (weights pout : np_array F)
    (T N M : nat) :
  output_models.size obs = T -> length (buf obs) = T ->
  shape pout = [N; M] -> length (buf pout) = N * M ->
  T * N <= length (buf weights) ->
  Forall (fun o => (0 <= o < Z.of_nat M)%Z) (buf obs) ->
  exists b,
    output_models.discrete.updatePOut obs weights pout
    = output_models.Returned (NpArray [N; M] b)
    /\ length b = N * M
    /\ (forall i o, i < N -> o < M ->
          exists x, buf pout !! (i * M + o) = Some x
                    /\ b !! (i * M + o)
                       = Some (fold_left fadd
                                 (weights_of N (buf obs) (buf weights) T i o) x))
    /\ (forall i o, i < N -> o < M -> Z.of_nat o ∉ buf obs ->
          b !! (i * M + o) = buf pout !! (i * M + o)).
Proof.
  intros Hsize Hlo Hsp Hlp Hlw Hobs.
  destruct (for_each_add_weights N M (buf obs) (buf weights) (buf pout) T Hlp
              ltac:(lia) Hobs ltac:(lia))
    as (b & Hloop & Hbl & Hcells).
  exists b. unfold output_models.discrete.updatePOut, output_models.shape_at.
  rewrite Hsp, Hsize. simpl. rewrite Hloop. simpl.
  split; [done|]. split; [done|]. split; [done|].
  intros i o Hi Ho Hnot.
  destruct (Hcells i o Hi Ho) as (x & Hx & ->). rewrite Hx. f_equal.
  unfold weights_of.
  replace (filter (fun t => buf obs !! t = Some (Z.of_nat o)) (seq 0 T)) with (@nil nat);
    [done|].
  symmetry. apply filter_none. apply Forall_forall. intros t _ Ht.
  apply Hnot. by eapply list_elem_of_lookup_2.
Qed.

Lemma for_each_ext {S A} (body body' : S -> A -> option S) (xs : list A) (s : S) :
  (forall s x, x ∈ xs -> body s x = body' s x) ->
  output_models.for_each body xs s = output_models.for_each body' xs s.
Proof.
  revert s. induction xs as [|x xs IH]; intros s Hext; simpl; [done|].
  rewrite (Hext s x) by apply list_elem_of_here.
  destruct (body' s x) as [s'|]; simpl; [|done].
  apply IH. intros s0 x0 Hx0. apply Hext. by apply list_elem_of_further.
Qed.

Lemma for_each_fmap {S A B} (f : A -> B) (body : S -> B -> option S)
    (xs : list A) (s : S) :
  output_models.for_each body (map f xs) s
  = output_models.for_each (fun s x => body s (f x)) xs s.
Proof.
  revert s. induction xs as [|x xs IH]; intros s; simpl; [done|].
  destruct (body s (f x)) as [s'|]; simpl; [apply IH|done].
Qed.

Lemma add_weights_first (N M : nat) (o1 o2 : list Z) (w1 w2 : list F)
    (p : list F) (t : nat) :
  length w1 = length o1 * N -> t < length o1 ->
  output_models.discrete.add_weights N M (o1 ++ o2) (w1 ++ w2) p t
  = output_models.discrete.add_weights N M o1 w1 p t.
Proof.
  intros Hw Ht. unfold output_models.discrete.add_weights.
  rewrite lookup_app_l by done.
  destruct (o1 !! t) as [o|]; simpl; [|done].
  apply for_each_ext. intros q i Hi. apply elem_of_seq in Hi.
  unfold output_models.discrete.add_weight.
  by rewrite lookup_app_l by nia.
Qed.

Lemma add_weights_second (N M : nat) (o1 o2 : list Z) (w1 w2 : list F)
    (p : list F) (t : nat) :
  length w1 = length o1 * N ->
  output_models.discrete.add_weights N M (o1 ++ o2) (w1 ++ w2) p (length o1 + t)
  = output_models.discrete.add_weights N M o2 w2 p t.
Proof.
  intros Hw. unfold output_models.discrete.add_weights.
  rewrite lookup_app_r by lia.
  replace (length o1 + t - length o1) with t by lia.
  destruct (o2 !! t) as [o|]; simpl; [|done].
  apply for_each_ext. intros q i Hi. apply elem_of_seq in Hi.
  unfold output_models.discrete.add_weight.
  rewrite lookup_app_r by nia.
  by replace ((length o1 + t) * N + i - length w1) with (t * N + i) by nia.
Qed.

(** X16. [updatePOut] on two trajectories one after the other is
    [updatePOut] on their concatenation, whether it returns or not. *)
Theorem updatePOut_of_concatenation (o1 o2 : list Z) (w1 w2 : list F)
    (pout : np_array F) (T1 T2 N M : nat) :
  shape pout = [N; M] -> length o1 = T1 -> length w1 = T1 * N ->
  output_models.discrete.updatePOut
    (NpArray [T1 + T2] (o1 ++ o2)) (NpArray [T1 + T2; N] (w1 ++ w2)) pout
  = output_models.discrete.updatePOut (NpArray [T1] o1) (NpArray [T1; N] w1) pout
    ≫= output_models.discrete.updatePOut (NpArray [T2] o2) (NpArray [T2; N] w2).
Proof.
  intros Hsp Ho1 Hw1. subst T1.
  unfold output_models.discrete.updatePOut, output_models.shape_at, output_models.size.
  rewrite Hsp. simpl. rewrite !Nat.mul_1_r.
  rewrite seq_app, for_each_app. simpl.
  rewrite (for_each_ext _ (output_models.discrete.add_weights N M o1 w1)).
  2:{ intros q t Ht. apply elem_of_seq in Ht. apply add_weights_first; [done|lia]. }
  destruct (output_models.for_each (output_models.discrete.add_weights N M o1 w1)
              (seq 0 (length o1)) (buf pout)) as [b1|]; simpl; [|done].
  replace (seq (length o1) T2) with (seq (length o1 + 0) T2) by (f_equal; lia).
  rewrite <- fmap_add_seq, for_each_fmap.
  rewrite (for_each_ext _ (output_models.discrete.add_weights N M o2 w2)); [done|].
  intros q t _. by apply add_weights_second.
Qed.

Section Mass.
Context `{!AddLaws F} `{!AssocLaws F} `{!CommLaws F}.

Lemma seq_sum_app (l1 l2 : list F) :
  seq_sum (l1 ++ l2) = fadd (seq_sum l1) (seq_sum l2).
Proof. unfold seq_sum. by rewrite fold_left_app, fold_left_fadd_start. Qed.

Lemma seq_sum_cons (x : F) (l : list F) : seq_sum (x :: l) = fadd x (seq_sum l).
Proof.
  unfold seq_sum. simpl. by rewrite fold_left_fadd_start, fadd_zero_l.
Qed.

Lemma seq_sum_insert (l : list F) (j : nat) (x w : F) :
  l !! j = Some x -> seq_sum (<[j := fadd x w]> l) = fadd (seq_sum l) w.
Proof.
  revert j. induction l as [|y l IH]; intros j Hj; [done|].
  destruct j as [|j]; simpl in *.
  - injection Hj as ->. rewrite !seq_sum_cons.
    rewrite <- !fadd_assoc. f_equal. apply fadd_comm.
  - rewrite !seq_sum_cons, (IH j Hj). by rewrite fadd_assoc.
Qed.

Lemma sum_after_add_weight (N M : nat) (w : list F) (t : nat) (o : Z)
    (p p' : list F) (n : nat) :
  output_models.for_each (output_models.discrete.add_weight N M w t o) (seq 0 n) p
  = Some p' ->
  seq_sum p' = fadd (seq_sum p) (seq_sum (take n (drop (t * N) w))).
Proof.
  revert p'. induction n as [|n IH]; intros p' Hloop.
  - simpl in Hloop. injection Hloop as <-. rewrite take_0.
    change (seq_sum (@nil F)) with (fzero : F). by rewrite fadd_zero_r.
  - rewrite seq_S, for_each_app in Hloop. simpl in Hloop.
    destruct (output_models.for_each _ (seq 0 n) p) as [p1|] eqn:Hp1; [|done].
    simpl in Hloop. unfold output_models.discrete.add_weight in Hloop.
    destruct (output_models.at_raw p1 (Z.of_nat (n * M) + o)) as [x|] eqn:Hx; [|done].
    simpl in Hloop.
    destruct (w !! (t * N + n)) as [wv|] eqn:Hwv; [|done].
    simpl in Hloop. injection Hloop as <-.
    unfold output_models.at_raw in Hx. case_decide; [|done].
    rewrite (seq_sum_insert _ _ _ _ Hx), (IH p1 eq_refl).
    rewrite (take_S_r _ _ wv) by (by rewrite lookup_drop).
    rewrite seq_sum_app, seq_sum_cons.
    change (seq_sum (@nil F)) with (fzero : F). by rewrite fadd_zero_r, fadd_assoc.
Qed.

Lemma sum_after_add_weights (N M : nat) (obsBuf : list Z) (w : list F)
    (p p' : list F) (n : nat) :
  n * N <= length w ->
  output_models.for_each (output_models.discrete.add_weights N M obsBuf w) (seq 0 n) p
  = Some p' ->
  seq_sum p' = fadd (seq_sum p) (seq_sum (take (n * N) w)).
Proof.
  revert p'. induction n as [|n IH]; intros p' Hw Hloop.
  - simpl in Hloop. injection Hloop as <-. rewrite take_0.
    change (seq_sum (@nil F)) with (fzero : F). by rewrite fadd_zero_r.
  - rewrite seq_S, for_each_app in Hloop. simpl in Hloop.
    destruct (output_models.for_each _ (seq 0 n) p) as [p1|] eqn:Hp1; [|done].
    simpl in Hloop. unfold output_models.discrete.add_weights in Hloop.
    destruct (obsBuf !! n) as [o|]; [|done]. simpl in Hloop.
    destruct (output_models.for_each (output_models.discrete.add_weight N M w n o)
                (seq 0 N) p1) as [p2|] eqn:Hp2; [|done].
    simpl in Hloop. injection Hloop as <-.
    rewrite (sum_after_add_weight N M w n o p1 p2 N Hp2).
    rewrite (IH p1) by (lia || done).
    rewrite <- fadd_assoc, <- seq_sum_app. f_equal. f_equal.
    replace (S n * N) with (n * N + N) by lia.
    rewrite <- (take_drop (n * N) (take (n * N + N) w)).
    rewrite take_take, Nat.min_l by lia. f_equal.
    by rewrite skipn_firstn_comm; replace (n * N + N - n * N) with N by lia.
Qed.

(** X17. With exact sums [updatePOut] adds the total of the weights it
    reads to the total of [pout]. *)
Theorem updatePOut_adds_total_weight (obs : np_array Z) (weights pout : np_array F)
    (T N M : nat) :
  output_models.size obs = T -> length (buf obs) = T ->
  shape pout = [N; M] -> length (buf pout) = N * M ->
  T * N <= length (buf weights) ->
  Forall (fun o => (0 <= o < Z.of_nat M)%Z) (buf obs) ->
  exists b,
    output_models.discrete.updatePOut obs weights pout
    = output_models.Returned (NpArray [N; M] b)
    /\ seq_sum b
       = fadd (seq_sum (buf pout)) (seq_sum (take (T * N) (buf weights))).
Proof.
  intros Hsize Hlo Hsp Hlp Hlw Hobs.
  destruct (for_each_add_weights N M (buf obs) (buf weights) (buf pout) T Hlp
              ltac:(lia) Hobs ltac:(lia))
    as (b & Hloop & _).
  exists b. unfold output_models.discrete.updatePOut, output_models.shape_at.
  rewrite Hsp, Hsize. simpl. rewrite Hloop. simpl. split; [done|].
  by apply (sum_after_add_weights N M (buf obs) (buf weights) (buf pout) b T).
Qed.

End Mass.

End Discrete_update.

Section Gaussian_facts.
Context {F : Type} `{Numeric F} `{Elementary F}.

(** The densities of one observation under the first [n] states. *)
Lemma for_each_sample_into (o : F) (musBuf sigmasBuf : list F) (off : nat)
    (pBuf : list F) (n : nat) :
  n <= length musBuf -> n <= length sigmasBuf -> off + n <= length pBuf ->
  output_models.for_each
    (output_models.gaussian.sample_into o musBuf sigmasBuf off) (seq 0 n) pBuf
  = Some (take off pBuf
          ++ zip_with (output_models.gaussian.sample o) (take n musBuf) (take n sigmasBuf)
          ++ drop (off + n) pBuf).
Proof.
  induction n as [|n IH]; intros Hm Hs Hp.
  - simpl. rewrite Nat.add_0_r. by rewrite ?take_0, take_drop.
  - rewrite seq_S, for_each_app, IH by lia. simpl.
    unfold output_models.gaussian.sample_into, output_models.gaussian.store.
    destruct (lookup_lt_is_Some_2 musBuf n ltac:(lia)) as [mu Hmu].
    destruct (lookup_lt_is_Some_2 sigmasBuf n ltac:(lia)) as [sigma Hsigma].
    rewrite Hmu, Hsigma. simpl.
    assert (Hzl : length (zip_with (output_models.gaussian.sample o)
                            (take n musBuf) (take n sigmasBuf)) = n).
    { rewrite length_zip_with, !length_take. lia. }
    rewrite decide_True.
    2:{ rewrite !length_app, length_take, Hzl, length_drop. lia. }
    f_equal.
    rewrite (take_S_r _ _ _ Hmu), (take_S_r _ _ _ Hsigma).
    rewrite zip_with_app by (rewrite !length_take; lia). simpl.
    rewrite insert_app_r_alt by (rewrite length_take; lia).
    rewrite length_take, Nat.min_l by lia.
    rewrite insert_app_r_alt by lia.
    rewrite Hzl. replace (off + n - off - n) with 0 by lia.
    rewrite <- app_assoc. f_equal. f_equal.
    destruct (drop (off + n) pBuf) as [|y rest] eqn:Hdrop.
    { apply (f_equal length) in Hdrop. rewrite length_drop in Hdrop. simpl in Hdrop. lia. }
    simpl. f_equal.
    replace (off + S n) with (off + n + 1) by lia.
    by rewrite <- drop_drop, Hdrop.
Qed.

(** X18. [pO] writes the densities of the [N] states into the first [N]
    cells.  Without [out] they are the result; an [out] of at least [N]
    cells keeps its shape and its cells from [N] on; an [out] of fewer cells
    is written past its end. *)
Theorem pO_writes_the_first_cells (o : F) (mus sigmas : np_array F)
    (out : option (np_array F)) (N : nat) :
  shape mus !! 0 = Some N -> N <= length (buf mus) -> N <= length (buf sigmas) ->
  let densities :=
    zip_with (output_models.gaussian.sample o) (take N (buf mus)) (take N (buf sigmas)) in
  match out with
  | None =>
      output_models.gaussian.pO o mus sigmas None
      = output_models.Returned (NpArray [N] densities)
  | Some a =>
      (N <= length (buf a) ->
       output_models.gaussian.pO o mus sigmas (Some a)
       = output_models.Returned (NpArray (shape a) (densities ++ drop N (buf a))))
      /\ (length (buf a) < N ->
          output_models.gaussian.pO o mus sigmas (Some a) = output_models.Undefined)
  end.
Proof.
  intros Hshape Hm Hs densities.
  unfold output_models.gaussian.pO, output_models.shape_at. rewrite Hshape. simpl.
  destruct out as [a|].
  - split.
    + intros Ha. by rewrite for_each_sample_into by (simpl; lia).
    + intros Ha.
      replace N with (length (buf a) + S (N - length (buf a) - 1)) by lia.
      rewrite seq_app, for_each_app.
      rewrite for_each_sample_into by (simpl; lia). simpl.
      unfold output_models.gaussian.sample_into, output_models.gaussian.store.
      destruct (lookup_lt_is_Some_2 (buf mus) (length (buf a)) ltac:(lia)) as [mu ->].
      destruct (lookup_lt_is_Some_2 (buf sigmas) (length (buf a)) ltac:(lia))
        as [sigma ->].
      simpl. rewrite decide_False; [done|].
      rewrite length_app, length_zip_with, !length_take, length_drop. lia.
  - rewrite for_each_sample_into by (simpl; rewrite ?length_replicate; lia). simpl.
    rewrite drop_ge by (rewrite length_replicate; lia).
    by rewrite app_nil_r.
Qed.

Lemma for_each_trajectory (obsBuf musBuf sigmasBuf : list F) (N T : nat)
    (pBuf : list F) (n : nat) :
  N <= length musBuf -> N <= length sigmasBuf -> length pBuf = T * N ->
  n <= T -> n <= length obsBuf ->
  output_models.for_each
    (fun pBuf t =>
       output_models.for_each
         (fun pBuf i =>
            o ← obsBuf !! t;
            output_models.gaussian.sample_into o musBuf sigmasBuf (t * N) pBuf i)
         (seq 0 N) pBuf)
    (seq 0 n) pBuf
  = Some (concat (map (fun o => zip_with (output_models.gaussian.sample o)
                                  (take N musBuf) (take N sigmasBuf))
                      (take n obsBuf))
          ++ drop (n * N) pBuf).
Proof.
  intros Hm Hs Hp. induction n as [|n IH]; intros HnT Hno.
  - by rewrite take_0, drop_0.
  - rewrite seq_S, for_each_app, IH by lia. simpl.
    destruct (lookup_lt_is_Some_2 obsBuf n ltac:(lia)) as [o Ho].
    rewrite (for_each_ext _ (output_models.gaussian.sample_into o musBuf sigmasBuf (n * N)))
      by (intros q i _; by rewrite Ho).
    set (rows := concat (map (fun o => zip_with (output_models.gaussian.sample o)
                                         (take N musBuf) (take N sigmasBuf))
                             (take n obsBuf))).
    assert (Hrl : length rows = n * N).
    { unfold rows. rewrite (length_concat_uniform _ N).
      - rewrite length_fmap, length_take. by rewrite Nat.min_l by lia.
      - apply Forall_fmap, Forall_forall. intros o' _. simpl.
        rewrite length_zip_with, !length_take. lia. }
    rewrite for_each_sample_into; [|lia|lia|].
    2:{ rewrite length_app, length_drop, Hrl. nia. }
    rewrite take_app_length' by done.
    rewrite drop_app_ge by lia. rewrite Hrl, drop_drop.
    replace (n * N + (n * N + N - n * N)) with (S n * N) by lia.
    rewrite (take_S_r _ _ _ Ho), fmap_app, concat_app. simpl.
    by rewrite app_nil_r, <- app_assoc.
Qed.

(** X19. Row [t] of the Gaussian [toOutputProbabilityTrajectory] is what
    [pO] returns for the observation at [t]. *)
Theorem trajectory_rows_are_pO (obs mus sigmas : np_array F) (T N : nat) :
  shape obs !! 0 = Some T -> shape mus !! 0 = Some N ->
  T <= length (buf obs) -> N <= length (buf mus) -> N <= length (buf sigmas) ->
  exists b,
    output_models.gaussian.toOutputProbabilityTrajectory obs mus sigmas
    = output_models.Returned (NpArray [T; N] b)
    /\ length b = T * N
    /\ forall t o, t < T -> buf obs !! t = Some o ->
         output_models.gaussian.pO o mus sigmas None
         = output_models.Returned (NpArray [N] (row N b t)).
Proof.
  intros Hso Hsm Ho Hm Hs.
  set (dens := fun o => zip_with (output_models.gaussian.sample o)
                          (take N (buf mus)) (take N (buf sigmas))).
  assert (Hdl : Forall (fun l => length l = N) (map dens (take T (buf obs)))).
  { apply Forall_fmap, Forall_forall. intros o' _. unfold dens. simpl.
    rewrite length_zip_with, !length_take. lia. }
  exists (concat (map dens (take T (buf obs)))).
  unfold output_models.gaussian.toOutputProbabilityTrajectory, output_models.shape_at.
  rewrite Hso, Hsm. simpl.
  rewrite (for_each_trajectory (buf obs) (buf mus) (buf sigmas) N T)
    by (done || lia || apply length_replicate).
  simpl. rewrite drop_ge by (rewrite length_replicate; lia). rewrite app_nil_r.
  fold dens. split; [done|]. split.
  - rewrite (length_concat_uniform _ N Hdl), length_fmap, length_take.
    by rewrite Nat.min_l by lia.
  - intros t o Ht Hot.
    rewrite (row_concat _ N t (dens o) Hdl).
    2:{ rewrite list_lookup_fmap, lookup_take, decide_True by done. by rewrite Hot. }
    unfold output_models.gaussian.pO, output_models.shape_at. rewrite Hsm. simpl.
    rewrite for_each_sample_into by (simpl; rewrite ?length_replicate; lia). simpl.
    rewrite drop_ge by (rewrite length_replicate; lia).
    by rewrite app_nil_r.
Qed.

End Gaussian_facts.

Section Fit.
Context {F : Type} `{Numeric F} `{Elementary F}.

Lemma column_S {A} (C : nat) (b : list A) (n i : nat) (x : A) :
  b !! (n * C + i) = Some x -> column C b (S n) i = column C b n i ++ [x].
Proof. intros Hx. unfold column. rewrite seq_S, omap_app. simpl. by rewrite Hx. Qed.

Lemma length_column_le {A} (C : nat) (b : list A) (n i : nat) :
  n * C <= length b -> i < C -> length (column C b n i) = n.
Proof.
  intros Hb Hi. induction n as [|n IH]; [done|].
  destruct (lookup_lt_is_Some_2 b (n * C + i)) as [x Hx]; [lia|].
  rewrite (column_S C b n i x Hx), length_app, IH by lia. simpl. lia.
Qed.

Lemma at1_inside {A} (a : np_array A) (T t : nat) :
  shape a = [T] -> length (buf a) = T -> t < T ->
  exists x, buf a !! t = Some x /\ output_models.at1 a t = output_models.Returned x.
Proof.
  intros Hshape Hlen Ht.
  destruct (lookup_lt_is_Some_2 (buf a) t ltac:(lia)) as [x Hx].
  exists x. split; [done|]. unfold output_models.at1. rewrite Hshape.
  rewrite decide_False by lia. by rewrite Hx.
Qed.

Lemma at2_cell {A} (a : np_array A) (R C t i : nat) :
  shape a = [R; C] -> length (buf a) = R * C -> t < R -> i < C ->
  exists x, buf a !! (t * C + i) = Some x
            /\ output_models.at2 a t (Z.of_nat i) = output_models.Returned x.
Proof.
  intros Hshape Hlen Ht Hi.
  destruct (lookup_lt_is_Some_2 (buf a) (t * C + i)) as [x Hx]; [nia|].
  exists x. split; [done|].
  unfold output_models.at2. rewrite Hshape.
  rewrite decide_False by lia. rewrite decide_False by lia.
  unfold output_models.at_raw. rewrite decide_True by lia.
  replace (Z.to_nat (Z.of_nat (t * C) + Z.of_nat i)) with (t * C + i) by lia.
  by rewrite Hx.
Qed.

Lemma trajectory_sum_ext (term term' : F -> F -> F) (obs w : np_array F) (i : nat) :
  (forall wt o, term wt o = term' wt o) ->
  trajectory_sum term obs w i = trajectory_sum term' obs w i.
Proof.
  intros Hext. unfold trajectory_sum.
  destruct (shape obs) as [|T [|? ?]]; try done.
  destruct (shape w) as [|R [|C [|? ?]]]; try done.
  f_equal. apply zip_with_ext; auto.
Qed.

Lemma state_sums_prefix (term : F -> F -> F) (obs w : np_array F)
    (T R C i m : nat) :
  shape obs = [T] -> length (buf obs) = T ->
  shape w = [R; C] -> length (buf w) = R * C -> i < C -> m <= T -> m <= R ->
  output_models.for_each_result
    (fun acc t =>
       wt ← output_models.at2 w t (Z.of_nat i);
       o ← output_models.at1 obs t;
       output_models.Returned (fadd acc.1 (term wt o), fadd acc.2 wt))
    (seq 0 m) (fzero, fzero)
  = output_models.Returned
      (seq_sum (zip_with term (column C (buf w) m i) (take m (buf obs))),
       seq_sum (column C (buf w) m i)).
Proof.
  intros Hso Hlo Hsw Hlw Hi. induction m as [|m IH]; intros HmT HmR; [done|].
  rewrite seq_S, for_each_result_app, IH by lia. simpl.
  destruct (at2_cell w R C m i Hsw Hlw ltac:(lia) ltac:(lia)) as (wt & Hwt & ->).
  destruct (at1_inside obs T m Hso Hlo ltac:(lia)) as (o & Ho & ->). simpl.
  rewrite (column_S C (buf w) m i wt Hwt), (take_S_r _ _ _ Ho).
  rewrite zip_with_app.
  2:{ rewrite length_column_le by nia. rewrite length_take. lia. }
  unfold seq_sum. by rewrite !fold_left_app.
Qed.

Lemma state_sums_covered (term : F -> F -> F) (obs w : np_array F) (n i : nat) :
  covered n (obs, w) -> i < n ->
  output_models.gaussian.state_sums term obs w i
  = output_models.Returned (trajectory_sum term obs w i, trajectory_weight obs w i).
Proof.
  intros (T & R & C & Hso & Hlo & Hsw & Hlw & HTR & HnC) Hi. simpl in *.
  unfold output_models.gaussian.state_sums, output_models.shape_at,
    trajectory_sum, trajectory_weight.
  rewrite Hso, Hsw. simpl.
  rewrite (state_sums_prefix term obs w T R C i T) by (done || lia).
  by rewrite take_ge by lia.
Qed.

Lemma state_sums_short (term : F -> F -> F) (obs w : np_array F) (T R C i : nat) :
  shape obs = [T] -> length (buf obs) = T ->
  shape w = [R; C] -> length (buf w) = R * C -> i < C -> R < T ->
  output_models.gaussian.state_sums term obs w i
  = output_models.Thrown output_models.index_error.
Proof.
  intros Hso Hlo Hsw Hlw Hi HRT.
  unfold output_models.gaussian.state_sums, output_models.shape_at.
  rewrite Hso. simpl.
  replace T with (R + S (T - R - 1)) at 1 by lia.
  rewrite seq_app, for_each_result_app.
  rewrite (state_sums_prefix term obs w T R C i R) by (done || lia).
  assert (Hat : output_models.at2 w R (Z.of_nat i)
                = output_models.Thrown output_models.index_error).
  { unfold output_models.at2. rewrite Hsw. by rewrite decide_True. }
  simpl. by rewrite Hat.
Qed.

Lemma for_each_add_state_sums (term : nat -> F -> F -> F) (obs w : np_array F)
    (n : nat) (s1 s2 : list F) (m : nat) :
  covered n (obs, w) -> length s1 = n -> length s2 = n -> m <= n ->
  output_models.for_each_result
    (output_models.gaussian.add_state_sums term obs w) (seq 0 m) (s1, s2)
  = output_models.Returned
      (zip_with fadd (take m s1)
         (map (fun i => trajectory_sum (term i) obs w i) (seq 0 m)) ++ drop m s1,
       zip_with fadd (take m s2)
         (map (fun i => trajectory_weight obs w i) (seq 0 m)) ++ drop m s2).
Proof.
  intros Hcov Hl1 Hl2. induction m as [|m IH]; intros Hm.
  - simpl. by rewrite ?take_0, ?drop_0.
  - rewrite seq_S, for_each_result_app, IH by lia. simpl.
    unfold output_models.gaussian.add_state_sums.
    rewrite (state_sums_covered (term m) obs w n m Hcov) by lia. simpl.
    destruct (lookup_lt_is_Some_2 s1 m ltac:(lia)) as [x1 Hx1].
    destruct (lookup_lt_is_Some_2 s2 m ltac:(lia)) as [x2 Hx2].
    assert (Hz : forall (s : list F) (f : nat -> F), length s = n ->
               length (zip_with fadd (take m s) (map f (seq 0 m))) = m).
    { intros s f Hs. rewrite length_zip_with, length_take, length_fmap, length_seq. lia. }
    rewrite !lookup_app_r by (rewrite Hz; (done || lia)).
    rewrite !Hz by done. rewrite Nat.sub_diag, !lookup_drop, !Nat.add_0_r.
    rewrite Hx1, Hx2. simpl. f_equal. f_equal.
    + rewrite insert_app_r_alt by (rewrite Hz; (done || lia)).
      rewrite Hz, Nat.sub_diag by done.
      rewrite (take_S_r _ _ _ Hx1), fmap_app.
      rewrite zip_with_app by (rewrite length_take, length_fmap, length_seq; lia).
      simpl. rewrite <- app_assoc. f_equal.
      rewrite (drop_S _ _ _ Hx1). done.
    + rewrite insert_app_r_alt by (rewrite Hz; (done || lia)).
      rewrite Hz, Nat.sub_diag by done.
      rewrite (take_S_r _ _ _ Hx2), fmap_app.
      rewrite zip_with_app by (rewrite length_take, length_fmap, length_seq; lia).
      simpl. rewrite <- app_assoc. f_equal.
      rewrite (drop_S _ _ _ Hx2). done.
Qed.

Lemma for_each_trajectories (term : nat -> F -> F -> F) (n : nat)
    (trajectories : list (np_array F * np_array F)) (s1 s2 : list F) :
  Forall (covered n) trajectories -> length s1 = n -> length s2 = n ->
  output_models.for_each_result
    (fun sums trajectory =>
       output_models.for_each_result
         (output_models.gaussian.add_state_sums term trajectory.1 trajectory.2)
         (seq 0 n) sums)
    trajectories (s1, s2)
  = output_models.Returned
      (map (fun i => fold_left fadd
                       (map (fun tr => trajectory_sum (term i) tr.1 tr.2 i) trajectories)
                       (default fzero (s1 !! i)))
           (seq 0 n),
       map (fun i => fold_left fadd
                       (map (fun tr => trajectory_weight tr.1 tr.2 i) trajectories)
                       (default fzero (s2 !! i)))
           (seq 0 n)).
Proof.
  intros Hcov. revert s1 s2.
  induction Hcov as [|[obs w] trajectories Hc _ IH]; intros s1 s2 Hl1 Hl2.
  - simpl. f_equal. f_equal.
    + apply list_eq. intros i. rewrite list_lookup_fmap.
      destruct (decide (i < n)) as [Hi|Hi].
      * rewrite lookup_seq_lt by done. simpl.
        destruct (lookup_lt_is_Some_2 s1 i ltac:(lia)) as [x ->]. done.
      * rewrite lookup_seq_ge by lia. simpl. apply lookup_ge_None_2. lia.
    + apply list_eq. intros i. rewrite list_lookup_fmap.
      destruct (decide (i < n)) as [Hi|Hi].
      * rewrite lookup_seq_lt by done. simpl.
        destruct (lookup_lt_is_Some_2 s2 i ltac:(lia)) as [x ->]. done.
      * rewrite lookup_seq_ge by lia. simpl. apply lookup_ge_None_2. lia.
  - simpl.
    rewrite (for_each_add_state_sums term obs w n s1 s2 n Hc Hl1 Hl2) by lia.
    simpl. rewrite !drop_ge, !app_nil_r, !take_ge by lia.
    rewrite IH by (rewrite length_zip_with, length_fmap, length_seq; lia).
    f_equal. f_equal.
    + apply Forall_fmap_ext, Forall_forall. intros i Hi%elem_of_seq.
      destruct (lookup_lt_is_Some_2 s1 i ltac:(lia)) as [x Hx].
      by rewrite lookup_zip_with, Hx, lookup_tabulate by lia.
    + apply Forall_fmap_ext, Forall_forall. intros i Hi%elem_of_seq.
      destruct (lookup_lt_is_Some_2 s2 i ltac:(lia)) as [x Hx].
      by rewrite lookup_zip_with, Hx, lookup_tabulate by lia.
Qed.

Lemma accumulate_sums (term : nat -> F -> F -> F) (n : nat)
    (trajectories : list (np_array F * np_array F)) :
  Forall (covered n) trajectories ->
  output_models.gaussian.accumulate term n trajectories
  = output_models.Returned
      (map (fun i => seq_sum (map (fun tr => trajectory_sum (term i) tr.1 tr.2 i)
                                  trajectories))
           (seq 0 n),
       map (fun i => seq_sum (map (fun tr => trajectory_weight tr.1 tr.2 i)
                                  trajectories))
           (seq 0 n)).
Proof.
  intros Hcov. unfold output_models.gaussian.accumulate.
  rewrite (for_each_trajectories term n trajectories) by (done || apply length_replicate).
  f_equal. f_equal.
  - apply Forall_fmap_ext, Forall_forall. intros i Hi%elem_of_seq.
    by rewrite lookup_replicate_2 by lia.
  - apply Forall_fmap_ext, Forall_forall. intros i Hi%elem_of_seq.
    by rewrite lookup_replicate_2 by lia.
Qed.

Lemma accumulate_no_states (term : nat -> F -> F -> F)
    (trajectories : list (np_array F * np_array F)) :
  output_models.gaussian.accumulate term 0 trajectories = output_models.Returned ([], []).
Proof.
  unfold output_models.gaussian.accumulate. simpl.
  induction trajectories as [|tr trajectories IH]; [done|]. exact IH.
Qed.

(** X20.  The edge behaviour of [gaussian::fit].  Lists of different lengths
    are refused with [invalid_argument].  With no hidden state the result is
    a pair of empty arrays, whatever the trajectories hold.  With no
    trajectory every mean is the quotient of zero by zero and every deviation
    the square root of that quotient.  A first trajectory whose weight matrix
    has fewer rows than there are observations makes [w.at(t, i)] raise
    [index_error]. *)
Theorem fit_edge_cases (nHiddenStates : nat) (observations weights : list (np_array F)) :
  (length observations <> length weights ->
   output_models.gaussian.fit nHiddenStates observations weights
   = output_models.Thrown
       (output_models.invalid_argument output_models.trajectories_and_weights_differ))
  /\ (length observations = length weights ->
      output_models.gaussian.fit 0 observations weights
      = output_models.Returned (NpArray [0] [], NpArray [0] []))
  /\ output_models.gaussian.fit nHiddenStates [] []
     = output_models.Returned
         (NpArray [nHiddenStates] (replicate nHiddenStates (fdiv fzero fzero)),
          NpArray [nHiddenStates]
            (replicate nHiddenStates (fsqrt (fdiv fzero fzero))))
  /\ (forall obs w T R C,
        observations <> [] -> head observations = Some obs -> head weights = Some w ->
        length observations = length weights ->
        shape obs = [T] -> length (buf obs) = T ->
        shape w = [R; C] -> length (buf w) = R * C ->
        R < T -> 0 < C -> 0 < nHiddenStates ->
        output_models.gaussian.fit nHiddenStates observations weights
        = output_models.Thrown output_models.index_error).
Proof.
  split; [|split; [|split]].
  - intros Hne. unfold output_models.gaussian.fit. by rewrite decide_True.
  - intros Heq. unfold output_models.gaussian.fit. rewrite decide_False by lia.
    rewrite accumulate_no_states. simpl. by rewrite accumulate_no_states.
  - unfold output_models.gaussian.fit, output_models.gaussian.accumulate. simpl.
    by rewrite !zip_with_replicate.
  - intros obs w T R C Hne Hobs Hw Hlen Hso Hlo Hsw Hlw HRT HC Hn.
    destruct observations as [|obs' observations]; [done|].
    destruct weights as [|w' weights]; [done|].
    simpl in Hobs, Hw. injection Hobs as ->. injection Hw as ->.
    unfold output_models.gaussian.fit. rewrite decide_False by lia.
    destruct nHiddenStates as [|n]; [lia|].
    unfold output_models.gaussian.accumulate.
    cbn [zip zip_with output_models.for_each_result seq fst snd].
    assert (Hadd : forall term sums,
               output_models.gaussian.add_state_sums term obs w sums 0
               = output_models.Thrown output_models.index_error).
    { intros term sums. unfold output_models.gaussian.add_state_sums.
      by rewrite (state_sums_short _ obs w T R C 0) by (done || lia). }
    by rewrite Hadd.
Qed.

(** X21.  When there are as many weight matrices as trajectories, every
    trajectory is one-dimensional and its weight matrix has at least as many
    rows as the trajectory has observations and at least [nHiddenStates]
    columns, [gaussian::fit] returns two arrays of [nHiddenStates] cells.
    The mean of state [i] is the weighted sum of the observations over the
    sum of the weights of the state; its deviation is the square root of the
    weighted sum of the squared differences to that mean over the same sum
    of weights.  Each trajectory is summed by itself before it joins the
    total. *)
Theorem fit_weighted_moments (nHiddenStates : nat)
    (observations weights : list (np_array F)) :
  length observations = length weights ->
  Forall (covered nHiddenStates) (zip observations weights) ->
  exists means sigmas,
    output_models.gaussian.fit nHiddenStates observations weights
    = output_models.Returned
        (NpArray [nHiddenStates] means, NpArray [nHiddenStates] sigmas)
    /\ length means = nHiddenStates /\ length sigmas = nHiddenStates
    /\ forall i, i < nHiddenStates ->
         let mean := moment fmul (zip observations weights) i in
         means !! i = Some mean
         /\ sigmas !! i
            = Some (fsqrt (moment (fun wt o => fmul (fmul wt (fsub o mean)) (fsub o mean))
                             (zip observations weights) i)).
Proof.
  intros Hlen Hcov.
  unfold output_models.gaussian.fit. rewrite decide_False by lia.
  rewrite accumulate_sums by done. cbn [mbind output_models.result_bind fst snd].
  rewrite accumulate_sums by done. cbn [mbind output_models.result_bind fst snd].
  eexists _, _. split; [reflexivity|].
  split; [by rewrite length_zip_with, !length_fmap, length_seq, Nat.min_id|].
  split; [by rewrite length_zip_with, !length_fmap, length_seq, Nat.min_id|].
  intros i Hi. unfold moment.
  assert (Hmean : zip_with fdiv
                    (map (fun i => seq_sum (map (fun tr => trajectory_sum
                                                             (fun wt o => fmul wt o)
                                                             tr.1 tr.2 i)
                                                (zip observations weights)))
                         (seq 0 nHiddenStates))
                    (map (fun i => seq_sum (map (fun tr => trajectory_weight tr.1 tr.2 i)
                                                (zip observations weights)))
                         (seq 0 nHiddenStates)) !! i
                  = Some (fdiv (seq_sum (map (fun tr => trajectory_sum fmul tr.1 tr.2 i)
                                             (zip observations weights)))
                               (seq_sum (map (fun tr => trajectory_weight tr.1 tr.2 i)
                                             (zip observations weights))))).
  { by rewrite lookup_zip_with, !lookup_tabulate by done. }
  split; [exact Hmean|].
  rewrite lookup_zip_with, !lookup_tabulate by done.
  cbn [mbind option_bind]. do 4 f_equal.
  apply Forall_fmap_ext, Forall_forall. intros tr _.
  apply trajectory_sum_ext. intros wt o. by rewrite Hmean.
Qed.

End Fit.

Section Fit_split.
Context {F : Type} `{Numeric F} `{Elementary F} `{!AddLaws F} `{!AssocLaws F}.

Lemma omap_agree {A B} (f g : A -> option B) (l : list A) :
  Forall (fun x => f x = g x) l -> omap f l = omap g l.
Proof.
  induction 1 as [|x l Hx _ IH]; [done|]. csimpl. by rewrite Hx, IH.
Qed.

Lemma omap_seq_ext {A} (f g : nat -> option A) (start n : nat) :
  (forall t, start <= t < start + n -> f t = g t) ->
  omap f (seq start n) = omap g (seq start n).
Proof.
  intros Hext. apply omap_agree, Forall_forall. intros t Ht%elem_of_seq.
  by apply Hext.
Qed.

Lemma omap_shifted {A} (f : nat -> option A) (k : nat) (l : list nat) :
  omap f ((fun t => k + t) <$> l) = omap (fun t => f (k + t)) l.
Proof.
  induction l as [|x l IH]; [done|]. csimpl. by rewrite IH.
Qed.

Lemma omap_seq_shift {A} (f : nat -> option A) (k start n : nat) :
  omap f (seq (k + start) n) = omap (fun t => f (k + t)) (seq start n).
Proof.
  by rewrite <- fmap_add_seq, omap_shifted.
Qed.

Lemma column_app {A} (C : nat) (bA bB : list A) (TA TB i : nat) :
  length bA = TA * C -> i < C ->
  column C (bA ++ bB) (TA + TB) i = column C bA TA i ++ column C bB TB i.
Proof.
  intros HA Hi. unfold column. rewrite seq_app, omap_app. f_equal.
  - apply omap_seq_ext. intros t Ht. apply lookup_app_l. nia.
  - replace (0 + TA) with (TA + 0) by lia. rewrite omap_seq_shift.
    apply omap_seq_ext. intros t Ht. rewrite lookup_app_r by nia.
    f_equal. nia.
Qed.

Lemma trajectory_sum_split (term : F -> F -> F) (oA oB wA wB : list F)
    (TA TB C i : nat) :
  length oA = TA -> length wA = TA * C -> i < C ->
  trajectory_sum term (NpArray [TA + TB] (oA ++ oB)) (NpArray [TA + TB; C] (wA ++ wB)) i
  = fadd (trajectory_sum term (NpArray [TA] oA) (NpArray [TA; C] wA) i)
         (trajectory_sum term (NpArray [TB] oB) (NpArray [TB; C] wB) i).
Proof.
  intros HoA HwA Hi. unfold trajectory_sum. simpl.
  rewrite (column_app C wA wB TA TB i) by done.
  rewrite zip_with_app by (rewrite length_column_le by lia; lia).
  apply seq_sum_app.
Qed.

Lemma trajectory_weight_split (oA oB wA wB : list F) (TA TB C i : nat) :
  length wA = TA * C -> i < C ->
  trajectory_weight (NpArray [TA + TB] (oA ++ oB)) (NpArray [TA + TB; C] (wA ++ wB)) i
  = fadd (trajectory_weight (NpArray [TA] oA) (NpArray [TA; C] wA) i)
         (trajectory_weight (NpArray [TB] oB) (NpArray [TB; C] wB) i).
Proof.
  intros HwA Hi. unfold trajectory_weight. simpl.
  rewrite (column_app C wA wB TA TB i) by done.
  apply seq_sum_app.
Qed.

Lemma sums_of_split {T} (f : T -> F) (pre post : list T) (whole first second : T) :
  f whole = fadd (f first) (f second) ->
  seq_sum (map f (pre ++ [whole] ++ post))
  = seq_sum (map f (pre ++ [first; second] ++ post)).
Proof.
  intros Hsplit. rewrite !fmap_app, !seq_sum_app. f_equal. simpl.
  rewrite !seq_sum_cons, Hsplit. by rewrite fadd_assoc.
Qed.

(** X22.  In arithmetic whose addition is associative and has zero as its
    unit, cutting a trajectory and its weight matrix into two consecutive
    pieces changes nothing: [gaussian::fit] returns in both cases, and returns
    the same means and deviations. *)
Theorem fit_of_split_trajectory (nHiddenStates : nat)
    (pre post : list (np_array F * np_array F)) (oA oB wA wB : list F)
    (TA TB C : nat) :
  Forall (covered nHiddenStates) pre -> Forall (covered nHiddenStates) post ->
  length oA = TA -> length oB = TB -> length wA = TA * C -> length wB = TB * C ->
  nHiddenStates <= C ->
  let whole := (NpArray [TA + TB] (oA ++ oB), NpArray [TA + TB; C] (wA ++ wB)) in
  let first := (NpArray [TA] oA, NpArray [TA; C] wA) in
  let second := (NpArray [TB] oB, NpArray [TB; C] wB) in
  (exists means sigmas,
     output_models.gaussian.fit nHiddenStates
       (pre ++ [whole] ++ post).*1 (pre ++ [whole] ++ post).*2
     = output_models.Returned
         (NpArray [nHiddenStates] means, NpArray [nHiddenStates] sigmas))
  /\ output_models.gaussian.fit nHiddenStates
       (pre ++ [whole] ++ post).*1 (pre ++ [whole] ++ post).*2
     = output_models.gaussian.fit nHiddenStates
         (pre ++ [first; second] ++ post).*1 (pre ++ [first; second] ++ post).*2.
Proof.
  intros Hpre Hpost HoA HoB HwA HwB HnC whole first second.
  assert (Hwhole : covered nHiddenStates whole).
  { exists (TA + TB), (TA + TB), C. simpl. rewrite !length_app.
    repeat split; (done || lia || nia). }
  assert (Hfirst : covered nHiddenStates first).
  { exists TA, TA, C. simpl. repeat split; (done || lia). }
  assert (Hsecond : covered nHiddenStates second).
  { exists TB, TB, C. simpl. repeat split; (done || lia). }
  assert (HL : Forall (covered nHiddenStates) (pre ++ [whole] ++ post)).
  { apply Forall_app. split; [done|]. by constructor. }
  assert (HR : Forall (covered nHiddenStates) (pre ++ [first; second] ++ post)).
  { apply Forall_app. split; [done|]. constructor; [done|]. by constructor. }
  assert (Hsums : forall (term : nat -> F -> F -> F),
            output_models.gaussian.accumulate term nHiddenStates
              (pre ++ [whole] ++ post)
            = output_models.gaussian.accumulate term nHiddenStates
                (pre ++ [first; second] ++ post)).
  { intros term. rewrite !accumulate_sums by done. f_equal. f_equal.
    - apply Forall_fmap_ext, Forall_forall. intros i Hi%elem_of_seq.
      apply (sums_of_split (fun tr => trajectory_sum (term i) tr.1 tr.2 i)).
      apply trajectory_sum_split; (done || lia).
    - apply Forall_fmap_ext, Forall_forall. intros i Hi%elem_of_seq.
      apply (sums_of_split (fun tr => trajectory_weight tr.1 tr.2 i)).
      apply trajectory_weight_split; (done || lia). }
  split.
  - unfold output_models.gaussian.fit.
    rewrite decide_False by (rewrite !length_fmap; lia).
    rewrite zip_fst_snd.
    rewrite accumulate_sums by done. cbn [mbind output_models.result_bind fst snd].
    rewrite accumulate_sums by done. cbn [mbind output_models.result_bind fst snd].
    by eexists _, _.
  - unfold output_models.gaussian.fit.
    rewrite !decide_False by (rewrite !length_fmap; lia).
    rewrite !zip_fst_snd. rewrite Hsums.
    destruct (output_models.gaussian.accumulate _ nHiddenStates
                (pre ++ [first; second] ++ post)) as [sums| |]; [|done|done].
    cbn [mbind output_models.result_bind]. by rewrite Hsums.
Qed.

End Fit_split.

(** * The properties at concrete inputs *)

Lemma Q_compare : CompareLaws Q.
Proof.
  split.
  - intros a b Hlt. apply Q_flt in Hlt.
    destruct (feq a b) eqn:Heq; [|done].
    apply Qeq_bool_iff in Heq. rewrite Heq in Hlt. by apply Qlt_irrefl in Hlt.
  - intros a b Hlt. apply Q_flt in Hlt.
    destruct (feq a b) eqn:Heq; [|done].
    apply Qeq_bool_iff in Heq. rewrite Heq in Hlt. by apply Qlt_irrefl in Hlt.
  - reflexivity.
Qed.
#[global] Existing Instance Q_compare.

Lemma Q_comm : CommLaws Q.
Proof.
  split. intros [a b] [c d]. unfold fadd. simpl. unfold Qplus. simpl.
  f_equal; [lia|apply Pos.mul_comm].
Qed.
#[global] Existing Instance Q_comm.

Lemma seed_outcomes_witness :
  exists c st, initKmeansPlusPlus false line3 2 sq_euclid_Q 83 1 None 0 = Returned (c, st).
Proof.
  destruct (seed_outcomes false line3 2 sq_euclid_Q 83 1 None 0 3) as (_ & _ & Hiff);
    [reflexivity|intros D HD; injection HD as <-; reflexivity|lia|].
  apply Hiff. split; [lia|reflexivity].
Defined.

Lemma first_center_is_the_drawn_frame_witness :
  exists c st,
    initKmeansPlusPlus false line3 2 sq_euclid_Q 83 1 None 0 = Returned (c, st)
    /\ row 1 (buf c) 0 = [0%Q].
Proof.
  destruct (first_center_is_the_drawn_frame false line3 2 sq_euclid_Q 83 1 None 0 3 1)
    as (c & st & Hrun & Hrow & _); [reflexivity|reflexivity|lia|].
  exists c, st. split; [done|]. rewrite Hrow. reflexivity.
Defined.

Lemma prefix_sums_invariant_witness :
  exists st,
    after_center false line3 2 sq_euclid_Q 83 1 None 0 3 1 1 = Returned st
    /\ ascending (distancesCumsum st)
    /\ last (distancesCumsum st) = Some (currentPotential st).
Proof.
  destruct (prefix_sums_invariant false line3 2 sq_euclid_Q 83 1 None 0 3 1 1)
    as (st & Hst & _ & _ & _ & Hasc & _ & _ & Hlast);
    [reflexivity|reflexivity|lia|apply sq_euclid_Q_nonneg|lia|].
  exists st. split; [done|]. split; [done|]. apply Hlast. right. by left.
Defined.


Lemma search_never_clamps_witness :
  exists st s,
    after_center false line3 2 sq_euclid_Q 83 1 None 0 3 1 0 = Returned st
    /\ select sq_euclid_Q None (nTrials 2) (buf line3) 3 1 st = Returned s
    /\ forall i t id, trialValues s !! i = Some t -> candidatesIds s !! i = Some id ->
         fle t (currentPotential st) = true.
Proof.
  destruct (search_never_clamps false line3 2 sq_euclid_Q 83 1 None 0 3 1 1)
    as (st & s & Hst & Hs & Hall);
    [reflexivity|reflexivity|lia|apply sq_euclid_Q_nonneg|lia|by left|].
  exists st, s. split; [done|]. split; [done|].
  intros i t id Ht Hid. by destruct (Hall i t id Ht Hid).
Defined.

Lemma potentials_are_minimal_distances_witness :
  exists st,
    after_center false line3 2 sq_euclid_Q 83 1 None 0 3 1 1 = Returned st
    /\ length (distances st) = 3.
Proof.
  destruct (potentials_are_minimal_distances false line3 2 sq_euclid_Q 83 1 None 0 3 1 1)
    as (st & Hst & Hlen & _); [reflexivity|reflexivity|lia|lia|].
  by exists st.
Defined.


Lemma assignCenter_frame_witness :
  exists centers',
    assignCenter 2 1 [0%Q; 1%Q; 3%Q] [0%Q; 0%Q] (1 * 1) = Some centers'
    /\ row 1 centers' 1 = [3%Q].
Proof.
  destruct (assignCenter_frame 2 1 [0%Q; 1%Q; 3%Q] [0%Q; 0%Q] 3 1 2)
    as (centers' & Hrun & _ & Hrow & _); [reflexivity|reflexivity|lia|lia|].
  by exists centers'.
Defined.

Lemma handleOutliers_rows_witness :
  exists b,
    output_models.handleOutliers silent2 = output_models.Returned (NpArray [2; 2] b)
    /\ row 2 b 0 = [1%Q; 1%Q] /\ row 2 b 1 = [1 # 4; 3 # 4].
Proof.
  destruct (handleOutliers_rows silent2 2 2) as (b & Hrun & _ & Hrows);
    [reflexivity|reflexivity|].
  exists b. split; [done|].
  split; [exact (Hrows 0 ltac:(lia))|exact (Hrows 1 ltac:(lia))].
Defined.

Lemma handleOutliers_leaves_no_zero_row_witness :
  exists a',
    output_models.handleOutliers silent2 = output_models.Returned a'
    /\ feq (seq_sum (row 2 (buf a') 0)) 0%Q = false.
Proof.
  destruct (handleOutliers_leaves_no_zero_row silent2 2 2) as (a' & Hrun & _ & Hrows);
    [reflexivity|reflexivity|lia|].
  exists a'. split; [done|]. apply Hrows. lia.
Defined.


Lemma observed3_in_range :
  Forall (fun o => (0 <= o < Z.of_nat 3)%Z) (buf observed3).
Proof. repeat constructor; simpl; lia. Qed.

Lemma toOutputProbabilityTrajectory_gathers_columns_witness :
  exists b,
    output_models.discrete.toOutputProbabilityTrajectory true observed3 emission2x3
    = output_models.Returned (NpArray [3; 2] b)
    /\ row 2 b 1 = [0%Q; 0%Q].
Proof.
  destruct (toOutputProbabilityTrajectory_gathers_columns true observed3 emission2x3
              3 2 3)
    as (b & Hrun & _ & Hrows);
    [reflexivity|reflexivity|lia|reflexivity|reflexivity|apply observed3_in_range|].
  exists b. split; [done|]. exact (proj1 (Hrows 1 2%Z eq_refl)).
Defined.

Lemma toOutputProbabilityTrajectory_failures_witness :
  output_models.discrete.toOutputProbabilityTrajectory false
    (NpArray [2] [0%Z; 3%Z]) emission2x3
  = output_models.Thrown output_models.index_error.
Proof.
  apply (proj2 (proj2 (toOutputProbabilityTrajectory_failures false
                         (NpArray [2] [0%Z; 3%Z]) emission2x3)) 2 2 3);
    try reflexivity; [lia| |].
  - repeat constructor; lia.
  - apply Exists_cons_tl, Exists_cons_hd. simpl. lia.
Defined.

Lemma handleOutliers_of_trajectory_witness :
  exists traj traj',
    output_models.discrete.toOutputProbabilityTrajectory true observed3 emission2x3
    = output_models.Returned traj
    /\ output_models.handleOutliers traj = output_models.Returned traj'
    /\ row 2 (buf traj') 1 = [1%Q; 1%Q]
    /\ row 2 (buf traj') 2 = [1 # 2; 3 # 4].
Proof.
  destruct (handleOutliers_of_trajectory true observed3 emission2x3 3 2 3)
    as (traj & traj' & Hrun & Hout & _ & Hrows & _);
    [reflexivity|reflexivity|lia|reflexivity|reflexivity|apply observed3_in_range|].
  exists traj, traj'. split; [done|]. split; [done|].
  split; [exact (Hrows 1 2%Z eq_refl)|exact (Hrows 2 1%Z eq_refl)].
Defined.

Lemma updatePOut_accumulates_witness :
  exists b,
    output_models.discrete.updatePOut observed3 weights3x2 counts2x3
    = output_models.Returned (NpArray [2; 3] b)
    /\ length b = 2 * 3.
Proof.
  destruct (updatePOut_accumulates observed3 weights3x2 counts2x3 3 2 3)
    as (b & Hrun & Hlen & _);
    [reflexivity|reflexivity|reflexivity|reflexivity|simpl; lia
    |apply observed3_in_range|].
  by exists b.
Defined.

Lemma updatePOut_of_concatenation_witness :
  output_models.discrete.updatePOut
    (NpArray [1 + 2] ([0%Z] ++ [2%Z; 1%Z]))
    (NpArray [1 + 2; 2] ([1%Q; 0%Q] ++ [0%Q; 1%Q; 1 # 2; 1 # 2])) counts2x3
  = output_models.discrete.updatePOut (NpArray [1] [0%Z]) (NpArray [1; 2] [1%Q; 0%Q])
      counts2x3
    ≫= output_models.discrete.updatePOut
         (NpArray [2] [2%Z; 1%Z]) (NpArray [2; 2] [0%Q; 1%Q; 1 # 2; 1 # 2]).
Proof.
  apply (updatePOut_of_concatenation [0%Z] [2%Z; 1%Z] [1%Q; 0%Q]
           [0%Q; 1%Q; 1 # 2; 1 # 2] counts2x3 1 2 2 3); reflexivity.
Defined.

Lemma updatePOut_adds_total_weight_witness :
  exists b,
    output_models.discrete.updatePOut observed3 weights3x2 counts2x3
    = output_models.Returned (NpArray [2; 3] b)
    /\ seq_sum b
       = fadd (seq_sum (buf counts2x3)) (seq_sum (take (3 * 2) (buf weights3x2))).
Proof.
  apply (updatePOut_adds_total_weight observed3 weights3x2 counts2x3 3 2 3);
    [reflexivity|reflexivity|reflexivity|reflexivity|simpl; lia
    |apply observed3_in_range].
Defined.

Lemma pO_writes_the_first_cells_witness :
  @output_models.gaussian.pO R R_numeric R_elementary 0%R mus2 sigmas2 None
  = output_models.Returned
      (NpArray [2]
         [@output_models.gaussian.sample R R_numeric R_elementary 0%R 0%R 1%R;
          @output_models.gaussian.sample R R_numeric R_elementary 0%R 1%R 2%R]).
Proof.
  apply (@pO_writes_the_first_cells R R_numeric R_elementary 0%R mus2 sigmas2 None 2);
    [reflexivity|simpl; lia|simpl; lia].
Defined.

Lemma trajectory_rows_are_pO_witness :
  exists b,
    @output_models.gaussian.toOutputProbabilityTrajectory R R_numeric R_elementary
      obs2 mus2 sigmas2
    = output_models.Returned (NpArray [2; 2] b)
    /\ @output_models.gaussian.pO R R_numeric R_elementary 3%R mus2 sigmas2 None
       = output_models.Returned (NpArray [2] (row 2 b 1)).
Proof.
  destruct (@trajectory_rows_are_pO R R_numeric R_elementary obs2 mus2 sigmas2 2 2)
    as (b & Hrun & _ & Hrows);
    [reflexivity|reflexivity|simpl; lia|simpl; lia|simpl; lia|].
  exists b. split; [done|]. apply (Hrows 1 3%R); [lia|reflexivity].
Defined.

Lemma R_add_laws : @AddLaws R R_numeric.
Proof.
  split.
  - intros a a' b b'. unfold fle. simpl.
    repeat destruct (Rlt_dec _ _); simpl; (done || intros _ _; lra).
  - intros a. simpl. lra.
  - intros a. simpl. lra.
Qed.

Lemma R_assoc_laws : @AssocLaws R R_numeric.
Proof.
  split. intros a b c. simpl. lra.
Qed.

Lemma fit_edge_cases_witness :
  @output_models.gaussian.fit R R_numeric R_elementary 2 [heard2] []
  = output_models.Thrown
      (output_models.invalid_argument output_models.trajectories_and_weights_differ)
  /\ @output_models.gaussian.fit R R_numeric R_elementary 2 [heard2] [shares1x2]
     = output_models.Thrown output_models.index_error.
Proof.
  split.
  - apply (proj1 (@fit_edge_cases R R_numeric R_elementary 2 [heard2] [])).
    simpl. lia.
  - apply (proj2 (proj2 (proj2 (@fit_edge_cases R R_numeric R_elementary 2
                                   [heard2] [shares1x2])))
             heard2 shares1x2 2 1 2);
      (reflexivity || done || lia).
Defined.

Lemma fit_weighted_moments_witness :
  exists means sigmas,
    @output_models.gaussian.fit R R_numeric R_elementary 2 [heard2] [shares2x2]
    = output_models.Returned (NpArray [2] means, NpArray [2] sigmas)
    /\ means !! 1
       = Some (@moment R R_numeric R_elementary Rmult [(heard2, shares2x2)] 1).
Proof.
  destruct (@fit_weighted_moments R R_numeric R_elementary 2 [heard2] [shares2x2])
    as (means & sigmas & Hfit & _ & _ & Hmoments).
  - reflexivity.
  - apply Forall_singleton. exists 2, 2, 2. simpl. repeat split; lia.
  - exists means, sigmas. split; [done|].
    assert (Hone : 1 < 2) by lia. exact (proj1 (Hmoments 1 Hone)).
Defined.

Lemma fit_of_split_trajectory_witness :
  @output_models.gaussian.fit R R_numeric R_elementary 2 [heard2] [shares2x2]
  = @output_models.gaussian.fit R R_numeric R_elementary 2
      [NpArray [1] [1%R]; NpArray [1] [3%R]]
      [NpArray [1; 2] [1%R; 0%R]; NpArray [1; 2] [0%R; 1%R]].
Proof.
  apply (proj2 (@fit_of_split_trajectory R R_numeric R_elementary R_add_laws
                  R_assoc_laws 2 [] [] [1%R] [3%R] [1%R; 0%R] [0%R; 1%R] 1 1 2
                  (Forall_nil_2 _) (Forall_nil_2 _) eq_refl eq_refl eq_refl eq_refl
                  (le_n 2))).
Defined.
